(** * DOM tree differ of the browser extension's background script

    A shallow embedding of
    [chrome-extension/src/background/dom/history/dom-diff.ts]:
    the similarity scorer, the field-level change detector, the recursive
    node matcher with its two exclusion sets, the sweeps that collect
    unmatched nodes, and the delayed comparison driver.

    Modelling conventions.
    - A JavaScript object reference is a natural number [ref]; a
      [Set<DOMElementNode>] is a [gset nat] of such references.  A snapshot
      is well formed when no reference occurs twice in it.
    - A JavaScript number is a binary64 floating-point number ([float]):
      viewport coordinates are such numbers, and module [Binary64] holds
      the similarity scorer and the selection of the best candidate with
      the roundings of the machine.  Next to it the score is kept as the
      rational number ([Q]) that the same expression denotes without
      rounding, and the comparator is given over either score.
    - A string is the sequence of the bytes of its UTF-8 encoding.
    - An attribute object is a plain object: its own entries are an
      association list in enumeration order, with unique keys, and it
      inherits the members of [Object.prototype].
    - [async] functions are run to completion; the only observable effects
      (console output, the timer, the snapshot provider) are recorded as a
      trace of events in the driver. *)

From Stdlib Require Import ZArith QArith String Ascii List Sorted Lia Lqa Permutation DecimalString Floats.
From stdpp Require Import base gmap sets list strings.

Local Open Scope string_scope.
Local Open Scope list_scope.

(** ** Node model *)

Inductive DOMElementNode : Type :=
  mkDOMElementNode
    (ref : nat)
    (tagName : string)
    (xpath : string)
    (attributes : list (string * string))
    (children : list DOMBaseNode)
    (isVisible : bool)
    (isInteractive : bool)
    (viewportCoordinates : option (float * float))
with DOMBaseNode : Type :=
| DOMTextNode (text : string)
| DOMElement (e : DOMElementNode).

Definition ref (e : DOMElementNode) : nat :=
  match e with mkDOMElementNode r _ _ _ _ _ _ _ => r end.
Definition tagName (e : DOMElementNode) : string :=
  match e with mkDOMElementNode _ t _ _ _ _ _ _ => t end.
Definition xpath (e : DOMElementNode) : string :=
  match e with mkDOMElementNode _ _ x _ _ _ _ _ => x end.
Definition attributes (e : DOMElementNode) : list (string * string) :=
  match e with mkDOMElementNode _ _ _ a _ _ _ _ => a end.
Definition children (e : DOMElementNode) : list DOMBaseNode :=
  match e with mkDOMElementNode _ _ _ _ c _ _ _ => c end.
Definition isVisible (e : DOMElementNode) : bool :=
  match e with mkDOMElementNode _ _ _ _ _ v _ _ => v end.
Definition isInteractive (e : DOMElementNode) : bool :=
  match e with mkDOMElementNode _ _ _ _ _ _ i _ => i end.
(** [viewportCoordinates e] is the [center] of the optional coordinate set. *)
Definition viewportCoordinates (e : DOMElementNode) : option (float * float) :=
  match e with mkDOMElementNode _ _ _ _ _ _ _ c => c end.

(** [children.filter(child => child instanceof DOMElementNode)] *)
Fixpoint elementChildren (cs : list DOMBaseNode) : list DOMElementNode :=
  match cs with
  | [] => []
  | DOMTextNode _ :: r => elementChildren r
  | DOMElement e :: r => e :: elementChildren r
  end.

(** All element nodes of a tree, in document (pre-)order. *)
Fixpoint elementsOf (e : DOMElementNode) : list DOMElementNode :=
  e :: (fix go (cs : list DOMBaseNode) : list DOMElementNode :=
          match cs with
          | [] => []
          | DOMTextNode _ :: r => go r
          | DOMElement c :: r => elementsOf c ++ go r
          end) (children e).

Definition elementsOfChildren (cs : list DOMBaseNode) : list DOMElementNode :=
  flat_map elementsOf (elementChildren cs).

Definition refsOf (e : DOMElementNode) : list nat := map ref (elementsOf e).

(** A snapshot is a tree: no node object occurs at two places. *)
Definition wellFormed (e : DOMElementNode) : Prop := NoDup (refsOf e).

(** ** Attribute objects *)

(** The value of the own entry [key] of [attrs], if there is one.  For the
    keys [id] and [class], which [Object.prototype] does not have, this is
    [attrs.id] and [attrs.class], [None] standing for [undefined]. *)
Fixpoint attrGet (key : string) (attrs : list (string * string)) : option string :=
  match attrs with
  | [] => None
  | (k, v) :: r => if String.eqb k key then Some v else attrGet key r
  end.

(** The names every plain object inherits from [Object.prototype]. *)
Definition objectPrototypeKeys : list string :=
  ["constructor"; "__defineGetter__"; "__defineSetter__"; "hasOwnProperty";
   "__lookupGetter__"; "__lookupSetter__"; "isPrototypeOf"; "propertyIsEnumerable";
   "toString"; "valueOf"; "__proto__"; "toLocaleString"].

Definition inheritsKey (key : string) : bool :=
  existsb (String.eqb key) objectPrototypeKeys.

(** [key in attrs]: an own entry, or a member of [Object.prototype]. *)
Definition attrHas (key : string) (attrs : list (string * string)) : bool :=
  match attrGet key attrs with Some _ => true | None => inheritsKey key end.

(** What a template literal prints for the inherited member [key]: the
    prototype object itself for [__proto__], and for the others the text of
    a built-in function, as the engine of the browser the extension runs in
    prints it. *)
Definition inheritedText (key : string) : string :=
  if String.eqb key "__proto__" then "[object Object]"
  else if String.eqb key "constructor" then "function Object() { [native code] }"
  else ("function " ++ key ++ "() { [native code] }")%string.

(** Truthiness of an optional string: [undefined] and [""] are falsy. *)
Definition truthy (o : option string) : bool :=
  match o with
  | Some s => negb (String.eqb s "")
  | None => false
  end.

(** [a === b] on two optional strings. *)
Definition optEqb (a b : option string) : bool :=
  match a, b with
  | Some x, Some y => String.eqb x y
  | None, None => true
  | _, _ => false
  end.

(** ** Class tokens *)

(** The ASCII members of the regular-expression class [\s]: space, tab,
    line feed, vertical tab, form feed, carriage return. *)
Definition isWhiteSpace (c : ascii) : bool :=
  let n := nat_of_ascii c in
  Nat.eqb n 32 || (Nat.leb 9 n && Nat.leb n 13).

(** The other members of [\s] by their UTF-8 encodings: U+00A0 in two
    bytes, and in three bytes U+1680, U+2000 to U+200A, U+2028, U+2029,
    U+202F, U+205F, U+3000 and U+FEFF. *)
Definition isWideWhiteSpace (b1 b2 b3 : nat) : bool :=
  (Nat.eqb b1 225 && Nat.eqb b2 154 && Nat.eqb b3 128)
  || (Nat.eqb b1 226 && Nat.eqb b2 128
      && ((Nat.leb 128 b3 && Nat.leb b3 138)
          || Nat.eqb b3 168 || Nat.eqb b3 169 || Nat.eqb b3 175))
  || (Nat.eqb b1 226 && Nat.eqb b2 129 && Nat.eqb b3 159)
  || (Nat.eqb b1 227 && Nat.eqb b2 128 && Nat.eqb b3 128)
  || (Nat.eqb b1 239 && Nat.eqb b2 187 && Nat.eqb b3 191).

(** The number of bytes of the white-space character [s] starts with, [0]
    when it starts with none. *)
Definition whiteSpaceLength (s : string) : nat :=
  match s with
  | EmptyString => 0
  | String c1 r1 =>
      if isWhiteSpace c1 then 1
      else
        match r1 with
        | EmptyString => 0
        | String c2 r2 =>
            if Nat.eqb (nat_of_ascii c1) 194 && Nat.eqb (nat_of_ascii c2) 160 then 2
            else
              match r2 with
              | EmptyString => 0
              | String c3 _ =>
                  if isWideWhiteSpace (nat_of_ascii c1) (nat_of_ascii c2) (nat_of_ascii c3)
                  then 3 else 0
              end
        end
  end.

(** [s.split(/\s+/)]: the pieces between maximal runs of white space; a
    string that starts or ends with white space yields an empty first or
    last piece.  [skip] counts the bytes still to pass of a white-space
    character of several bytes. *)
Fixpoint splitAux (s : string) (piece : string) (inRun : bool) (skip : nat)
    : list string :=
  match s with
  | EmptyString => [piece]
  | String c r =>
      match skip with
      | S skip' => splitAux r piece inRun skip'
      | O =>
          match whiteSpaceLength s with
          | S more =>
              if inRun then splitAux r "" true more else piece :: splitAux r "" true more
          | O => splitAux r (piece ++ String c EmptyString)%string false 0
          end
      end
  end.

Definition splitWhiteSpace (s : string) : list string := splitAux s "" false 0.

Definition setHas (s : list string) (x : string) : bool :=
  existsb (String.eqb x) s.

(** [new Set(items)]: the distinct items, in order of first occurrence. *)
Definition newSet (items : list string) : list string :=
  fold_left (fun acc x => if setHas acc x then acc else acc ++ [x]) items [].

(** The [forEach] loop that counts the members of [class1Set] found in
    [class2Set]. *)
Definition countCommon (class1Set class2Set : list string) : nat :=
  fold_left (fun n cls => if setHas class2Set cls then S n else n) class1Set 0%nat.

(** ** Similarity scorer *)

Definition natQ (n : nat) : Q := inject_Z (Z.of_nat n).

(** The contribution of the class attribute, [2 * (common / max)]. *)
Definition classOverlap (class1 class2 : string) : Q :=
  let class1Set := newSet (splitWhiteSpace class1) in
  let class2Set := newSet (splitWhiteSpace class2) in
  let commonClasses := countCommon class1Set class2Set in
  let maxClasses := Nat.max (length class1Set) (length class2Set) in
  if Nat.ltb 0 maxClasses then (2 * (natQ commonClasses / natQ maxClasses))%Q else 0%Q.

(** The pair [(score, totalWeight)] just before the final division. *)
Definition similarityTerms (elem1 elem2 : DOMElementNode) : Q * Q :=
  let score := 0%Q in
  let totalWeight := 0%Q in
  let score :=
    if String.eqb (tagName elem1) (tagName elem2) then (score + 3)%Q else score in
  let totalWeight := (totalWeight + 3)%Q in
  let score :=
    if String.eqb (xpath elem1) (xpath elem2) then (score + 2)%Q else score in
  let totalWeight := (totalWeight + 2)%Q in
  let id1 := attrGet "id" (attributes elem1) in
  let id2 := attrGet "id" (attributes elem2) in
  let score :=
    if truthy id1 && truthy id2 && optEqb id1 id2 then (score + 4)%Q else score in
  let totalWeight := (totalWeight + 4)%Q in
  let score :=
    match attrGet "class" (attributes elem1), attrGet "class" (attributes elem2) with
    | Some class1, Some class2 =>
        if negb (String.eqb class1 "") && negb (String.eqb class2 "")
        then (score + classOverlap class1 class2)%Q
        else score
    | _, _ => score
    end in
  let totalWeight := (totalWeight + 2)%Q in
  (score, totalWeight).

Definition calculateSimilarityScore (elem1 elem2 : DOMElementNode) : Q :=
  let '(score, totalWeight) := similarityTerms elem1 elem2 in
  (score / totalWeight)%Q.

(** ** Numbers as text *)

(** [10^n] and [2^n] for any integer [n]. *)
Definition pow10 (n : Z) : Q :=
  if (0 <=? n)%Z then inject_Z (10 ^ n) else (1 # Z.to_pos (10 ^ (- n)))%Q.

Definition pow2 (n : Z) : Q :=
  if (0 <=? n)%Z then inject_Z (2 ^ n) else (1 # Z.to_pos (2 ^ (- n)))%Q.

Definition floorQ (q : Q) : Z := (Qnum q / Z.pos (Qden q))%Z.

Definition absQ (q : Q) : Q := if Qle_bool 0 q then q else (- q)%Q.

(** The least [n], counted up from a start below it, with [v < 10^n]. *)
Fixpoint decimalExponent (fuel : nat) (v : Q) (n : Z) : Z :=
  match fuel with
  | O => n
  | S fuel' => if Qle_bool (pow10 n) v then decimalExponent fuel' v (n + 1)%Z else n
  end.

(** The decimal digits [s], their number [k], and the place [n] of the
    decimal point: the number is [s * 10^(n - k)]. *)
Record Digits : Type := mkDigits { pointAt : Z; digitCount : Z; digitsValue : Z }.

Section Shortest.

(** A positive number [v] and the interval of the reals that round to it;
    the ends belong to the interval when the significand of [v] is even. *)
Variables (v lo hi : Q) (closed : bool).

Definition roundsToValue (q : Q) : bool :=
  if closed then Qle_bool lo q && Qle_bool q hi
  else negb (Qle_bool q lo) && negb (Qle_bool hi q).

(** The integers [s] of [k] digits next to [v / 10^(n - k)] for which
    [s * 10^(n - k)] rounds to [v]. *)
Definition candidatesAt (k n : Z) : list (Z * Z) :=
  let below := floorQ (v * pow10 (k - n))%Q in
  List.filter
    (fun c => let s := snd c in
              (10 ^ (k - 1) <=? s)%Z && (s <? 10 ^ k)%Z
              && roundsToValue (inject_Z s * pow10 (n - k))%Q)
    [(n, below); (n, (below + 1)%Z)].

Definition distance (k : Z) (c : Z * Z) : Q :=
  absQ (inject_Z (snd c) * pow10 (fst c - k) - v)%Q.

(** Of two candidates the one closer to [v]; of two equally close ones the
    even one. *)
Definition closer (k : Z) (a b : Z * Z) : Z * Z :=
  match (distance k a ?= distance k b)%Q with
  | Lt => a
  | Gt => b
  | Eq => if Z.even (snd a) then a else b
  end.

Definition closest (k : Z) (cs : list (Z * Z)) : option (Z * Z) :=
  match cs with
  | [] => None
  | c :: r => Some (fold_left (closer k) r c)
  end.

(** The least number of digits that reads back as [v], counted up from
    [k]; seventeen digits always do. *)
Fixpoint shortest (fuel : nat) (n0 k : Z) : Digits :=
  match closest k (candidatesAt k n0 ++ candidatesAt k (n0 + 1)) with
  | Some (n, s) => mkDigits n k s
  | None =>
      match fuel with
      | O => mkDigits n0 k 0
      | S fuel' => shortest fuel' n0 (k + 1)%Z
      end
  end.

End Shortest.

(** The shortest digits that read back as the double [m * 2^e]. *)
Definition shortestDigits (m : positive) (e : Z) : Digits :=
  let v := (inject_Z (Z.pos m) * pow2 e)%Q in
  let above := pow2 (e - 1) in
  let below :=
    if (Z.pos m =? 2 ^ 52)%Z && (-1074 <? e)%Z then pow2 (e - 2) else pow2 (e - 1) in
  shortest v (v - below)%Q (v + above)%Q (Z.even (Z.pos m)) 17
    (decimalExponent 10 v ((e + Z.log2 (Z.pos m)) * 30103 / 100000 - 2)) 1.

Definition digitsOfZ (z : Z) : string := NilZero.string_of_int (Z.to_int z).

Fixpoint zeros (n : nat) : string :=
  match n with
  | O => ""
  | S k => ("0" ++ zeros k)%string
  end.

(** The text of the positive number with digits [s], [k] of them, and the
    decimal point after the [n]-th: plain digits up to [10^21], a leading
    [0.] down to [10^-6], the exponent form beyond. *)
Definition layoutDigits (d : Digits) : string :=
  let n := pointAt d in
  let k := digitCount d in
  let digits := digitsOfZ (digitsValue d) in
  (if (k <=? n)%Z && (n <=? 21)%Z then digits ++ zeros (Z.to_nat (n - k))
   else if (0 <? n)%Z && (n <=? 21)%Z then
     String.substring 0 (Z.to_nat n) digits ++ "."
       ++ String.substring (Z.to_nat n) (Z.to_nat (k - n)) digits
   else if (-6 <? n)%Z && (n <=? 0)%Z then
     "0." ++ zeros (Z.to_nat (- n)) ++ digits
   else
     let e := (n - 1)%Z in
     let exponent := (if (e <? 0)%Z then "-" else "+") ++ digitsOfZ (Z.abs e) in
     if (k =? 1)%Z then digits ++ "e" ++ exponent
     else String.substring 0 1 digits ++ "."
            ++ String.substring 1 (Z.to_nat (k - 1)) digits ++ "e" ++ exponent)%string.

(** [Number::toString] in radix 10: what a template literal prints for a
    number. *)
Definition showNumber (x : float) : string :=
  match Prim2SF x with
  | S754_nan => "NaN"
  | S754_zero _ => "0"
  | S754_infinity negative => if negative then "-Infinity" else "Infinity"
  | S754_finite negative m e =>
      ((if negative then "-" else "") ++ layoutDigits (shortestDigits m e))%string
  end.

(** The Number value for an integer: the nearest double, ties to even. *)
Definition numberOfZ (z : Z) : float := SF2Prim (binary_normalize prec emax z 0 false).

Definition numberOfNat (n : nat) : float := numberOfZ (Z.of_nat n).

(** ** Field-level change detector *)

Inductive ElementChange : Type :=
| TagChanged (oldTag newTag : string)
| AttributeRemoved (key value : string)
| AttributeChanged (key oldValue newValue : string)
| AttributeAdded (key value : string)
| VisibilityChanged (oldFlag newFlag : bool)
| InteractivityChanged (oldFlag newFlag : bool)
| PositionChanged (oldX oldY newX newY : float).

(** First attribute loop: the entries of the old object, each reported as
    removed or as changed.  A key that the new object only inherits passes
    the [in] test, and what it inherits is no string and so differs from the
    old value. *)
Fixpoint removedOrChanged (oldEntries newAttrs : list (string * string)) : list ElementChange :=
  match oldEntries with
  | [] => []
  | (key, value) :: r =>
      if negb (attrHas key newAttrs)
      then AttributeRemoved key value :: removedOrChanged r newAttrs
      else
        match attrGet key newAttrs with
        | Some newValue =>
            if String.eqb newValue value then removedOrChanged r newAttrs
            else AttributeChanged key value newValue :: removedOrChanged r newAttrs
        | None =>
            AttributeChanged key value (inheritedText key) :: removedOrChanged r newAttrs
        end
  end.

(** Second attribute loop: the entries of the new object missing in the old. *)
Fixpoint addedAttributes (newEntries oldAttrs : list (string * string)) : list ElementChange :=
  match newEntries with
  | [] => []
  | (key, value) :: r =>
      if attrHas key oldAttrs then addedAttributes r oldAttrs
      else AttributeAdded key value :: addedAttributes r oldAttrs
  end.

Definition elementChanges (oldElem newElem : DOMElementNode) : list ElementChange :=
  let changes := [] in
  let changes :=
    if negb (String.eqb (tagName oldElem) (tagName newElem))
    then changes ++ [TagChanged (tagName oldElem) (tagName newElem)] else changes in
  let oldAttrs := attributes oldElem in
  let newAttrs := attributes newElem in
  let changes := changes ++ removedOrChanged oldAttrs newAttrs in
  let changes := changes ++ addedAttributes newAttrs oldAttrs in
  let changes :=
    if negb (Bool.eqb (isVisible oldElem) (isVisible newElem))
    then changes ++ [VisibilityChanged (isVisible oldElem) (isVisible newElem)] else changes in
  let changes :=
    if negb (Bool.eqb (isInteractive oldElem) (isInteractive newElem))
    then changes ++ [InteractivityChanged (isInteractive oldElem) (isInteractive newElem)]
    else changes in
  let changes :=
    match viewportCoordinates oldElem, viewportCoordinates newElem with
    | Some (ox, oy), Some (nx, ny) =>
        if negb (ox =? nx)%float || negb (oy =? ny)%float
        then changes ++ [PositionChanged ox oy nx ny] else changes
    | _, _ => changes
    end in
  changes.

Definition quote : string := String (ascii_of_nat 34) EmptyString.
Definition showBool (b : bool) : string := if b then "true" else "false".
(** The text of an integer held in a number. *)
Definition showZ (z : Z) : string := showNumber (numberOfZ z).

(** The text pushed for each change. *)
Definition describe (c : ElementChange) : string :=
  (match c with
  | TagChanged o n => "标签从 " ++ o ++ " 变为 " ++ n
  | AttributeRemoved k v => "属性 " ++ k ++ "=" ++ quote ++ v ++ quote ++ " 被移除"
  | AttributeChanged k o n =>
      "属性 " ++ k ++ " 从 " ++ quote ++ o ++ quote ++ " 变为 " ++ quote ++ n ++ quote
  | AttributeAdded k v => "新增属性 " ++ k ++ "=" ++ quote ++ v ++ quote
  | VisibilityChanged o n => "可见性从 " ++ showBool o ++ " 变为 " ++ showBool n
  | InteractivityChanged o n => "交互性从 " ++ showBool o ++ " 变为 " ++ showBool n
  | PositionChanged ox oy nx ny =>
      "位置从 (" ++ showNumber ox ++ ", " ++ showNumber oy ++ ") 变为 ("
        ++ showNumber nx ++ ", " ++ showNumber ny ++ ")"
  end)%string.

Definition detectElementChanges (oldElem newElem : DOMElementNode) : list string :=
  map describe (elementChanges oldElem newElem).

(** ** Diff result and matcher state *)

Record Modification : Type := mkModification {
  oldElement : DOMElementNode;
  newElement : DOMElementNode;
  changes : list string
}.

Record DOMDiffResult : Type := mkDOMDiffResult {
  added : list DOMElementNode;
  removed : list DOMElementNode;
  modified : list Modification;
  unchanged : list DOMElementNode
}.

Definition emptyResult : DOMDiffResult :=
  {| added := []; removed := []; modified := []; unchanged := [] |}.

(** What [compareNodes] threads through its calls: the result under
    construction and the two exclusion sets. *)
Record DiffState : Type := mkDiffState {
  result : DOMDiffResult;
  processedOldElements : gset nat;
  processedNewElements : gset nat
}.

Definition pushUnchanged (e : DOMElementNode) (r : DOMDiffResult) : DOMDiffResult :=
  {| added := added r; removed := removed r; modified := modified r;
     unchanged := unchanged r ++ [e] |}.

Definition pushModified (m : Modification) (r : DOMDiffResult) : DOMDiffResult :=
  {| added := added r; removed := removed r; modified := modified r ++ [m];
     unchanged := unchanged r |}.

Definition pushRemoved (e : DOMElementNode) (r : DOMDiffResult) : DOMDiffResult :=
  {| added := added r; removed := removed r ++ [e]; modified := modified r;
     unchanged := unchanged r |}.

Definition pushAdded (e : DOMElementNode) (r : DOMDiffResult) : DOMDiffResult :=
  {| added := added r ++ [e]; removed := removed r; modified := modified r;
     unchanged := unchanged r |}.

(** The inner loop of [compareChildNodes]: scan the new children that are
    not processed yet, keeping the running maximum. *)
Fixpoint scanCandidates (oldChild : DOMElementNode) (processedNew : gset nat)
    (newElementChildren : list DOMElementNode)
    (bestMatch : option DOMElementNode) (highestScore : Q)
    : option DOMElementNode * Q :=
  match newElementChildren with
  | [] => (bestMatch, highestScore)
  | newChild :: rest =>
      if decide (ref newChild ∈ processedNew)
      then scanCandidates oldChild processedNew rest bestMatch highestScore
      else
        let score := calculateSimilarityScore oldChild newChild in
        if Qlt_le_dec highestScore score
        then scanCandidates oldChild processedNew rest (Some newChild) score
        else scanCandidates oldChild processedNew rest bestMatch highestScore
  end.

Definition findBestMatch (oldChild : DOMElementNode) (processedNew : gset nat)
    (newElementChildren : list DOMElementNode) : option DOMElementNode * Q :=
  scanCandidates oldChild processedNew newElementChildren None 0%Q.

(** The test [bestMatch && highestScore > 0.7]. *)
Definition acceptedMatch (best : option DOMElementNode * Q) : option DOMElementNode :=
  match best with
  | (Some bestMatch, highestScore) =>
      if Qlt_le_dec 0.7%Q highestScore then Some bestMatch else None
  | (None, _) => None
  end.

(** [for (const child of node.children) if (child instanceof DOMElementNode)
    visit(child)], threading the state. *)
Definition forEachElementChild {S : Type} (visit : DOMElementNode -> S -> S)
    : list DOMBaseNode -> S -> S :=
  fix loop (cs : list DOMBaseNode) (st : S) {struct cs} : S :=
    match cs with
    | [] => st
    | DOMTextNode _ :: rest => loop rest st
    | DOMElement child :: rest => loop rest (visit child st)
    end.

Section Matcher.

(** [convertDomElementToHistoryElement] and
    [compareHistoryElementAndDomElement] live in [./service], outside the
    sources at hand; the matcher is parametric in them. *)
Variable DOMHistoryElement : Type.
Variable convertDomElementToHistoryElement : DOMElementNode -> DOMHistoryElement.
Variable compareHistoryElementAndDomElement :
  DOMHistoryElement -> DOMElementNode -> bool.

Definition identicalNodes (oldNode newNode : DOMElementNode) : bool :=
  let oldHistoryElement := convertDomElementToHistoryElement oldNode in
  compareHistoryElementAndDomElement oldHistoryElement newNode.

(** The body of [compareNodes] up to the recursion into the children. *)
Definition classifyPair (oldNode newNode : DOMElementNode) (st : DiffState) : DiffState :=
  let processedOld := {[ref oldNode]} ∪ processedOldElements st in
  let processedNew := {[ref newNode]} ∪ processedNewElements st in
  if identicalNodes oldNode newNode then
    {| result := pushUnchanged oldNode (result st);
       processedOldElements := processedOld;
       processedNewElements := processedNew |}
  else
    let changes := detectElementChanges oldNode newNode in
    {| result :=
         pushModified
           {| oldElement := oldNode; newElement := newNode; changes := changes |}
           (result st);
       processedOldElements := processedOld;
       processedNewElements := processedNew |}.

(** The outer loop of [compareChildNodes] over the children of the old
    parent; text children are the ones the filter drops.  [compareNodes]
    is passed in so that the recursion stays structural. *)
Definition compareChildNodesWith
    (compareNodes : DOMElementNode -> DOMElementNode -> DiffState -> DiffState)
    (newElementChildren : list DOMElementNode)
    : list DOMBaseNode -> DiffState -> DiffState :=
  fix loop (oldChildren : list DOMBaseNode) (st : DiffState) {struct oldChildren} :=
    match oldChildren with
    | [] => st
    | DOMTextNode _ :: rest => loop rest st
    | DOMElement oldChild :: rest =>
        if decide (ref oldChild ∈ processedOldElements st) then loop rest st
        else
          match acceptedMatch
                  (findBestMatch oldChild (processedNewElements st) newElementChildren) with
          | Some bestMatch => loop rest (compareNodes oldChild bestMatch st)
          | None => loop rest st
          end
    end.

Fixpoint compareNodes (oldNode newNode : DOMElementNode) (st : DiffState)
    {struct oldNode} : DiffState :=
  compareChildNodesWith compareNodes (elementChildren (children newNode))
    (children oldNode) (classifyPair oldNode newNode st).

Definition compareChildNodes (oldParent newParent : DOMElementNode) (st : DiffState)
    : DiffState :=
  compareChildNodesWith compareNodes (elementChildren (children newParent))
    (children oldParent) st.

(** [findRemovedElements]: pre-order sweep of the old tree. *)
Fixpoint findRemovedElements (node : DOMElementNode)
    (st : gset nat * DOMDiffResult) {struct node} : gset nat * DOMDiffResult :=
  forEachElementChild findRemovedElements (children node)
    (if decide (ref node ∈ fst st) then st
     else ({[ref node]} ∪ fst st, pushRemoved node (snd st))).

(** [findAddedElements]: pre-order sweep of the new tree. *)
Fixpoint findAddedElements (node : DOMElementNode)
    (st : gset nat * DOMDiffResult) {struct node} : gset nat * DOMDiffResult :=
  forEachElementChild findAddedElements (children node)
    (if decide (ref node ∈ fst st) then st
     else ({[ref node]} ∪ fst st, pushAdded node (snd st))).

Definition compareDOMTrees (oldTree newTree : DOMElementNode) : DOMDiffResult :=
  let st :=
    compareNodes oldTree newTree
      {| result := emptyResult;
         processedOldElements := ∅;
         processedNewElements := ∅ |} in
  let '(_, result) := findRemovedElements oldTree (processedOldElements st, result st) in
  let '(_, result) := findAddedElements newTree (processedNewElements st, result) in
  result.

End Matcher.

(** ** The scorer and the matcher in double precision *)

(** The same functions with the arithmetic of the machine: every number is
    a binary64 and every operation rounds to the nearest one. *)
Module Binary64.

(** The literal [0.7]: the double nearest to 7/10, a little below it. *)
Definition threshold : float := 0x1.6666666666666p-1%float.

(** The pair [(score, totalWeight)] just before the final division. *)
Definition similarityTerms (elem1 elem2 : DOMElementNode) : float * float :=
  let score := 0%float in
  let totalWeight := 0%float in
  let score :=
    if String.eqb (tagName elem1) (tagName elem2) then (score + 3)%float else score in
  let totalWeight := (totalWeight + 3)%float in
  let score :=
    if String.eqb (xpath elem1) (xpath elem2) then (score + 2)%float else score in
  let totalWeight := (totalWeight + 2)%float in
  let id1 := attrGet "id" (attributes elem1) in
  let id2 := attrGet "id" (attributes elem2) in
  let score :=
    if truthy id1 && truthy id2 && optEqb id1 id2 then (score + 4)%float else score in
  let totalWeight := (totalWeight + 4)%float in
  let score :=
    match attrGet "class" (attributes elem1), attrGet "class" (attributes elem2) with
    | Some class1, Some class2 =>
        if negb (String.eqb class1 "") && negb (String.eqb class2 "")
        then
          let class1Set := newSet (splitWhiteSpace class1) in
          let class2Set := newSet (splitWhiteSpace class2) in
          let commonClasses := countCommon class1Set class2Set in
          let maxClasses := Nat.max (length class1Set) (length class2Set) in
          if Nat.ltb 0 maxClasses
          then (score + 2 * (numberOfNat commonClasses / numberOfNat maxClasses))%float
          else score
        else score
    | _, _ => score
    end in
  let totalWeight := (totalWeight + 2)%float in
  (score, totalWeight).

Definition calculateSimilarityScore (elem1 elem2 : DOMElementNode) : float :=
  let '(score, totalWeight) := similarityTerms elem1 elem2 in
  (score / totalWeight)%float.

(** The inner loop of [compareChildNodes]; [score > highestScore] is
    [highestScore < score]. *)
Fixpoint scanCandidates (oldChild : DOMElementNode) (processedNew : gset nat)
    (newElementChildren : list DOMElementNode)
    (bestMatch : option DOMElementNode) (highestScore : float)
    : option DOMElementNode * float :=
  match newElementChildren with
  | [] => (bestMatch, highestScore)
  | newChild :: rest =>
      if decide (ref newChild ∈ processedNew)
      then scanCandidates oldChild processedNew rest bestMatch highestScore
      else
        let score := calculateSimilarityScore oldChild newChild in
        if (highestScore <? score)%float
        then scanCandidates oldChild processedNew rest (Some newChild) score
        else scanCandidates oldChild processedNew rest bestMatch highestScore
  end.

Definition findBestMatch (oldChild : DOMElementNode) (processedNew : gset nat)
    (newElementChildren : list DOMElementNode) : option DOMElementNode * float :=
  scanCandidates oldChild processedNew newElementChildren None 0%float.

(** The test [bestMatch && highestScore > 0.7]. *)
Definition acceptedMatch (best : option DOMElementNode * float) : option DOMElementNode :=
  match best with
  | (Some bestMatch, highestScore) =>
      if (threshold <? highestScore)%float then Some bestMatch else None
  | (None, _) => None
  end.

(** The outer loop of [compareChildNodes]. *)
Definition compareChildNodesWith
    (compareNodes : DOMElementNode -> DOMElementNode -> DiffState -> DiffState)
    (newElementChildren : list DOMElementNode)
    : list DOMBaseNode -> DiffState -> DiffState :=
  fix loop (oldChildren : list DOMBaseNode) (st : DiffState) {struct oldChildren} :=
    match oldChildren with
    | [] => st
    | DOMTextNode _ :: rest => loop rest st
    | DOMElement oldChild :: rest =>
        if decide (ref oldChild ∈ processedOldElements st) then loop rest st
        else
          match acceptedMatch
                  (findBestMatch oldChild (processedNewElements st) newElementChildren) with
          | Some bestMatch => loop rest (compareNodes oldChild bestMatch st)
          | None => loop rest st
          end
    end.

Section Matcher.

Variable DOMHistoryElement : Type.
Variable convertDomElementToHistoryElement : DOMElementNode -> DOMHistoryElement.
Variable compareHistoryElementAndDomElement :
  DOMHistoryElement -> DOMElementNode -> bool.

Fixpoint compareNodes (oldNode newNode : DOMElementNode) (st : DiffState)
    {struct oldNode} : DiffState :=
  compareChildNodesWith compareNodes (elementChildren (children newNode))
    (children oldNode)
    (classifyPair DOMHistoryElement convertDomElementToHistoryElement
       compareHistoryElementAndDomElement oldNode newNode st).

Definition compareChildNodes (oldParent newParent : DOMElementNode) (st : DiffState)
    : DiffState :=
  compareChildNodesWith compareNodes (elementChildren (children newParent))
    (children oldParent) st.

Definition compareDOMTrees (oldTree newTree : DOMElementNode) : DOMDiffResult :=
  let st :=
    compareNodes oldTree newTree
      {| result := emptyResult;
         processedOldElements := ∅;
         processedNewElements := ∅ |} in
  let '(_, result) := findRemovedElements oldTree (processedOldElements st, result st) in
  let '(_, result) := findAddedElements newTree (processedNewElements st, result) in
  result.

End Matcher.

End Binary64.

(** A number is at most another one: equal to it or below it. *)
Definition atMost (x y : float) : Prop := x = y \/ (x <? y)%float = true.

(** ** Delayed comparison driver *)

(** What [trackDOMChanges] does to the outside, in order of occurrence. *)
Inductive Event : Type :=
| ConsoleLog (message : string)
| SetTimeout (delayMs : Z)
| GetCurrentTree.

Definition startMessage (delayMs : Z) : string :=
  ("记录初始DOM树，将在 " ++ showZ delayMs ++ "ms 后比较变化...")%string.
Definition compareMessage : string := "对比DOM树变化...".

Section Driver.

Variable DOMHistoryElement : Type.
Variable convertDomElementToHistoryElement : DOMElementNode -> DOMHistoryElement.
Variable compareHistoryElementAndDomElement :
  DOMHistoryElement -> DOMElementNode -> bool.

(** The page the provider looks at, and the reasons a promise rejects. *)
Variable World : Type.
Variable Failure : Type.

(** A promise-returning computation: the events it causes, the world it
    leaves, and either the rejection reason or the value. *)
Definition Async (A : Type) : Type := World -> list Event * World * (Failure + A).

Definition resolve {A : Type} (a : A) : Async A := fun w => ([], w, inr a).

Definition await {A B : Type} (m : Async A) (k : A -> Async B) : Async B :=
  fun w =>
    match m w with
    | (events, w', inl reason) => (events, w', inl reason)
    | (events, w', inr a) =>
        let '(events', w'', r) := k a w' in (events ++ events', w'', r)
    end.

Definition consoleLog (message : string) : Async unit :=
  fun w => ([ConsoleLog message], w, inr tt).

Definition sleep (delayMs : Z) : Async unit :=
  fun w => ([SetTimeout delayMs], w, inr tt).

(** A snapshot provider either rejects or resolves to a tree. *)
Definition SnapshotProvider : Type := World -> World * (Failure + DOMElementNode).

Definition invoke (getCurrentTree : SnapshotProvider) : Async DOMElementNode :=
  fun w => let '(w', r) := getCurrentTree w in ([GetCurrentTree], w', r).

Definition trackDOMChanges (initialTree : DOMElementNode) (delayMs : Z)
    (getCurrentTree : SnapshotProvider) : Async DOMDiffResult :=
  await (consoleLog (startMessage delayMs)) (fun _ =>
  await (sleep delayMs) (fun _ =>
  await (invoke getCurrentTree) (fun currentTree =>
  await (consoleLog compareMessage) (fun _ =>
  resolve
    (compareDOMTrees DOMHistoryElement convertDomElementToHistoryElement
       compareHistoryElementAndDomElement initialTree currentTree))))).

End Driver.

Arguments resolve {World Failure A} a.
Arguments await {World Failure A B} m k.

(** ** The identity check of [./service] *)

(** Modelled from the spec: [convertDomElementToHistoryElement] of
    [./service], absent from the sources.  The specification compares the
    old node itself with the new one, so the history element is the node. *)
Definition specConvert (domElement : DOMElementNode) : DOMElementNode := domElement.

(** Modelled from the spec: [compareHistoryElementAndDomElement] of
    [./service], absent from the sources, taken as the specification words
    the check on a matched pair: the pair is identical when the change
    detector returns the empty sequence. *)
Definition specCompare (historyElement domElement : DOMElementNode) : bool :=
  match detectElementChanges historyElement domElement with
  | [] => true
  | _ :: _ => false
  end.

(** ** Matched pairs *)

(** The entries a sequence of matched pairs leaves in [unchanged] and in
    [modified]. *)
Definition unchangedOf (identical : DOMElementNode -> DOMElementNode -> bool)
    (pairs : list (DOMElementNode * DOMElementNode)) : list DOMElementNode :=
  map fst (List.filter (fun p => identical (fst p) (snd p)) pairs).

Definition modifiedOf (identical : DOMElementNode -> DOMElementNode -> bool)
    (pairs : list (DOMElementNode * DOMElementNode)) : list Modification :=
  map (fun p => {| oldElement := fst p; newElement := snd p;
                   changes := detectElementChanges (fst p) (snd p) |})
    (List.filter (fun p => negb (identical (fst p) (snd p))) pairs).

Definition recordPairs (identical : DOMElementNode -> DOMElementNode -> bool)
    (pairs : list (DOMElementNode * DOMElementNode)) (r : DOMDiffResult) : DOMDiffResult :=
  {| added := added r; removed := removed r;
     modified := modified r ++ modifiedOf identical pairs;
     unchanged := unchanged r ++ unchangedOf identical pairs |}.

(** [alignment identical olds news st st' pairs]: between [st] and [st'] the
    matcher aligned exactly [pairs], in this order; every pair joins a node
    of [olds] that was unprocessed with a node of [news] that was
    unprocessed, and no node is used twice. *)
Record alignment (identical : DOMElementNode -> DOMElementNode -> bool)
    (olds news : list DOMElementNode) (st st' : DiffState)
    (pairs : list (DOMElementNode * DOMElementNode)) : Prop := mkAlignment {
  al_result : result st' = recordPairs identical pairs (result st);
  al_old :
    processedOldElements st'
    = list_to_set (map (fun p => ref (fst p)) pairs) ∪ processedOldElements st;
  al_new :
    processedNewElements st'
    = list_to_set (map (fun p => ref (snd p)) pairs) ∪ processedNewElements st;
  al_old_once : NoDup (map (fun p => ref (fst p)) pairs);
  al_new_once : NoDup (map (fun p => ref (snd p)) pairs);
  al_fresh :
    Forall (fun p => (ref (fst p) ∉ processedOldElements st) /\
                     (ref (snd p) ∉ processedNewElements st)) pairs;
  al_from : Forall (fun p => fst p ∈ olds /\ snd p ∈ news) pairs
}.

(** A pair that passes the acceptance test of [compareChildNodes]. *)
Definition aboveThreshold (p : DOMElementNode * DOMElementNode) : Prop :=
  (0.7 < calculateSimilarityScore (fst p) (snd p))%Q.

(** What one call of [compareNodes] on an unprocessed pair is expected to
    do: align the pair itself, then pairs from the two subtrees, each of
    which passed the acceptance test. *)
Definition alignsPair (identical : DOMElementNode -> DOMElementNode -> bool)
    (compareNodes : DOMElementNode -> DOMElementNode -> DiffState -> DiffState)
    (oldNode : DOMElementNode) : Prop :=
  forall (newNode : DOMElementNode) (st : DiffState),
    ref oldNode ∉ processedOldElements st ->
    ref newNode ∉ processedNewElements st ->
    exists pairs,
      alignment identical (elementsOf oldNode) (elementsOf newNode) st
        (compareNodes oldNode newNode st) ((oldNode, newNode) :: pairs) /\
      Forall aboveThreshold pairs.

(** The same for the scores in double precision. *)
Definition aboveThresholdDouble (p : DOMElementNode * DOMElementNode) : Prop :=
  (Binary64.threshold <? Binary64.calculateSimilarityScore (fst p) (snd p))%float = true.

Definition alignsPairDouble (identical : DOMElementNode -> DOMElementNode -> bool)
    (compareNodes : DOMElementNode -> DOMElementNode -> DiffState -> DiffState)
    (oldNode : DOMElementNode) : Prop :=
  forall (newNode : DOMElementNode) (st : DiffState),
    ref oldNode ∉ processedOldElements st ->
    ref newNode ∉ processedNewElements st ->
    exists pairs,
      alignment identical (elementsOf oldNode) (elementsOf newNode) st
        (compareNodes oldNode newNode st) ((oldNode, newNode) :: pairs) /\
      Forall aboveThresholdDouble pairs.

(** The nodes a sweep collects, pushed one after the other. *)
Definition pushAll (push : DOMElementNode -> DOMDiffResult -> DOMDiffResult)
    (found : list DOMElementNode) (r : DOMDiffResult) : DOMDiffResult :=
  fold_left (fun r e => push e r) found r.

(** The outcome of sweeping [nodes] from the exclusion set [p]: the nodes
    found unprocessed are pushed, each once, and afterwards every node is
    processed. *)
Definition sweepOutcome (push : DOMElementNode -> DOMDiffResult -> DOMDiffResult)
    (nodes : list DOMElementNode) (p : gset nat) (r : DOMDiffResult)
    (out : gset nat * DOMDiffResult) : Prop :=
  exists found,
    out = (list_to_set (map ref found) ∪ p, pushAll push found r) /\
    NoDup (map ref found) /\
    Forall (fun e => (ref e ∉ p) /\ e ∈ nodes) found /\
    (forall e, e ∈ nodes -> ref e ∈ (list_to_set (map ref found) ∪ p : gset nat)).

(** ** Comparing a snapshot with itself *)

Definition hasId (e : DOMElementNode) : Prop :=
  truthy (attrGet "id" (attributes e)) = true.

(** [nodes] are pairwise distinct, unprocessed on both sides, and accepted
    by the identity check against themselves. *)
Definition selfReady (identical : DOMElementNode -> DOMElementNode -> bool)
    (nodes : list DOMElementNode) (st : DiffState) : Prop :=
  NoDup (map ref nodes) /\
  Forall (fun e => (ref e ∉ processedOldElements st) /\
                   (ref e ∉ processedNewElements st) /\
                   identical e e = true) nodes.

(** Between [st] and [st'] each of [nodes] was aligned with itself and
    recorded as unchanged, in this order. *)
Definition selfAligned (nodes : list DOMElementNode) (st st' : DiffState) : Prop :=
  result st'
  = {| added := added (result st); removed := removed (result st);
       modified := modified (result st);
       unchanged := unchanged (result st) ++ nodes |} /\
  processedOldElements st' = list_to_set (map ref nodes) ∪ processedOldElements st /\
  processedNewElements st' = list_to_set (map ref nodes) ∪ processedNewElements st.

(** ** The four signals of the scorer, one by one *)

Definition tagSignal (elem1 elem2 : DOMElementNode) : Q :=
  if String.eqb (tagName elem1) (tagName elem2) then 3%Q else 0%Q.

Definition xpathSignal (elem1 elem2 : DOMElementNode) : Q :=
  if String.eqb (xpath elem1) (xpath elem2) then 2%Q else 0%Q.

Definition idSignal (elem1 elem2 : DOMElementNode) : Q :=
  let id1 := attrGet "id" (attributes elem1) in
  let id2 := attrGet "id" (attributes elem2) in
  if truthy id1 && truthy id2 && optEqb id1 id2 then 4%Q else 0%Q.

Definition classSignal (elem1 elem2 : DOMElementNode) : Q :=
  match attrGet "class" (attributes elem1), attrGet "class" (attributes elem2) with
  | Some class1, Some class2 =>
      if negb (String.eqb class1 "") && negb (String.eqb class2 "")
      then classOverlap class1 class2 else 0%Q
  | _, _ => 0%Q
  end.

(** ** Sample snapshots *)

(** A childless element, as the repository's [createTestDomElement] builds
    it; [ref] stands for the fresh object. *)
Definition createTestDomElement (ref : nat) (tagName : string)
    (attributes : list (string * string)) (xpath : string) : DOMElementNode :=
  mkDOMElementNode ref tagName xpath attributes [] true false None.

Definition withChildren (e : DOMElementNode) (cs : list DOMElementNode) : DOMElementNode :=
  mkDOMElementNode (ref e) (tagName e) (xpath e) (attributes e) (map DOMElement cs)
    (isVisible e) (isInteractive e) (viewportCoordinates e).


(** Two nodes whose [id] is the empty string. *)
Definition emptyIdA : DOMElementNode :=
  createTestDomElement 1 "div" [("id", ""); ("class", "")] "/html/body/div[1]".
Definition emptyIdB : DOMElementNode :=
  createTestDomElement 2 "div" [("id", ""); ("class", "")] "/html/body/div[1]".

(** A pair whose score is the rational number 7/10: same tag, same id,
    different xpath, seven shared class tokens out of twenty. *)
Definition twentyA : DOMElementNode :=
  createTestDomElement 10 "div"
    [("id", "x");
     ("class", "a b c d e f g h1 i1 j1 k1 l1 m1 n1 o1 p1 q1 r1 s1 t1")]
    "/html/body/div[1]".
Definition twentyB : DOMElementNode :=
  createTestDomElement 20 "div"
    [("id", "x");
     ("class", "a b c d e f g h2 i2 j2 k2 l2 m2 n2 o2 p2 q2 r2 s2 t2")]
    "/html/body/div[2]".
(** The same pair with an eighth shared token. *)
Definition twentyB' : DOMElementNode :=
  createTestDomElement 21 "div"
    [("id", "x");
     ("class", "a b c d e f g h1 i2 j2 k2 l2 m2 n2 o2 p2 q2 r2 s2 t2")]
    "/html/body/div[2]".

(** Three siblings; the last two are equally similar to [itemOld]. *)
Definition itemOld : DOMElementNode :=
  createTestDomElement 1 "div" [("id", "item")] "/html/body/div".
Definition itemFar : DOMElementNode :=
  createTestDomElement 11 "span" [("id", "other")] "/html/body/span".
Definition itemTwinA : DOMElementNode :=
  createTestDomElement 12 "div" [("id", "item")] "/html/body/div[1]".
Definition itemTwinB : DOMElementNode :=
  createTestDomElement 13 "div" [("id", "item")] "/html/body/div[2]".
Definition strangerA : DOMElementNode :=
  createTestDomElement 14 "p" [] "/html/body/p[1]".
Definition strangerB : DOMElementNode :=
  createTestDomElement 15 "ul" [] "/html/body/ul".

(** An old node with twenty-six class tokens and two candidates for it: the
    first has the same tag and [id], another path and eleven of the
    tokens; the second has another tag, the same path and [id], and
    twenty-four of the tokens. *)
Definition tieOld : DOMElementNode :=
  createTestDomElement 30 "div"
    [("id", "x");
     ("class", "c1 c2 c3 c4 c5 c6 c7 c8 c9 c10 c11 c12 c13 c14 c15 c16 c17 c18 c19 c20 c21 c22 c23 c24 c25 c26")]
    "/html/body/div[1]".
Definition tieFirst : DOMElementNode :=
  createTestDomElement 31 "div"
    [("id", "x"); ("class", "c1 c2 c3 c4 c5 c6 c7 c8 c9 c10 c11")]
    "/html/body/div[2]".
Definition tieSecond : DOMElementNode :=
  createTestDomElement 32 "span"
    [("id", "x");
     ("class", "c1 c2 c3 c4 c5 c6 c7 c8 c9 c10 c11 c12 c13 c14 c15 c16 c17 c18 c19 c20 c21 c22 c23 c24")]
    "/html/body/div[1]".

(** The state [compareDOMTrees] starts from. *)
Definition freshState : DiffState :=
  {| result := emptyResult; processedOldElements := ∅; processedNewElements := ∅ |}.

(** ** Order of the change descriptors *)

(** The seven groups in the order the specification lists them. *)
Definition listedGroup (c : ElementChange) : nat :=
  match c with
  | TagChanged _ _ => 0
  | AttributeRemoved _ _ => 1
  | AttributeChanged _ _ _ => 2
  | AttributeAdded _ _ => 3
  | VisibilityChanged _ _ => 4
  | InteractivityChanged _ _ => 5
  | PositionChanged _ _ _ _ => 6
  end.

(** The groups as the detector's loops emit them: removals and value
    changes come out of one and the same loop. *)
Definition emittedGroup (c : ElementChange) : nat :=
  match c with
  | TagChanged _ _ => 0
  | AttributeRemoved _ _ => 1
  | AttributeChanged _ _ _ => 1
  | AttributeAdded _ _ => 2
  | VisibilityChanged _ _ => 3
  | InteractivityChanged _ _ => 4
  | PositionChanged _ _ _ _ => 5
  end.

Definition removedOrChangedKey (c : ElementChange) : option string :=
  match c with
  | AttributeRemoved k _ => Some k
  | AttributeChanged k _ _ => Some k
  | _ => None
  end.

Definition addedKey (c : ElementChange) : option string :=
  match c with
  | AttributeAdded k _ => Some k
  | _ => None
  end.

(** The four descriptors that are pushed at most once. *)
Definition tagPart (oldElem newElem : DOMElementNode) : list ElementChange :=
  if negb (String.eqb (tagName oldElem) (tagName newElem))
  then [TagChanged (tagName oldElem) (tagName newElem)] else [].

Definition visibilityPart (oldElem newElem : DOMElementNode) : list ElementChange :=
  if negb (Bool.eqb (isVisible oldElem) (isVisible newElem))
  then [VisibilityChanged (isVisible oldElem) (isVisible newElem)] else [].

Definition interactivityPart (oldElem newElem : DOMElementNode) : list ElementChange :=
  if negb (Bool.eqb (isInteractive oldElem) (isInteractive newElem))
  then [InteractivityChanged (isInteractive oldElem) (isInteractive newElem)] else [].

Definition positionPart (oldElem newElem : DOMElementNode) : list ElementChange :=
  match viewportCoordinates oldElem, viewportCoordinates newElem with
  | Some (ox, oy), Some (nx, ny) =>
      if negb (ox =? nx)%float || negb (oy =? ny)%float
      then [PositionChanged ox oy nx ny] else []
  | _, _ => []
  end.

(** How many descriptors of group [g] a list holds. *)
Definition groupCount (g : nat) (cs : list ElementChange) : nat :=
  length (List.filter (fun c => Nat.eqb (emittedGroup c) g) cs).

(** Two nodes that differ in the tag, in three attributes, in both flags
    and in the place. *)
Definition everyFacetOld : DOMElementNode :=
  mkDOMElementNode 1 "div" "/html/body/div" [("a", "1"); ("b", "2")] [] true false
    (Some (1, 2)%float).
Definition everyFacetNew : DOMElementNode :=
  mkDOMElementNode 2 "span" "/html/body/div" [("a", "9"); ("c", "3")] [] false true
    (Some (1, 2.5)%float).

(** A node without attributes, one with an attribute named like a member
    of [Object.prototype], and one whose centre is not a number. *)
Definition bareDiv : DOMElementNode :=
  createTestDomElement 1 "div" [] "/html/body/div".
Definition shadowingDiv : DOMElementNode :=
  createTestDomElement 2 "div" [("constructor", "x")] "/html/body/div".
Definition adriftDiv : DOMElementNode :=
  mkDOMElementNode 3 "div" "/html/body/div" [] [] true false
    (Some (nan, 0x1.999999999999ap-4)%float).

(** An old node with two attributes, and a new node that changes the first
    and drops the second. *)
Definition twoAttrs : DOMElementNode :=
  createTestDomElement 1 "div" [("a", "1"); ("b", "2")] "/html/body/div".
Definition oneAttr : DOMElementNode :=
  createTestDomElement 2 "div" [("a", "9")] "/html/body/div".

(** A root without attributes over one child without an [id]. *)
Definition plainChild : DOMElementNode :=
  createTestDomElement 2 "body" [("class", "main-body")] "/html/body".
Definition plainTree : DOMElementNode :=
  withChildren (createTestDomElement 1 "html" [] "/html") [plainChild].

(** A root over a container with three items, every child with an [id]. *)
Definition idItem (n : nat) (name : string) (path : string) : DOMElementNode :=
  createTestDomElement n "div" [("id", name); ("class", "item")] path.
Definition idContainer : DOMElementNode :=
  withChildren
    (createTestDomElement 2 "div" [("id", "container"); ("class", "container")]
       "/html/body/div")
    [idItem 3 "item-1" "/html/body/div/div[1]";
     idItem 4 "item-2" "/html/body/div/div[2]";
     idItem 5 "item-3" "/html/body/div/div[3]"].
Definition idTree : DOMElementNode :=
  withChildren (createTestDomElement 1 "html" [] "/html") [idContainer].

(** The same snapshot a moment later: the container gains a class, the
    second item gains an attribute, and a [span] is appended. *)
Definition idContainerLater : DOMElementNode :=
  withChildren
    (createTestDomElement 2 "div" [("id", "container"); ("class", "container modified")]
       "/html/body/div")
    [idItem 3 "item-1" "/html/body/div/div[1]";
     createTestDomElement 4 "div"
       [("id", "item-2"); ("class", "item"); ("data-modified", "true")]
       "/html/body/div/div[2]";
     idItem 5 "item-3" "/html/body/div/div[3]";
     createTestDomElement 6 "span" [("id", "new-element"); ("class", "highlight")]
       "/html/body/div/span"].
Definition idTreeLater : DOMElementNode :=
  withChildren (createTestDomElement 1 "html" [] "/html") [idContainerLater].

(** How often a trace asks the provider for a snapshot. *)
Definition snapshotRequests (events : list Event) : nat :=
  length (List.filter (fun ev => match ev with GetCurrentTree => true | _ => false end)
            events).

(** The two trees of the repository's [createTestDOMTree]: [html] over
    [body] over a container with three items; the modified version changes
    the container's class, gives the second item two more attributes and
    appends a [span]. *)
Definition testItem (isModified : bool) (i : nat) (name path : string) : DOMElementNode :=
  createTestDomElement (3 + i) "div"
    ([("id", name); ("class", "item")]
       ++ (if isModified && Nat.eqb i 2
           then [("data-modified", "true"); ("style", "color: red;")] else []))
    path.

Definition createTestDOMTree (isModified : bool) : DOMElementNode :=
  let container :=
    withChildren
      (createTestDomElement 3 "div"
         [("id", "container");
          ("class", if isModified then "container modified" else "container")]
         "/html/body/div")
      ([testItem isModified 1 "item-1" "/html/body/div/div[1]";
        testItem isModified 2 "item-2" "/html/body/div/div[2]";
        testItem isModified 3 "item-3" "/html/body/div/div[3]"]
         ++ (if isModified
             then [createTestDomElement 7 "span"
                     [("id", "new-element"); ("class", "highlight")]
                     "/html/body/div/span"]
             else [])) in
  let body :=
    withChildren (createTestDomElement 2 "body" [("class", "main-body")] "/html/body")
      [container] in
  withChildren (createTestDomElement 1 "html" [] "/html") [body].

(** ** Attribute objects as maps *)

(** The new node keeps the attributes of the old one: under every key the
    two objects have the same entry or both none, except that the new
    object may have an entry under a name that the old one inherits. *)
Definition sameAttributes (oldElem newElem : DOMElementNode) : Prop :=
  forall key,
    attrGet key (attributes oldElem) = attrGet key (attributes newElem) \/
    (attrGet key (attributes oldElem) = None /\ inheritsKey key = true).

(** The position check of the detector finds nothing: a side without
    geometry, or on both sides centres whose coordinates are equal as
    numbers. *)
Definition samePosition (a b : DOMElementNode) : Prop :=
  match viewportCoordinates a, viewportCoordinates b with
  | Some (oldX, oldY), Some (newX, newY) =>
      (oldX =? newX)%float = true /\ (oldY =? newY)%float = true
  | _, _ => True
  end.

(** An attribute object has each key once. *)
Definition uniqueKeys (e : DOMElementNode) : Prop := NoDup (map fst (attributes e)).

(** A node with two attributes and geometry, and the same element found
    at another place of a later snapshot. *)
Definition placedDiv : DOMElementNode :=
  mkDOMElementNode 1 "div" "/html/body/div[1]" [("id", "x"); ("class", "a b")]
    [] true false (Some (10.5, 20)%float).
Definition movedDiv : DOMElementNode :=
  mkDOMElementNode 9 "div" "/html/body/main/div[3]" [("class", "a b"); ("id", "x")]
    [DOMTextNode "text"] true false (Some (10.5, 20)%float).

(** The same classes written in another order, with a repetition. *)
Definition classesAB : DOMElementNode :=
  createTestDomElement 1 "div" [("class", "a b")] "/html/body/div".
Definition classesBAA : DOMElementNode :=
  createTestDomElement 2 "div" [("class", "b  a a")] "/html/body/div".

(** A character of three bytes, and the no-break space U+00A0. *)
Definition utf8 (b1 b2 b3 : nat) : string :=
  String (ascii_of_nat b1) (String (ascii_of_nat b2) (String (ascii_of_nat b3) EmptyString)).
Definition noBreakSpace : string :=
  String (ascii_of_nat 194) (String (ascii_of_nat 160) EmptyString).

(** The classes of [classesAB] with a no-break space between them. *)
Definition classesNoBreak : DOMElementNode :=
  createTestDomElement 3 "div" [("class", ("a" ++ noBreakSpace ++ "b")%string)]
    "/html/body/div".

(** ** Order of the result lists *)

(** Between [st] and [st'] the matcher appended to [unchanged] and to
    [modified] only, and the old nodes it appended come in the order of
    [nodes]. *)
Definition appendedInOrder (nodes : list DOMElementNode) (st st' : DiffState) : Prop :=
  exists U M,
    added (result st') = added (result st) /\
    removed (result st') = removed (result st) /\
    unchanged (result st') = unchanged (result st) ++ U /\
    modified (result st') = modified (result st) ++ M /\
    sublist U nodes /\
    sublist (map oldElement M) nodes.

(** The two nodes of a pair carry the same non-empty [id]. *)
Definition sameId (a b : DOMElementNode) : Prop :=
  hasId a /\ hasId b /\ attrGet "id" (attributes a) = attrGet "id" (attributes b).

(** A snapshot without any [id]: [html] over [body] over two paragraphs. *)
Definition noIdTree : DOMElementNode :=
  withChildren (createTestDomElement 1 "html" [] "/html")
    [withChildren (createTestDomElement 2 "body" [("class", "main")] "/html/body")
       [createTestDomElement 3 "p" [("class", "lead")] "/html/body/p[1]";
        createTestDomElement 4 "p" [] "/html/body/p[2]"]].

(** ** Report *)

Definition showNat (n : nat) : string := NilZero.string_of_uint (Nat.to_uint n).
Definition lineFeed : string := String (ascii_of_nat 10) EmptyString.

(** The line of one element: its number, its tag and, when the path is not
    empty, the path in parentheses. *)
Definition elementLine (i : nat) (elem : DOMElementNode) : string :=
  (showNat (i + 1) ++ ". <" ++ tagName elem ++ "> "
     ++ (if String.eqb (xpath elem) "" then "" else "(" ++ xpath elem ++ ")"))%string.

(** The lines of one modified entry: the line of its old element, then one
    indented line per change. *)
Definition modificationLines (i : nat) (entry : Modification) : list string :=
  elementLine i (oldElement entry)
    :: map (fun change => ("   - " ++ change)%string) (changes entry).

(** The array [lines] of [formatDOMDiffResult] just before it is joined. *)
Definition formatLines (result : DOMDiffResult) : list string :=
  let lines := [] in
  let lines := lines ++ ["===== DOM树变化分析 ====="] in
  let lines := lines ++ [("新增元素: " ++ showNat (length (added result)) ++ "个")%string] in
  let lines := lines ++ [("删除元素: " ++ showNat (length (removed result)) ++ "个")%string] in
  let lines := lines ++ [("修改元素: " ++ showNat (length (modified result)) ++ "个")%string] in
  let lines := lines ++ [("未变元素: " ++ showNat (length (unchanged result)) ++ "个")%string] in
  let lines :=
    if Nat.ltb 0 (length (added result))
    then (lines ++ [(lineFeed ++ "----- 新增元素 -----")%string])
           ++ imap elementLine (added result)
    else lines in
  let lines :=
    if Nat.ltb 0 (length (removed result))
    then (lines ++ [(lineFeed ++ "----- 删除元素 -----")%string])
           ++ imap elementLine (removed result)
    else lines in
  let lines :=
    if Nat.ltb 0 (length (modified result))
    then (lines ++ [(lineFeed ++ "----- 修改元素 -----")%string])
           ++ concat (imap modificationLines (modified result))
    else lines in
  lines.

Definition formatDOMDiffResult (result : DOMDiffResult) : string :=
  String.concat lineFeed (formatLines result).

(** A section of the report: nothing when it has no lines, otherwise the
    heading and the lines. *)
Definition reportSection (heading : string) (body : list string) : list string :=
  match body with
  | [] => []
  | _ :: _ => heading :: body
  end.

(** The lines a section of [n] entries takes: none when it is empty,
    otherwise its heading and [n] more. *)
Definition sectionLines (n extra : nat) : nat :=
  match n with
  | O => 0
  | S _ => 1 + n + extra
  end.

Definition changeCount (mods : list Modification) : nat :=
  list_sum (map (fun m => length (changes m)) mods).

(** ** Pairs and parents *)

(** [c] is one of the element children of [p]. *)
Definition childOf (c p : DOMElementNode) : Prop := c ∈ elementChildren (children p).

(** The two nodes of the pair [p] are children of the two nodes of one
    pair of [all]. *)
Definition pairedUnder (all : list (DOMElementNode * DOMElementNode))
    (p : DOMElementNode * DOMElementNode) : Prop :=
  exists q, q ∈ all /\ childOf (fst p) (fst q) /\ childOf (snd p) (snd q).

(** * Properties *)

(** ** Similarity scorer *)

Lemma natQ_nonneg (n : nat) : (0 <= natQ n)%Q.
Proof.
  unfold natQ. change 0%Q with (inject_Z 0). rewrite <- Zle_Qle. lia.
Qed.

Lemma natQ_le (n m : nat) : (n <= m)%nat -> (natQ n <= natQ m)%Q.
Proof. intros H. unfold natQ. rewrite <- Zle_Qle. lia. Qed.

Lemma natQ_pos (n : nat) : (0 < n)%nat -> (0 < natQ n)%Q.
Proof.
  intros H. unfold natQ. change 0%Q with (inject_Z 0). rewrite <- Zlt_Qlt. lia.
Qed.

Lemma setHas_true (s : list string) (x : string) : x ∈ s -> setHas s x = true.
Proof.
  intros Hx. unfold setHas. apply existsb_exists. exists x. split.
  - by apply list_elem_of_In.
  - apply String.eqb_refl.
Qed.

Lemma countCommon_acc (s2 s1 : list string) (n : nat) :
  fold_left (fun n cls => if setHas s2 cls then S n else n) s1 n
  = (n + fold_left (fun n cls => if setHas s2 cls then S n else n) s1 0)%nat.
Proof.
  revert n. induction s1 as [|x s1 IH]; intros n; simpl; [lia|].
  destruct (setHas s2 x).
  - rewrite (IH (S n)), (IH 1%nat). lia.
  - apply IH.
Qed.

Lemma countCommon_le (s1 s2 : list string) : (countCommon s1 s2 <= length s1)%nat.
Proof.
  unfold countCommon. induction s1 as [|x s1 IH]; simpl; [lia|].
  destruct (setHas s2 x); [rewrite countCommon_acc|]; lia.
Qed.

Lemma countCommon_incl (s1 s2 : list string) :
  (forall x, x ∈ s1 -> x ∈ s2) -> countCommon s1 s2 = length s1.
Proof.
  unfold countCommon. induction s1 as [|x s1 IH]; intros Hin; simpl; [done|].
  rewrite setHas_true by (apply Hin; left).
  rewrite countCommon_acc, IH; [lia|].
  intros y Hy. apply Hin. by right.
Qed.

Lemma splitAux_nonempty (s piece : string) (inRun : bool) (skip : nat) :
  splitAux s piece inRun skip <> [].
Proof.
  revert piece inRun skip. induction s as [|c s IH]; intros piece inRun skip; [done|].
  cbn [splitAux]. destruct skip as [|skip']; [|apply IH].
  destruct (whiteSpaceLength (String c s)); [apply IH|].
  destruct inRun; [apply IH|done].
Qed.

Lemma newSet_acc_length (items acc : list string) :
  (length acc <= length
     (fold_left (fun acc x => if setHas acc x then acc else acc ++ [x]) items acc))%nat.
Proof.
  revert acc. induction items as [|x items IH]; intros acc; simpl; [lia|].
  destruct (setHas acc x); [apply IH|].
  etransitivity; [|apply IH]. rewrite length_app. simpl. lia.
Qed.

Lemma newSet_nonempty (items : list string) : items <> [] -> (0 < length (newSet items))%nat.
Proof.
  destruct items as [|x items]; [done|]. intros _. unfold newSet. simpl.
  eapply Nat.lt_le_trans; [|apply newSet_acc_length]. simpl. lia.
Qed.

Lemma classOverlap_bounds (class1 class2 : string) :
  (0 <= classOverlap class1 class2 /\ classOverlap class1 class2 <= 2)%Q.
Proof.
  unfold classOverlap.
  set (s1 := newSet (splitWhiteSpace class1)).
  set (s2 := newSet (splitWhiteSpace class2)).
  destruct (Nat.ltb_spec 0 (Nat.max (length s1) (length s2))) as [Hpos|Hz];
    [|split; lra].
  pose proof (natQ_pos _ Hpos) as Hm.
  pose proof (natQ_nonneg (countCommon s1 s2)) as Hc.
  assert (Hle : (natQ (countCommon s1 s2) <= natQ (Nat.max (length s1) (length s2)))%Q).
  { apply natQ_le. pose proof (countCommon_le s1 s2). lia. }
  assert (H0 : (0 <= natQ (countCommon s1 s2) / natQ (Nat.max (length s1) (length s2)))%Q).
  { apply Qle_shift_div_l; [done|]. lra. }
  assert (H1 : (natQ (countCommon s1 s2) / natQ (Nat.max (length s1) (length s2)) <= 1)%Q).
  { apply Qle_shift_div_r; [done|]. lra. }
  split; lra.
Qed.

Lemma classOverlap_self (class1 : string) : (classOverlap class1 class1 == 2)%Q.
Proof.
  unfold classOverlap.
  set (s1 := newSet (splitWhiteSpace class1)).
  assert (Hpos : (0 < length s1)%nat).
  { apply newSet_nonempty, splitAux_nonempty. }
  rewrite Nat.max_id, countCommon_incl by done.
  destruct (Nat.ltb_spec 0 (length s1)); [|lia].
  pose proof (natQ_pos _ Hpos). field. lra.
Qed.

Lemma tagSignal_range (a b : DOMElementNode) : (0 <= tagSignal a b <= 3)%Q.
Proof. unfold tagSignal. destruct (String.eqb _ _); split; lra. Qed.

Lemma xpathSignal_range (a b : DOMElementNode) : (0 <= xpathSignal a b <= 2)%Q.
Proof. unfold xpathSignal. destruct (String.eqb _ _); split; lra. Qed.


Lemma classSignal_range (a b : DOMElementNode) : (0 <= classSignal a b <= 2)%Q.
Proof.
  unfold classSignal.
  destruct (attrGet "class" (attributes a)) as [c1|]; [|split; lra].
  destruct (attrGet "class" (attributes b)) as [c2|]; [|split; lra].
  destruct (_ && _); [apply classOverlap_bounds|split; lra].
Qed.

Lemma totalWeight_eq (a b : DOMElementNode) : snd (similarityTerms a b) = 11%Q.
Proof. reflexivity. Qed.

Lemma similarityTerms_signals (a b : DOMElementNode) :
  (fst (similarityTerms a b)
   == tagSignal a b + xpathSignal a b + idSignal a b + classSignal a b)%Q.
Proof.
  unfold similarityTerms, tagSignal, xpathSignal, idSignal, classSignal. simpl.
  destruct (String.eqb (tagName a) (tagName b));
    destruct (String.eqb (xpath a) (xpath b));
    destruct (truthy (attrGet "id" (attributes a)) && truthy (attrGet "id" (attributes b))
              && optEqb (attrGet "id" (attributes a)) (attrGet "id" (attributes b)));
    destruct (attrGet "class" (attributes a)) as [c1|];
    destruct (attrGet "class" (attributes b)) as [c2|];
    try destruct (negb (String.eqb c1 "") && negb (String.eqb c2 ""));
    simpl; ring.
Qed.

Lemma score_signals (a b : DOMElementNode) :
  (calculateSimilarityScore a b
   == (tagSignal a b + xpathSignal a b + idSignal a b + classSignal a b) / 11)%Q.
Proof.
  unfold calculateSimilarityScore.
  pose proof (similarityTerms_signals a b) as Hs.
  pose proof (totalWeight_eq a b) as Hw.
  destruct (similarityTerms a b) as [score totalWeight]. simpl in *. subst.
  by rewrite Hs.
Qed.


Lemma optEqb_refl (o : option string) : optEqb o o = true.
Proof. destruct o; simpl; [apply String.eqb_refl|done]. Qed.




(** C10. An [id] that is the empty string counts as no [id]: the id signal
    adds nothing, even when both nodes carry [id = ""]; likewise an empty
    [class] silences the class signal. *)
Theorem empty_attribute_is_absent (a b : DOMElementNode) :
  (attrGet "id" (attributes a) = Some "" \/ attrGet "id" (attributes b) = Some "" ->
   idSignal a b = 0%Q /\
   (calculateSimilarityScore a b
    == (tagSignal a b + xpathSignal a b + classSignal a b) / 11)%Q) /\
  (attrGet "class" (attributes a) = Some "" \/ attrGet "class" (attributes b) = Some "" ->
   classSignal a b = 0%Q /\
   (calculateSimilarityScore a b
    == (tagSignal a b + xpathSignal a b + idSignal a b) / 11)%Q).
Proof.
  split.
  - intros Hid.
    assert (Hz : idSignal a b = 0%Q).
    { unfold idSignal. simpl. destruct Hid as [-> | ->]; simpl; [done|].
      by rewrite andb_false_r. }
    split; [done|]. rewrite score_signals, Hz. field.
  - intros Hclass.
    assert (Hz : classSignal a b = 0%Q).
    { unfold classSignal. destruct Hclass as [-> | ->]; simpl.
      - by destruct (attrGet "class" (attributes b)).
      - destruct (attrGet "class" (attributes a)); [|done]. by rewrite andb_false_r. }
    split; [done|]. rewrite score_signals, Hz. field.
Qed.

Lemma empty_attribute_is_absent_witness :
  (attrGet "id" (attributes emptyIdA) = Some "" /\
   attrGet "id" (attributes emptyIdB) = Some "" /\
   idSignal emptyIdA emptyIdB = 0%Q) /\
  (attrGet "class" (attributes emptyIdA) = Some "" /\
   classSignal emptyIdA emptyIdB = 0%Q) /\
  (calculateSimilarityScore emptyIdA emptyIdB == 5 / 11)%Q.
Proof.
  destruct (empty_attribute_is_absent emptyIdA emptyIdB) as [Hid Hclass].
  split; [|split].
  - split; [reflexivity|]. split; [reflexivity|]. apply Hid. left. reflexivity.
  - split; [reflexivity|]. apply Hclass. left. reflexivity.
  - destruct Hid as [_ ->]; [left; reflexivity|]. reflexivity.
Defined.

(** ** Candidate selection *)

Lemma scanCandidates_skip (oldChild : DOMElementNode) (processedNew : gset nat)
    (pre rest : list DOMElementNode) (bestMatch : option DOMElementNode) (highestScore : Q) :
  Forall (fun c => ref c ∈ processedNew \/
                   (calculateSimilarityScore oldChild c <= highestScore)%Q) pre ->
  scanCandidates oldChild processedNew (pre ++ rest) bestMatch highestScore
  = scanCandidates oldChild processedNew rest bestMatch highestScore.
Proof.
  induction 1 as [|c pre Hc _ IH]; simpl; [done|].
  destruct (decide (ref c ∈ processedNew)) as [|Hn]; [done|].
  destruct Hc as [|Hc]; [done|].
  destruct (Qlt_le_dec highestScore (calculateSimilarityScore oldChild c)) as [Hlt|]; [|done].
  exfalso. lra.
Qed.

Lemma scanCandidates_below (oldChild : DOMElementNode) (processedNew : gset nat)
    (bound : Q) (pre rest : list DOMElementNode) :
  Forall (fun c => ref c ∈ processedNew \/
                   (calculateSimilarityScore oldChild c < bound)%Q) pre ->
  forall (bestMatch : option DOMElementNode) (highestScore : Q),
  (highestScore < bound)%Q ->
  exists bestMatch' highestScore',
    (highestScore' < bound)%Q /\
    scanCandidates oldChild processedNew (pre ++ rest) bestMatch highestScore
    = scanCandidates oldChild processedNew rest bestMatch' highestScore'.
Proof.
  induction 1 as [|c pre Hc _ IH]; intros bestMatch highestScore Hlt; simpl; [by eauto|].
  destruct (decide (ref c ∈ processedNew)) as [|Hn]; [by apply IH|].
  destruct Hc as [|Hc]; [done|].
  destruct (Qlt_le_dec highestScore (calculateSimilarityScore oldChild c)); by apply IH.
Qed.

(** Whatever the scan returns is an unprocessed member of the list, paired
    with its own score. *)
Lemma scanCandidates_some (oldChild : DOMElementNode) (processedNew : gset nat)
    (news : list DOMElementNode) :
  forall (bestMatch : option DOMElementNode) (highestScore : Q) best s,
  scanCandidates oldChild processedNew news bestMatch highestScore = (Some best, s) ->
  (bestMatch = Some best /\ highestScore = s) \/
  (best ∈ news /\ (ref best ∉ processedNew) /\
   s = calculateSimilarityScore oldChild best).
Proof.
  induction news as [|c news IH]; intros bestMatch highestScore best s; simpl.
  - intros [= -> ->]. by left.
  - destruct (decide (ref c ∈ processedNew)) as [|Hn].
    + intros H. apply IH in H as [|(? & ? & ?)]; [by left|right].
      split; [by right|done].
    + destruct (Qlt_le_dec highestScore (calculateSimilarityScore oldChild c)).
      * intros H. apply IH in H as [[[= <-] <-]|(? & ? & ?)]; right.
        -- split; [left|done].
        -- split; [by right|done].
      * intros H. apply IH in H as [|(? & ? & ?)]; [by left|right].
        split; [by right|done].
Qed.

Lemma findBestMatch_some (oldChild : DOMElementNode) (processedNew : gset nat)
    (news : list DOMElementNode) (best : DOMElementNode) (s : Q) :
  findBestMatch oldChild processedNew news = (Some best, s) ->
  best ∈ news /\ (ref best ∉ processedNew) /\
  s = calculateSimilarityScore oldChild best.
Proof.
  intros H. apply scanCandidates_some in H as [[? _]|]; done.
Qed.

Lemma acceptedMatch_some (oldChild : DOMElementNode) (processedNew : gset nat)
    (news : list DOMElementNode) (best : DOMElementNode) :
  acceptedMatch (findBestMatch oldChild processedNew news) = Some best ->
  best ∈ news /\ (ref best ∉ processedNew) /\ aboveThreshold (oldChild, best).
Proof.
  destruct (findBestMatch oldChild processedNew news) as [[b|] s] eqn:E; simpl; [|done].
  destruct (Qlt_le_dec 0.7 s) as [Hs|]; [|done]. intros [= ->].
  apply findBestMatch_some in E as (? & ? & ->). done.
Qed.

(** The first unprocessed candidate that beats everything before it and is
    not beaten by anything after it is the one the scan returns. *)
Lemma findBestMatch_earliest (oldChild : DOMElementNode) (processedNew : gset nat)
    (pre post : list DOMElementNode) (best : DOMElementNode) :
  ref best ∉ processedNew ->
  (0 < calculateSimilarityScore oldChild best)%Q ->
  Forall (fun c => ref c ∈ processedNew \/
            (calculateSimilarityScore oldChild c
             < calculateSimilarityScore oldChild best)%Q) pre ->
  Forall (fun c => ref c ∈ processedNew \/
            (calculateSimilarityScore oldChild c
             <= calculateSimilarityScore oldChild best)%Q) post ->
  findBestMatch oldChild processedNew (pre ++ best :: post)
  = (Some best, calculateSimilarityScore oldChild best).
Proof.
  intros Hfresh Hpos Hpre Hpost. unfold findBestMatch.
  destruct (scanCandidates_below oldChild processedNew _ pre (best :: post) Hpre None 0%Q Hpos)
    as (bm & hs & Hhs & ->).
  simpl. destruct (decide (ref best ∈ processedNew)); [done|].
  destruct (Qlt_le_dec hs (calculateSimilarityScore oldChild best)); [|exfalso; lra].
  rewrite <- (app_nil_r post). rewrite scanCandidates_skip; [done|].
  eapply Forall_impl; [exact Hpost|]. done.
Qed.

(** Discharge a [Forall] over an explicit list, member by member. *)
Ltac each_candidate tac :=
  repeat (apply Forall_cons_2; [tac|]); apply Forall_nil_2.

(** A [Forall] of a test is the test run over the list. *)
Lemma Forall_forallb {A : Type} (f : A -> bool) (l : list A) :
  forallb f l = true -> Forall (fun x => f x = true) l.
Proof.
  induction l as [|x l IH]; simpl; [constructor|].
  intros [Hx Hl]%andb_prop. constructor; [exact Hx|by apply IH].
Qed.

(** ** Order of the doubles *)

Lemma SFltb_irrefl (x : spec_float) : SFltb x x = false.
Proof.
  unfold SFltb. destruct x as [s|s| |s m e]; simpl; try done.
  - by destruct s.
  - destruct s; rewrite Z.compare_refl, Pos.compare_cont_refl; done.
Qed.

Lemma SFltb_trans (x y z : spec_float) :
  SFltb x y = true -> SFltb y z = true -> SFltb x z = true.
Proof.
  unfold SFltb.
  destruct x as [[]|[]| |[] m1 e1], y as [[]|[]| |[] m2 e2], z as [[]|[]| |[] m3 e3];
    simpl; try done.
  all: destruct (Z.compare_spec e1 e2), (Z.compare_spec e2 e3), (Z.compare_spec e1 e3);
    try lia; try done; subst.
  all: change (Pos.compare_cont Eq ?a ?b) with (Pos.compare a b).
  all: destruct (Pos.compare_spec m1 m2), (Pos.compare_spec m2 m3), (Pos.compare_spec m1 m3);
    simpl; try lia; try done.
Qed.

(** A number that is above another one is comparable with every number. *)
Lemma SFltb_cotrans (a s x c : spec_float) :
  SFltb a s = true -> SFltb x c = true -> SFltb x s = true \/ SFltb s c = true.
Proof.
  unfold SFltb.
  destruct a as [[]|[]| |[] m0 e0], s as [[]|[]| |[] m1 e1]; simpl; try done;
    destruct x as [[]|[]| |[] m2 e2], c as [[]|[]| |[] m3 e3];
    simpl; try done; auto; intros _.
  all: destruct (Z.compare_spec e2 e3), (Z.compare_spec e2 e1), (Z.compare_spec e1 e3);
    try lia; try done; subst; auto.
  all: change (Pos.compare_cont Eq ?a ?b) with (Pos.compare a b).
  all: destruct (Pos.compare_spec m2 m3), (Pos.compare_spec m2 m1), (Pos.compare_spec m1 m3);
    simpl; try lia; try done; auto.
Qed.

Lemma double_lt_irrefl (x : float) : (x <? x)%float = false.
Proof. rewrite ltb_spec. apply SFltb_irrefl. Qed.

Lemma double_lt_trans (x y z : float) :
  (x <? y)%float = true -> (y <? z)%float = true -> (x <? z)%float = true.
Proof. rewrite !ltb_spec. apply SFltb_trans. Qed.

Lemma double_lt_asym (x y : float) : (x <? y)%float = true -> (y <? x)%float = false.
Proof.
  intros Hxy. destruct (y <? x)%float eqn:Hyx; [|done].
  pose proof (double_lt_trans x y x Hxy Hyx) as H. by rewrite double_lt_irrefl in H.
Qed.

Lemma double_lt_cotrans (a s x c : float) :
  (a <? s)%float = true -> (x <? c)%float = true ->
  (x <? s)%float = true \/ (s <? c)%float = true.
Proof. rewrite !ltb_spec. apply SFltb_cotrans. Qed.

Lemma atMost_not_above (x y : float) : atMost x y -> (y <? x)%float = false.
Proof. intros [->|H]; [apply double_lt_irrefl|by apply double_lt_asym]. Qed.

(** ** Candidate selection in double precision *)

Lemma double_scan_skip (oldChild : DOMElementNode) (processedNew : gset nat)
    (pre rest : list DOMElementNode) (bestMatch : option DOMElementNode)
    (highestScore : float) :
  Forall (fun c => ref c ∈ processedNew \/
            (highestScore <? Binary64.calculateSimilarityScore oldChild c)%float = false)
    pre ->
  Binary64.scanCandidates oldChild processedNew (pre ++ rest) bestMatch highestScore
  = Binary64.scanCandidates oldChild processedNew rest bestMatch highestScore.
Proof.
  induction 1 as [|c pre Hc _ IH]; simpl; [done|].
  destruct (decide (ref c ∈ processedNew)) as [|Hn]; [done|].
  destruct Hc as [|Hc]; [done|]. by rewrite Hc.
Qed.

Lemma double_scan_below (oldChild : DOMElementNode) (processedNew : gset nat)
    (bound : float) (pre rest : list DOMElementNode) :
  Forall (fun c => ref c ∈ processedNew \/
            (Binary64.calculateSimilarityScore oldChild c <? bound)%float = true) pre ->
  forall (bestMatch : option DOMElementNode) (highestScore : float),
  (highestScore <? bound)%float = true ->
  exists bestMatch' highestScore',
    (highestScore' <? bound)%float = true /\
    Binary64.scanCandidates oldChild processedNew (pre ++ rest) bestMatch highestScore
    = Binary64.scanCandidates oldChild processedNew rest bestMatch' highestScore'.
Proof.
  induction 1 as [|c pre Hc _ IH]; intros bestMatch highestScore Hlt; simpl; [by eauto|].
  destruct (decide (ref c ∈ processedNew)) as [|Hn]; [by apply IH|].
  destruct Hc as [|Hc]; [done|].
  destruct (highestScore <? Binary64.calculateSimilarityScore oldChild c)%float;
    by apply IH.
Qed.

(** Whatever the scan returns is an unprocessed member of the list, paired
    with its own score. *)
Lemma double_scan_some (oldChild : DOMElementNode) (processedNew : gset nat)
    (news : list DOMElementNode) :
  forall (bestMatch : option DOMElementNode) (highestScore : float) best s,
  Binary64.scanCandidates oldChild processedNew news bestMatch highestScore
  = (Some best, s) ->
  (bestMatch = Some best /\ highestScore = s) \/
  (best ∈ news /\ (ref best ∉ processedNew) /\
   s = Binary64.calculateSimilarityScore oldChild best).
Proof.
  induction news as [|c news IH]; intros bestMatch highestScore best s; simpl.
  - intros [= -> ->]. by left.
  - destruct (decide (ref c ∈ processedNew)) as [|Hn].
    + intros H. apply IH in H as [|(? & ? & ?)]; [by left|right].
      split; [by right|done].
    + destruct (highestScore <? Binary64.calculateSimilarityScore oldChild c)%float.
      * intros H. apply IH in H as [[[= <-] <-]|(? & ? & ?)]; right.
        -- split; [left|done].
        -- split; [by right|done].
      * intros H. apply IH in H as [|(? & ? & ?)]; [by left|right].
        split; [by right|done].
Qed.

(** The running maximum never falls, and no unprocessed candidate is above
    the final one. *)
Lemma double_scan_max (oldChild : DOMElementNode) (processedNew : gset nat)
    (news : list DOMElementNode) :
  forall (bestMatch : option DOMElementNode) (highestScore : float) best s,
  Binary64.scanCandidates oldChild processedNew news bestMatch highestScore = (best, s) ->
  atMost highestScore s /\
  Forall (fun c => ref c ∈ processedNew \/
            (s <? Binary64.calculateSimilarityScore oldChild c)%float = false) news.
Proof.
  induction news as [|c news IH]; intros bestMatch highestScore best s; simpl.
  - intros [= _ ->]. split; [by left|constructor].
  - destruct (decide (ref c ∈ processedNew)) as [Hin|Hn].
    + intros H. apply IH in H as [Hle Hall]. split; [done|].
      apply Forall_cons. split; [by left|done].
    + destruct (highestScore <? Binary64.calculateSimilarityScore oldChild c)%float eqn:E.
      * intros H. apply IH in H as [Hle Hall]. split.
        -- right. destruct Hle as [<-|Hlt]; [done|by eapply double_lt_trans].
        -- apply Forall_cons. split; [right; by apply atMost_not_above|done].
      * intros H. apply IH in H as [Hle Hall]. split; [done|].
        apply Forall_cons. split; [right|done].
        destruct Hle as [<-|Hlt]; [done|].
        destruct (s <? Binary64.calculateSimilarityScore oldChild c)%float eqn:E'; [|done].
        by rewrite (double_lt_trans _ _ _ Hlt E') in E.
Qed.

(** The scan hands back a candidate only after the running maximum rose. *)
Lemma double_scan_rose (oldChild : DOMElementNode) (processedNew : gset nat)
    (news : list DOMElementNode) :
  forall (highestScore : float) best s,
  Binary64.scanCandidates oldChild processedNew news None highestScore = (Some best, s) ->
  (highestScore <? s)%float = true.
Proof.
  induction news as [|c news IH]; intros highestScore best s; simpl; [done|].
  destruct (decide (ref c ∈ processedNew)); [apply IH|].
  destruct (highestScore <? Binary64.calculateSimilarityScore oldChild c)%float eqn:E;
    [|apply IH].
  intros H. apply double_scan_max in H as [[<-|Hlt] _]; [done|].
  by eapply double_lt_trans.
Qed.

Lemma double_scan_none (oldChild : DOMElementNode) (processedNew : gset nat)
    (news : list DOMElementNode) :
  forall (bestMatch : option DOMElementNode) (highestScore s : float),
  Binary64.scanCandidates oldChild processedNew news bestMatch highestScore = (None, s) ->
  bestMatch = None /\ s = highestScore.
Proof.
  induction news as [|c news IH]; intros bestMatch highestScore s; simpl.
  - by intros [= -> ->].
  - destruct (decide (ref c ∈ processedNew)); [apply IH|].
    destruct (highestScore <? Binary64.calculateSimilarityScore oldChild c)%float;
      [|apply IH].
    intros H. by apply IH in H as [? _].
Qed.

Lemma double_best_some (oldChild : DOMElementNode) (processedNew : gset nat)
    (news : list DOMElementNode) (best : DOMElementNode) (s : float) :
  Binary64.findBestMatch oldChild processedNew news = (Some best, s) ->
  best ∈ news /\ (ref best ∉ processedNew) /\
  s = Binary64.calculateSimilarityScore oldChild best /\
  (0 <? s)%float = true.
Proof.
  intros H. pose proof (double_scan_rose _ _ _ _ _ _ H) as Hpos.
  apply double_scan_some in H as [[? _]|(? & ? & ?)]; done.
Qed.

(** C9. Tie-breaking in child alignment: among the unprocessed new children
    the earliest one that attains the maximal score is selected, because
    the running maximum only yields to a strictly greater score; and when
    every candidate scores 0 nothing is selected.  The scores are the
    doubles the scorer computes, and two candidates tie when they get the
    same double. *)
Theorem earliest_maximal_candidate_wins (oldChild : DOMElementNode)
    (processedNew : gset nat) :
  (forall (pre post : list DOMElementNode) (best : DOMElementNode),
     ref best ∉ processedNew ->
     (0 <? Binary64.calculateSimilarityScore oldChild best)%float = true ->
     Forall (fun c => ref c ∈ processedNew \/
               (Binary64.calculateSimilarityScore oldChild c
                <? Binary64.calculateSimilarityScore oldChild best)%float = true) pre ->
     Forall (fun c => ref c ∈ processedNew \/
               Binary64.calculateSimilarityScore oldChild c
               = Binary64.calculateSimilarityScore oldChild best \/
               (Binary64.calculateSimilarityScore oldChild c
                <? Binary64.calculateSimilarityScore oldChild best)%float = true) post ->
     Binary64.findBestMatch oldChild processedNew (pre ++ best :: post)
     = (Some best, Binary64.calculateSimilarityScore oldChild best)) /\
  (forall news : list DOMElementNode,
     Forall (fun c => ref c ∈ processedNew \/
               Binary64.calculateSimilarityScore oldChild c = 0%float) news ->
     Binary64.findBestMatch oldChild processedNew news = (None, 0%float) /\
     Binary64.acceptedMatch (Binary64.findBestMatch oldChild processedNew news) = None).
Proof.
  split.
  - intros pre post best Hfresh Hpos Hpre Hpost. unfold Binary64.findBestMatch.
    destruct (double_scan_below oldChild processedNew _ pre (best :: post) Hpre
                None 0%float Hpos) as (bm & hs & Hhs & ->).
    simpl. destruct (decide (ref best ∈ processedNew)); [done|].
    rewrite Hhs. rewrite <- (app_nil_r post). rewrite double_scan_skip; [done|].
    eapply Forall_impl; [exact Hpost|]. intros c [?|Hc]; [by left|right].
    by apply atMost_not_above.
  - intros news Hzero.
    assert (E : Binary64.findBestMatch oldChild processedNew news = (None, 0%float)).
    { unfold Binary64.findBestMatch. rewrite <- (app_nil_r news).
      rewrite double_scan_skip; [done|].
      eapply Forall_impl; [exact Hzero|]. intros c [|Hc]; [by left|right].
      rewrite Hc. reflexivity. }
    by rewrite E.
Qed.

Lemma earliest_maximal_candidate_wins_witness :
  Binary64.findBestMatch itemOld ∅ ([itemFar] ++ itemTwinA :: [itemTwinB])
  = (Some itemTwinA, Binary64.calculateSimilarityScore itemOld itemTwinA) /\
  Binary64.calculateSimilarityScore itemOld itemTwinB
  = Binary64.calculateSimilarityScore itemOld itemTwinA /\
  Binary64.findBestMatch itemOld ∅ [strangerA; strangerB] = (None, 0%float).
Proof.
  destruct (earliest_maximal_candidate_wins itemOld ∅) as [Hbest Hnone].
  split; [|split].
  - apply Hbest.
    + set_solver.
    + vm_compute. reflexivity.
    + each_candidate ltac:(right; vm_compute; reflexivity).
    + each_candidate ltac:(right; left; vm_compute; reflexivity).
  - vm_compute. reflexivity.
  - apply Hnone. each_candidate ltac:(right; vm_compute; reflexivity).
Defined.

(** Two candidates whose scores are the same rational number, 102/143, but
    not the same double: the second one comes out one unit in the last
    place higher and is selected. *)
Example rounding_breaks_a_tie :
  (calculateSimilarityScore tieOld tieFirst == calculateSimilarityScore tieOld tieSecond)%Q /\
  showNumber (Binary64.calculateSimilarityScore tieOld tieFirst) = "0.7132867132867132" /\
  showNumber (Binary64.calculateSimilarityScore tieOld tieSecond) = "0.7132867132867133" /\
  (Binary64.calculateSimilarityScore tieOld tieFirst
   <? Binary64.calculateSimilarityScore tieOld tieSecond)%float = true /\
  fst (Binary64.findBestMatch tieOld ∅ [tieFirst; tieSecond]) = Some tieSecond /\
  fst (findBestMatch tieOld ∅ [tieFirst; tieSecond]) = Some tieFirst.
Proof. repeat split; vm_compute; reflexivity. Qed.



(** Seven shared class tokens out of twenty, with the same tag and [id]:
    the score is the rational number 7/10, and the double the scorer
    computes for it is 0.7000000000000001, which is above the double 0.7. *)
Example rounding_lifts_a_score_over_the_threshold :
  (calculateSimilarityScore twentyA twentyB == 7 # 10)%Q /\
  showNumber (Binary64.calculateSimilarityScore twentyA twentyB) = "0.7000000000000001" /\
  showNumber Binary64.threshold = "0.7" /\
  Binary64.acceptedMatch (Binary64.findBestMatch twentyA ∅ [twentyB]) = Some twentyB /\
  acceptedMatch (findBestMatch twentyA ∅ [twentyB]) = None.
Proof. repeat split; vm_compute; reflexivity. Qed.

(** ** Field-level change detector *)

Lemma sorted_snoc_group (g : ElementChange -> nat) (k k' : nat)
    (cs part : list ElementChange) :
  (k <= k')%nat ->
  StronglySorted le (map g cs) /\ Forall (fun c => (g c <= k)%nat) cs ->
  Forall (fun c => g c = k') part ->
  StronglySorted le (map g (cs ++ part)) /\ Forall (fun c => (g c <= k')%nat) (cs ++ part).
Proof.
  intros Hk [Hs Hb] Hp. split.
  - rewrite map_app. induction cs as [|c cs IH]; simpl.
    + induction Hp as [|p part Hp Hpart IHp]; simpl; constructor; [done|].
      apply Forall_fmap. eapply Forall_impl; [exact Hpart|].
      intros y Hy. simpl. rewrite Hp, Hy. done.
    + simpl in Hs. apply StronglySorted_inv in Hs as [Hs Hc].
      apply Forall_cons in Hb as [Hb1 Hb2].
      constructor; [by apply IH|].
      apply Forall_app. split; [done|].
      apply Forall_fmap. eapply Forall_impl; [exact Hp|].
      intros y Hy. simpl. rewrite Hy. lia.
  - apply Forall_app. split.
    + eapply Forall_impl; [exact Hb|]. simpl. lia.
    + eapply Forall_impl; [exact Hp|]. simpl. lia.
Qed.

(** The cases of one pass of the first attribute loop: the new object has
    an own entry with the same value, an own entry with another value, only
    an inherited member, or nothing under the key. *)
Ltac old_entry_cases k v newAttrs :=
  unfold attrHas;
  let w := fresh "w" in
  let E := fresh "E" in
  let Ei := fresh "Ei" in
  let Hne := fresh "Hne" in
  destruct (attrGet k newAttrs) as [w|] eqn:E; cbn [negb];
  [ destruct (String.eqb_spec w v) as [->|Hne]
  | destruct (inheritsKey k) eqn:Ei; cbn [negb] ].

Lemma removedOrChanged_group (oldEntries newAttrs : list (string * string)) :
  Forall (fun c => emittedGroup c = 1%nat) (removedOrChanged oldEntries newAttrs).
Proof.
  induction oldEntries as [|[k v] r IH]; cbn [removedOrChanged]; [constructor|].
  old_entry_cases k v newAttrs; try done; by constructor.
Qed.

Lemma addedAttributes_group (newEntries oldAttrs : list (string * string)) :
  Forall (fun c => emittedGroup c = 2%nat) (addedAttributes newEntries oldAttrs).
Proof.
  induction newEntries as [|[k v] r IH]; simpl; [constructor|].
  destruct (attrHas k oldAttrs); [done|]. by constructor.
Qed.

Lemma removedOrChanged_keys (oldEntries newAttrs : list (string * string)) :
  sublist (omap removedOrChangedKey (removedOrChanged oldEntries newAttrs))
    (map fst oldEntries).
Proof.
  induction oldEntries as [|[k v] r IH]; cbn [removedOrChanged]; [constructor|].
  old_entry_cases k v newAttrs; simpl; by constructor.
Qed.

Lemma removedOrChanged_no_added (oldEntries newAttrs : list (string * string)) :
  omap addedKey (removedOrChanged oldEntries newAttrs) = [].
Proof.
  induction oldEntries as [|[k v] r IH]; cbn [removedOrChanged]; [done|].
  old_entry_cases k v newAttrs; done.
Qed.

Lemma addedAttributes_keys (newEntries oldAttrs : list (string * string)) :
  sublist (omap addedKey (addedAttributes newEntries oldAttrs)) (map fst newEntries).
Proof.
  induction newEntries as [|[k v] r IH]; simpl; [constructor|].
  destruct (attrHas k oldAttrs); simpl; by constructor.
Qed.

Lemma addedAttributes_no_removed (newEntries oldAttrs : list (string * string)) :
  omap removedOrChangedKey (addedAttributes newEntries oldAttrs) = [].
Proof.
  induction newEntries as [|[k v] r IH]; simpl; [done|].
  destruct (attrHas k oldAttrs); done.
Qed.

Lemma removedOrChanged_removed (oldEntries newAttrs : list (string * string))
    (k v : string) :
  AttributeRemoved k v ∈ removedOrChanged oldEntries newAttrs
  <-> (k, v) ∈ oldEntries /\ attrGet k newAttrs = None /\ inheritsKey k = false.
Proof.
  induction oldEntries as [|[k' v'] r IH]; cbn [removedOrChanged].
  - split; [intros H; inversion H|intros [H _]; inversion H].
  - old_entry_cases k' v' newAttrs; rewrite !elem_of_cons, IH;
      intuition (simplify_eq; try congruence; eauto).
Qed.

Lemma removedOrChanged_changed (oldEntries newAttrs : list (string * string))
    (k v w : string) :
  AttributeChanged k v w ∈ removedOrChanged oldEntries newAttrs
  <-> (k, v) ∈ oldEntries /\
      ((attrGet k newAttrs = Some w /\ w <> v) \/
       (attrGet k newAttrs = None /\ inheritsKey k = true /\ w = inheritedText k)).
Proof.
  induction oldEntries as [|[k' v'] r IH]; cbn [removedOrChanged].
  - split; [intros H; inversion H|intros [H _]; inversion H].
  - old_entry_cases k' v' newAttrs; rewrite !elem_of_cons, IH;
      intuition (simplify_eq; try congruence; eauto).
Qed.

Lemma addedAttributes_added (newEntries oldAttrs : list (string * string))
    (k v : string) :
  AttributeAdded k v ∈ addedAttributes newEntries oldAttrs
  <-> (k, v) ∈ newEntries /\ attrGet k oldAttrs = None /\ inheritsKey k = false.
Proof.
  induction newEntries as [|[k' v'] r IH]; simpl.
  - split; [intros H; inversion H|intros [H _]; inversion H].
  - unfold attrHas. destruct (attrGet k' oldAttrs) as [w|] eqn:E;
      [|destruct (inheritsKey k') eqn:Ei]; rewrite !elem_of_cons, IH;
      intuition (simplify_eq; try congruence; eauto).
Qed.

Lemma not_in_group (g : nat) (part : list ElementChange) (c : ElementChange) :
  Forall (fun c' => emittedGroup c' = g) part -> emittedGroup c <> g -> c ∉ part.
Proof.
  intros Hp Hc Hin. rewrite Forall_forall in Hp. by apply Hc, Hp.
Qed.

(** The detector's output, piece by piece. *)
Lemma elementChanges_pieces (oldElem newElem : DOMElementNode) :
  elementChanges oldElem newElem
  = ((((tagPart oldElem newElem
          ++ removedOrChanged (attributes oldElem) (attributes newElem))
         ++ addedAttributes (attributes newElem) (attributes oldElem))
        ++ visibilityPart oldElem newElem)
       ++ interactivityPart oldElem newElem)
      ++ positionPart oldElem newElem.
Proof.
  unfold elementChanges, tagPart, visibilityPart, interactivityPart, positionPart.
  destruct (negb (String.eqb (tagName oldElem) (tagName newElem)));
    destruct (negb (Bool.eqb (isVisible oldElem) (isVisible newElem)));
    destruct (negb (Bool.eqb (isInteractive oldElem) (isInteractive newElem)));
    destruct (viewportCoordinates oldElem) as [[ox oy]|];
    destruct (viewportCoordinates newElem) as [[nx ny]|];
    try destruct (negb (ox =? nx)%float || negb (oy =? ny)%float);
    simpl; rewrite ?app_nil_r; reflexivity.
Qed.

Lemma tagPart_group (oldElem newElem : DOMElementNode) :
  Forall (fun c => emittedGroup c = 0%nat) (tagPart oldElem newElem).
Proof. unfold tagPart. destruct (negb _); repeat constructor. Qed.

Lemma visibilityPart_group (oldElem newElem : DOMElementNode) :
  Forall (fun c => emittedGroup c = 3%nat) (visibilityPart oldElem newElem).
Proof. unfold visibilityPart. destruct (negb _); repeat constructor. Qed.

Lemma interactivityPart_group (oldElem newElem : DOMElementNode) :
  Forall (fun c => emittedGroup c = 4%nat) (interactivityPart oldElem newElem).
Proof. unfold interactivityPart. destruct (negb _); repeat constructor. Qed.

Lemma positionPart_group (oldElem newElem : DOMElementNode) :
  Forall (fun c => emittedGroup c = 5%nat) (positionPart oldElem newElem).
Proof.
  unfold positionPart.
  destruct (viewportCoordinates oldElem) as [[ox oy]|];
    destruct (viewportCoordinates newElem) as [[nx ny]|];
    try destruct (negb (ox =? nx)%float || negb (oy =? ny)%float); repeat constructor.
Qed.

Lemma tagPart_elem (oldElem newElem : DOMElementNode) (o n : string) :
  TagChanged o n ∈ tagPart oldElem newElem
  <-> o = tagName oldElem /\ n = tagName newElem /\ o <> n.
Proof.
  unfold tagPart. destruct (String.eqb_spec (tagName oldElem) (tagName newElem)) as [E|Hne];
    cbn [negb].
  - split; [intros H; inversion H|]. intros (-> & -> & H). done.
  - rewrite list_elem_of_singleton. split; [by intros [= -> ->]|by intros (-> & -> & _)].
Qed.

Lemma visibilityPart_elem (oldElem newElem : DOMElementNode) (o n : bool) :
  VisibilityChanged o n ∈ visibilityPart oldElem newElem
  <-> o = isVisible oldElem /\ n = isVisible newElem /\ o <> n.
Proof.
  unfold visibilityPart. destruct (isVisible oldElem), (isVisible newElem); cbn;
    rewrite ?list_elem_of_singleton;
    (split; [intros H; try (by inversion H); by injection H as -> ->
            |intros (-> & -> & H); done]).
Qed.

Lemma interactivityPart_elem (oldElem newElem : DOMElementNode) (o n : bool) :
  InteractivityChanged o n ∈ interactivityPart oldElem newElem
  <-> o = isInteractive oldElem /\ n = isInteractive newElem /\ o <> n.
Proof.
  unfold interactivityPart. destruct (isInteractive oldElem), (isInteractive newElem); cbn;
    rewrite ?list_elem_of_singleton;
    (split; [intros H; try (by inversion H); by injection H as -> ->
            |intros (-> & -> & H); done]).
Qed.

Lemma positionPart_elem (oldElem newElem : DOMElementNode) (ox oy nx ny : float) :
  PositionChanged ox oy nx ny ∈ positionPart oldElem newElem
  <-> viewportCoordinates oldElem = Some (ox, oy) /\
      viewportCoordinates newElem = Some (nx, ny) /\
      ((ox =? nx)%float = false \/ (oy =? ny)%float = false).
Proof.
  unfold positionPart.
  destruct (viewportCoordinates oldElem) as [[ox' oy']|];
    destruct (viewportCoordinates newElem) as [[nx' ny']|];
    try (split; [intros H; inversion H|intros (? & ? & _); discriminate]).
  destruct (ox' =? nx')%float eqn:Ex; destruct (oy' =? ny')%float eqn:Ey; cbn;
    rewrite ?list_elem_of_singleton;
    (split;
     [ intros H; try (by inversion H); injection H as -> -> -> ->;
       repeat split; by auto
     | intros ([= -> ->] & [= -> ->] & [H|H]); congruence ]).
Qed.

Lemma omap_none_group (f : ElementChange -> option string) (k : nat)
    (cs : list ElementChange) :
  (forall c, emittedGroup c = k -> f c = None) ->
  Forall (fun c => emittedGroup c = k) cs -> omap f cs = [].
Proof.
  intros Hf. induction 1 as [|c cs Hc _ IH]; simpl; [done|].
  by rewrite (Hf c Hc).
Qed.

Lemma groupCount_app (g : nat) (xs ys : list ElementChange) :
  groupCount g (xs ++ ys) = (groupCount g xs + groupCount g ys)%nat.
Proof. unfold groupCount. by rewrite List.filter_app, length_app. Qed.

Lemma groupCount_other (g k : nat) (cs : list ElementChange) :
  Forall (fun c => emittedGroup c = k) cs -> g <> k -> groupCount g cs = 0%nat.
Proof.
  intros Hall Hne. unfold groupCount. induction Hall as [|c cs Hc _ IH]; simpl; [done|].
  rewrite Hc. destruct (Nat.eqb_spec k g) as [->|_]; [done|exact IH].
Qed.

Lemma groupCount_length (g : nat) (cs : list ElementChange) :
  (groupCount g cs <= length cs)%nat.
Proof. apply filter_length_le. Qed.

Lemma tagPart_length (oldElem newElem : DOMElementNode) :
  (length (tagPart oldElem newElem) <= 1)%nat.
Proof. unfold tagPart. destruct (negb _); simpl; lia. Qed.

Lemma visibilityPart_length (oldElem newElem : DOMElementNode) :
  (length (visibilityPart oldElem newElem) <= 1)%nat.
Proof. unfold visibilityPart. destruct (negb _); simpl; lia. Qed.

Lemma interactivityPart_length (oldElem newElem : DOMElementNode) :
  (length (interactivityPart oldElem newElem) <= 1)%nat.
Proof. unfold interactivityPart. destruct (negb _); simpl; lia. Qed.

Lemma positionPart_length (oldElem newElem : DOMElementNode) :
  (length (positionPart oldElem newElem) <= 1)%nat.
Proof.
  unfold positionPart.
  destruct (viewportCoordinates oldElem) as [[ox oy]|];
    destruct (viewportCoordinates newElem) as [[nx ny]|];
    try destruct (negb (ox =? nx)%float || negb (oy =? ny)%float); simpl; lia.
Qed.

(** Membership in the detector's output is membership in the piece of the
    descriptor's own group. *)
Lemma elementChanges_elem (oldElem newElem : DOMElementNode) (c : ElementChange) :
  c ∈ elementChanges oldElem newElem
  <-> match emittedGroup c with
      | 0 => c ∈ tagPart oldElem newElem
      | 1 => c ∈ removedOrChanged (attributes oldElem) (attributes newElem)
      | 2 => c ∈ addedAttributes (attributes newElem) (attributes oldElem)
      | 3 => c ∈ visibilityPart oldElem newElem
      | 4 => c ∈ interactivityPart oldElem newElem
      | _ => c ∈ positionPart oldElem newElem
      end.
Proof.
  rewrite elementChanges_pieces, !elem_of_app.
  pose proof (not_in_group 0 _ c (tagPart_group oldElem newElem)).
  pose proof (not_in_group 1 _ c
                (removedOrChanged_group (attributes oldElem) (attributes newElem))).
  pose proof (not_in_group 2 _ c
                (addedAttributes_group (attributes newElem) (attributes oldElem))).
  pose proof (not_in_group 3 _ c (visibilityPart_group oldElem newElem)).
  pose proof (not_in_group 4 _ c (interactivityPart_group oldElem newElem)).
  pose proof (not_in_group 5 _ c (positionPart_group oldElem newElem)).
  destruct c; simpl in *; intuition (auto; lia).
Qed.

(** C6, as the detector emits it: the texts it returns describe, one by
    one, a list of changes that comes grouped as tag,
    then removed-or-changed attributes, then added attributes, then
    visibility, interactivity and position.  The tag, the visibility, the
    interactivity and the position each give one descriptor exactly when
    the two nodes differ in it, with the old and the new value.  The removed
    and the changed descriptors share one group: they follow the
    enumeration order of the old attributes, at most one per old entry, and
    the added descriptors follow the enumeration order of the new
    attributes.  An old entry is reported removed exactly when the new
    object has nothing under its key, changed exactly when the new object
    has another value under it, be it an entry of its own or a member it
    inherits, and a new entry is reported added exactly when the old object
    has nothing under its key. *)
Theorem change_descriptor_order (oldElem newElem : DOMElementNode) :
  detectElementChanges oldElem newElem = map describe (elementChanges oldElem newElem) /\
  StronglySorted le (map emittedGroup (elementChanges oldElem newElem)) /\
  (forall o n,
     TagChanged o n ∈ elementChanges oldElem newElem
     <-> o = tagName oldElem /\ n = tagName newElem /\ o <> n) /\
  sublist (omap removedOrChangedKey (elementChanges oldElem newElem))
    (map fst (attributes oldElem)) /\
  sublist (omap addedKey (elementChanges oldElem newElem))
    (map fst (attributes newElem)) /\
  (forall k v,
     AttributeRemoved k v ∈ elementChanges oldElem newElem
     <-> (k, v) ∈ attributes oldElem /\
         attrGet k (attributes newElem) = None /\ inheritsKey k = false) /\
  (forall k v w,
     AttributeChanged k v w ∈ elementChanges oldElem newElem
     <-> (k, v) ∈ attributes oldElem /\
         ((attrGet k (attributes newElem) = Some w /\ w <> v) \/
          (attrGet k (attributes newElem) = None /\ inheritsKey k = true /\
           w = inheritedText k))) /\
  (forall k v,
     AttributeAdded k v ∈ elementChanges oldElem newElem
     <-> (k, v) ∈ attributes newElem /\
         attrGet k (attributes oldElem) = None /\ inheritsKey k = false) /\
  (forall o n,
     VisibilityChanged o n ∈ elementChanges oldElem newElem
     <-> o = isVisible oldElem /\ n = isVisible newElem /\ o <> n) /\
  (forall o n,
     InteractivityChanged o n ∈ elementChanges oldElem newElem
     <-> o = isInteractive oldElem /\ n = isInteractive newElem /\ o <> n) /\
  (forall ox oy nx ny,
     PositionChanged ox oy nx ny ∈ elementChanges oldElem newElem
     <-> viewportCoordinates oldElem = Some (ox, oy) /\
         viewportCoordinates newElem = Some (nx, ny) /\
         ((ox =? nx)%float = false \/ (oy =? ny)%float = false)) /\
  (groupCount 0 (elementChanges oldElem newElem) <= 1)%nat /\
  (groupCount 3 (elementChanges oldElem newElem) <= 1)%nat /\
  (groupCount 4 (elementChanges oldElem newElem) <= 1)%nat /\
  (groupCount 5 (elementChanges oldElem newElem) <= 1)%nat.
Proof.
  pose proof (tagPart_group oldElem newElem) as Ht.
  pose proof (removedOrChanged_group (attributes oldElem) (attributes newElem)) as Hrc.
  pose proof (addedAttributes_group (attributes newElem) (attributes oldElem)) as Had.
  pose proof (visibilityPart_group oldElem newElem) as Hv.
  pose proof (interactivityPart_group oldElem newElem) as Ha.
  pose proof (positionPart_group oldElem newElem) as Hp.
  assert (Hcount : forall g,
            groupCount g (elementChanges oldElem newElem)
            = (groupCount g (tagPart oldElem newElem)
               + groupCount g (removedOrChanged (attributes oldElem) (attributes newElem))
               + groupCount g (addedAttributes (attributes newElem) (attributes oldElem))
               + groupCount g (visibilityPart oldElem newElem)
               + groupCount g (interactivityPart oldElem newElem)
               + groupCount g (positionPart oldElem newElem))%nat).
  { intros g. by rewrite elementChanges_pieces, !groupCount_app. }
  split; [reflexivity|].
  split; [|split; [|split; [|split; [|split; [|split; [|split; [|split; [|split;
    [|split; [|split; [|split; [|split]]]]]]]]]]]].
  - rewrite elementChanges_pieces.
    refine (proj1 (sorted_snoc_group emittedGroup 4 5 _ _ _ _ Hp)); [lia|].
    refine (sorted_snoc_group emittedGroup 3 4 _ _ _ _ Ha); [lia|].
    refine (sorted_snoc_group emittedGroup 2 3 _ _ _ _ Hv); [lia|].
    refine (sorted_snoc_group emittedGroup 1 2 _ _ _ _ Had); [lia|].
    refine (sorted_snoc_group emittedGroup 0 1 _ _ _ _ Hrc); [lia|].
    rewrite <- (app_nil_l (tagPart oldElem newElem)).
    refine (sorted_snoc_group emittedGroup 0 0 [] _ _ _ Ht); [lia|].
    split; constructor.
  - intros o n. rewrite elementChanges_elem. apply tagPart_elem.
  - rewrite elementChanges_pieces, !omap_app.
    rewrite (omap_none_group removedOrChangedKey 0 (tagPart oldElem newElem)),
      (omap_none_group removedOrChangedKey 3 (visibilityPart oldElem newElem)),
      (omap_none_group removedOrChangedKey 4 (interactivityPart oldElem newElem)),
      (omap_none_group removedOrChangedKey 5 (positionPart oldElem newElem)),
      addedAttributes_no_removed; try done; try (by intros []).
    rewrite !app_nil_r. apply removedOrChanged_keys.
  - rewrite elementChanges_pieces, !omap_app.
    rewrite (omap_none_group addedKey 0 (tagPart oldElem newElem)),
      (omap_none_group addedKey 3 (visibilityPart oldElem newElem)),
      (omap_none_group addedKey 4 (interactivityPart oldElem newElem)),
      (omap_none_group addedKey 5 (positionPart oldElem newElem)),
      removedOrChanged_no_added; try done; try (by intros []).
    rewrite !app_nil_r. apply addedAttributes_keys.
  - intros k v. rewrite elementChanges_elem. apply removedOrChanged_removed.
  - intros k v w. rewrite elementChanges_elem. apply removedOrChanged_changed.
  - intros k v. rewrite elementChanges_elem. apply addedAttributes_added.
  - intros o n. rewrite elementChanges_elem. apply visibilityPart_elem.
  - intros o n. rewrite elementChanges_elem. apply interactivityPart_elem.
  - intros ox oy nx ny. rewrite elementChanges_elem. apply positionPart_elem.
  - rewrite Hcount.
    rewrite (groupCount_other 0 1 _ Hrc), (groupCount_other 0 2 _ Had),
      (groupCount_other 0 3 _ Hv), (groupCount_other 0 4 _ Ha),
      (groupCount_other 0 5 _ Hp) by lia.
    pose proof (groupCount_length 0 (tagPart oldElem newElem)).
    pose proof (tagPart_length oldElem newElem). lia.
  - rewrite Hcount.
    rewrite (groupCount_other 3 0 _ Ht), (groupCount_other 3 1 _ Hrc),
      (groupCount_other 3 2 _ Had), (groupCount_other 3 4 _ Ha),
      (groupCount_other 3 5 _ Hp) by lia.
    pose proof (groupCount_length 3 (visibilityPart oldElem newElem)).
    pose proof (visibilityPart_length oldElem newElem). lia.
  - rewrite Hcount.
    rewrite (groupCount_other 4 0 _ Ht), (groupCount_other 4 1 _ Hrc),
      (groupCount_other 4 2 _ Had), (groupCount_other 4 3 _ Hv),
      (groupCount_other 4 5 _ Hp) by lia.
    pose proof (groupCount_length 4 (interactivityPart oldElem newElem)).
    pose proof (interactivityPart_length oldElem newElem). lia.
  - rewrite Hcount.
    rewrite (groupCount_other 5 0 _ Ht), (groupCount_other 5 1 _ Hrc),
      (groupCount_other 5 2 _ Had), (groupCount_other 5 3 _ Hv),
      (groupCount_other 5 4 _ Ha) by lia.
    pose proof (groupCount_length 5 (positionPart oldElem newElem)).
    pose proof (positionPart_length oldElem newElem). lia.
Qed.

(** C6, as listed: the listed order puts every removal before every value
    change, but the detector reports them key by key. *)
Lemma change_descriptor_order_counterexample :
  elementChanges twoAttrs oneAttr
  = [AttributeChanged "a" "1" "9"; AttributeRemoved "b" "2"] /\
  ~ StronglySorted le (map listedGroup (elementChanges twoAttrs oneAttr)).
Proof.
  split; [reflexivity|].
  intros H. vm_compute in H. apply StronglySorted_inv in H as [_ H].
  apply Forall_cons in H as [H _]. lia.
Qed.

(** A pair that differs in every facet: the seven kinds of descriptors in
    the order of their checks, the changed attribute before the removed
    one. *)
Example one_descriptor_of_each_kind :
  detectElementChanges everyFacetOld everyFacetNew
  = ["标签从 div 变为 span";
     "属性 a 从 " ++ quote ++ "1" ++ quote ++ " 变为 " ++ quote ++ "9" ++ quote;
     "属性 b=" ++ quote ++ "2" ++ quote ++ " 被移除";
     "新增属性 c=" ++ quote ++ "3" ++ quote;
     "可见性从 true 变为 false";
     "交互性从 false 变为 true";
     "位置从 (1, 2) 变为 (1, 2.5)"]%string.
Proof. vm_compute. reflexivity. Qed.

(** The [in] test looks through the prototype: an old entry named like a
    member of [Object.prototype] is never reported removed, and a new one
    is never reported added. *)
Example inherited_keys_pass_the_in_test :
  detectElementChanges shadowingDiv bareDiv
  = ["属性 constructor 从 " ++ quote ++ "x" ++ quote ++ " 变为 " ++ quote
       ++ "function Object() { [native code] }" ++ quote]%string /\
  detectElementChanges bareDiv shadowingDiv = [].
Proof. split; reflexivity. Qed.

(** A centre that is not a number differs from itself. *)
Example position_without_a_number :
  detectElementChanges adriftDiv adriftDiv = ["位置从 (NaN, 0.1) 变为 (NaN, 0.1)"].
Proof. vm_compute. reflexivity. Qed.

(** ** Trees *)

(** Structural induction on a tree: a property holds of a node as soon as
    it holds of its element children. *)
Lemma DOMElementNode_tree_ind (P : DOMElementNode -> Prop) :
  (forall e, Forall P (elementChildren (children e)) -> P e) ->
  forall e, P e.
Proof.
  intros step. fix rec 1. intros e. apply step.
  destruct e as [r t x a cs v i c]. simpl.
  induction cs as [|[txt|child] cs IH]; simpl.
  - constructor.
  - exact IH.
  - constructor; [apply rec|exact IH].
Qed.

Lemma elementsOf_unfold (e : DOMElementNode) :
  elementsOf e = e :: elementsOfChildren (children e).
Proof.
  destruct e as [r t x a cs v i c]. unfold elementsOfChildren. simpl. f_equal.
  induction cs as [|[txt|child] cs IH]; simpl; [done|done|by rewrite IH].
Qed.

Lemma elementsOfChildren_text (txt : string) (cs : list DOMBaseNode) :
  elementsOfChildren (DOMTextNode txt :: cs) = elementsOfChildren cs.
Proof. reflexivity. Qed.

Lemma elementsOfChildren_element (c : DOMElementNode) (cs : list DOMBaseNode) :
  elementsOfChildren (DOMElement c :: cs) = elementsOf c ++ elementsOfChildren cs.
Proof. reflexivity. Qed.

Lemma elementsOf_root (e : DOMElementNode) : e ∈ elementsOf e.
Proof. rewrite elementsOf_unfold. left. Qed.

Lemma elementsOf_flat_map (b : DOMElementNode) (news : list DOMElementNode) :
  b ∈ news -> forall x, x ∈ elementsOf b -> x ∈ flat_map elementsOf news.
Proof.
  intros Hb x Hx. apply list_elem_of_In, in_flat_map. exists b.
  split; by apply list_elem_of_In.
Qed.

Lemma compareNodes_unfold {H : Type} (convert : DOMElementNode -> H)
    (compare : H -> DOMElementNode -> bool) (oldNode newNode : DOMElementNode)
    (st : DiffState) :
  compareNodes H convert compare oldNode newNode st
  = compareChildNodesWith (compareNodes H convert compare)
      (elementChildren (children newNode)) (children oldNode)
      (classifyPair H convert compare oldNode newNode st).
Proof. destruct oldNode; reflexivity. Qed.

Lemma findRemovedElements_unfold (node : DOMElementNode) (st : gset nat * DOMDiffResult) :
  findRemovedElements node st
  = forEachElementChild findRemovedElements (children node)
      (if decide (ref node ∈ fst st) then st
       else ({[ref node]} ∪ fst st, pushRemoved node (snd st))).
Proof. destruct node; reflexivity. Qed.

Lemma findAddedElements_unfold (node : DOMElementNode) (st : gset nat * DOMDiffResult) :
  findAddedElements node st
  = forEachElementChild findAddedElements (children node)
      (if decide (ref node ∈ fst st) then st
       else ({[ref node]} ∪ fst st, pushAdded node (snd st))).
Proof. destruct node; reflexivity. Qed.

(** Iterating over the children and skipping the text nodes is iterating
    over the filtered children. *)
Lemma compareChildNodesWith_filter
    (compareNodes : DOMElementNode -> DOMElementNode -> DiffState -> DiffState)
    (news : list DOMElementNode) (olds : list DOMBaseNode) (st : DiffState) :
  compareChildNodesWith compareNodes news olds st
  = compareChildNodesWith compareNodes news (map DOMElement (elementChildren olds)) st.
Proof.
  revert st. induction olds as [|[txt|c] olds IH]; intros st; simpl; [done|done|].
  destruct (decide (ref c ∈ processedOldElements st)); [done|].
  by destruct (acceptedMatch _).
Qed.

Lemma compareNodes_children {H : Type} (convert : DOMElementNode -> H)
    (compare : H -> DOMElementNode -> bool) (oldNode newNode : DOMElementNode)
    (st : DiffState) :
  compareNodes H convert compare oldNode newNode st
  = compareChildNodes H convert compare oldNode newNode
      (classifyPair H convert compare oldNode newNode st).
Proof. apply compareNodes_unfold. Qed.

(** ** Alignments compose *)

Section Alignment.

Variable identical : DOMElementNode -> DOMElementNode -> bool.

Lemma unchangedOf_app (p q : list (DOMElementNode * DOMElementNode)) :
  unchangedOf identical (p ++ q) = unchangedOf identical p ++ unchangedOf identical q.
Proof. unfold unchangedOf. by rewrite List.filter_app, map_app. Qed.

Lemma modifiedOf_app (p q : list (DOMElementNode * DOMElementNode)) :
  modifiedOf identical (p ++ q) = modifiedOf identical p ++ modifiedOf identical q.
Proof. unfold modifiedOf. by rewrite List.filter_app, map_app. Qed.

Lemma recordPairs_app (p q : list (DOMElementNode * DOMElementNode)) (r : DOMDiffResult) :
  recordPairs identical (p ++ q) r = recordPairs identical q (recordPairs identical p r).
Proof.
  unfold recordPairs. simpl. by rewrite unchangedOf_app, modifiedOf_app, !app_assoc.
Qed.

Lemma alignment_nil (olds news : list DOMElementNode) (st : DiffState) :
  alignment identical olds news st st [].
Proof.
  split; simpl; try constructor; try set_solver.
  destruct st as [[a r m u] po pn]. unfold recordPairs. simpl.
  by rewrite !app_nil_r.
Qed.

Lemma alignment_weaken (olds news olds' news' : list DOMElementNode)
    (st st' : DiffState) (pairs : list (DOMElementNode * DOMElementNode)) :
  (forall x, x ∈ olds -> x ∈ olds') ->
  (forall x, x ∈ news -> x ∈ news') ->
  alignment identical olds news st st' pairs ->
  alignment identical olds' news' st st' pairs.
Proof.
  intros Ho Hn [? ? ? ? ? ? Hfrom]. split; try done.
  eapply Forall_impl; [exact Hfrom|]. intros p [? ?]. split; auto.
Qed.

Lemma alignment_app (olds news : list DOMElementNode) (st st' st'' : DiffState)
    (p q : list (DOMElementNode * DOMElementNode)) :
  alignment identical olds news st st' p ->
  alignment identical olds news st' st'' q ->
  alignment identical olds news st st'' (p ++ q).
Proof.
  intros [Hr1 Ho1 Hn1 Hu1 Hv1 Hf1 Hm1] [Hr2 Ho2 Hn2 Hu2 Hv2 Hf2 Hm2].
  split.
  - by rewrite Hr2, Hr1, recordPairs_app.
  - rewrite Ho2, Ho1, map_app, list_to_set_app_L. set_solver.
  - rewrite Hn2, Hn1, map_app, list_to_set_app_L. set_solver.
  - rewrite map_app. apply NoDup_app. split; [done|]. split; [|done].
    intros x Hx Hx'. apply list_elem_of_fmap in Hx' as (y & -> & Hy).
    rewrite Forall_forall in Hf2. destruct (Hf2 y Hy) as [Hfresh _].
    apply Hfresh. rewrite Ho1. set_solver.
  - rewrite map_app. apply NoDup_app. split; [done|]. split; [|done].
    intros x Hx Hx'. apply list_elem_of_fmap in Hx' as (y & -> & Hy).
    rewrite Forall_forall in Hf2. destruct (Hf2 y Hy) as [_ Hfresh].
    apply Hfresh. rewrite Hn1. set_solver.
  - apply Forall_app. split; [done|].
    eapply Forall_impl; [exact Hf2|]. intros y [? ?].
    rewrite Ho1, Hn1 in *. set_solver.
  - apply Forall_app. by split.
Qed.

End Alignment.

(** ** The matcher aligns unprocessed nodes only *)

Section MatcherFacts.

Context {DOMHistoryElement : Type}.
Variable convert : DOMElementNode -> DOMHistoryElement.
Variable compare : DOMHistoryElement -> DOMElementNode -> bool.

Abbreviation identical := (identicalNodes DOMHistoryElement convert compare).
Abbreviation classify := (classifyPair DOMHistoryElement convert compare).
Abbreviation matchNodes := (compareNodes DOMHistoryElement convert compare).
Abbreviation diffTrees := (compareDOMTrees DOMHistoryElement convert compare).

Lemma classifyPair_alignment (oldNode newNode : DOMElementNode) (st : DiffState) :
  ref oldNode ∉ processedOldElements st ->
  ref newNode ∉ processedNewElements st ->
  alignment identical [oldNode] [newNode] st (classify oldNode newNode st)
    [(oldNode, newNode)].
Proof.
  intros Ho Hn. unfold classifyPair.
  split; simpl; try (repeat constructor; set_solver).
  - unfold recordPairs, unchangedOf, modifiedOf. simpl.
    destruct (identical oldNode newNode); simpl; unfold pushUnchanged, pushModified;
      by rewrite app_nil_r.
  - destruct (identical oldNode newNode); simpl; set_solver.
  - destruct (identical oldNode newNode); simpl; set_solver.
Qed.

Lemma compareChildNodesWith_alignment (news : list DOMElementNode)
    (olds : list DOMBaseNode) :
  Forall (alignsPair identical matchNodes) (elementChildren olds) ->
  forall st : DiffState,
  exists pairs,
    alignment identical (elementsOfChildren olds) (flat_map elementsOf news) st
      (compareChildNodesWith matchNodes news olds st) pairs /\
    Forall aboveThreshold pairs.
Proof.
  induction olds as [|[txt|oldChild] olds IH]; intros Hkids st.
  - exists []. split; [apply alignment_nil|constructor].
  - simpl. apply IH. exact Hkids.
  - simpl in Hkids. apply Forall_cons in Hkids as [Hchild Hkids].
    specialize (IH Hkids).
    assert (Hskip : exists pairs,
      alignment identical (elementsOfChildren (DOMElement oldChild :: olds))
        (flat_map elementsOf news) st
        (compareChildNodesWith matchNodes news olds st) pairs /\
      Forall aboveThreshold pairs).
    { destruct (IH st) as (pairs & Hp & Hs). exists pairs. split; [|done].
      eapply alignment_weaken; [| |exact Hp]; [|done].
      intros x Hx. rewrite elementsOfChildren_element. set_solver. }
    simpl. destruct (decide (ref oldChild ∈ processedOldElements st)) as [|Hfresh];
      [exact Hskip|].
    destruct (acceptedMatch (findBestMatch oldChild (processedNewElements st) news))
      as [bestMatch|] eqn:Hbest; [|exact Hskip].
    apply acceptedMatch_some in Hbest as (Hin & Hnew & Habove).
    destruct (Hchild bestMatch st Hfresh Hnew) as (p & Hp & Hps).
    destruct (IH (matchNodes oldChild bestMatch st)) as (q & Hq & Hqs).
    exists (((oldChild, bestMatch) :: p) ++ q). split.
    + eapply alignment_app.
      * eapply alignment_weaken; [| |exact Hp].
        -- intros x Hx. rewrite elementsOfChildren_element. set_solver.
        -- by apply elementsOf_flat_map.
      * eapply alignment_weaken; [| |exact Hq]; [|done].
        intros x Hx. rewrite elementsOfChildren_element. set_solver.
    + apply Forall_app. split; [by apply Forall_cons|done].
Qed.

Lemma compareNodes_alignment (oldNode : DOMElementNode) :
alignsPair identical matchNodes oldNode.
Proof.
  induction oldNode as [oldNode IH] using DOMElementNode_tree_ind.
  intros newNode st Ho Hn. rewrite compareNodes_unfold.
  destruct (compareChildNodesWith_alignment (elementChildren (children newNode))
              (children oldNode) IH (classify oldNode newNode st)) as (pairs & Hp & Hs).
  exists pairs. split; [|done].
  change ((oldNode, newNode) :: pairs) with ([(oldNode, newNode)] ++ pairs).
  eapply alignment_app.
  - eapply alignment_weaken; [| |by apply classifyPair_alignment].
    + intros x ->%list_elem_of_singleton. apply elementsOf_root.
    + intros x ->%list_elem_of_singleton. apply elementsOf_root.
  - eapply alignment_weaken; [| |exact Hp].
    + intros x Hx. rewrite elementsOf_unfold. by right.
    + intros x Hx. rewrite elementsOf_unfold. by right.
Qed.

End MatcherFacts.

(** ** The sweeps collect what is left *)

Section Sweep.

Variable push : DOMElementNode -> DOMDiffResult -> DOMDiffResult.
Variable visit : DOMElementNode -> gset nat * DOMDiffResult -> gset nat * DOMDiffResult.
Hypothesis visit_unfold : forall node st,
  visit node st
  = forEachElementChild visit (children node)
      (if decide (ref node ∈ fst st) then st
       else ({[ref node]} ∪ fst st, push node (snd st))).

Lemma sweepOutcome_children (cs : list DOMBaseNode) :
  Forall (fun c => forall p r, sweepOutcome push (elementsOf c) p r (visit c (p, r)))
    (elementChildren cs) ->
  forall p r,
    sweepOutcome push (elementsOfChildren cs) p r (forEachElementChild visit cs (p, r)).
Proof.
  induction cs as [|[txt|c] cs IH]; intros Hkids p r.
  - exists []. simpl. repeat split; try constructor; [f_equal; set_solver|].
    intros e He. inversion He.
  - apply IH. exact Hkids.
  - simpl in Hkids. apply Forall_cons in Hkids as [Hc Hkids].
    destruct (Hc p r) as (f1 & E1 & Hd1 & Hf1 & Hall1).
    simpl. rewrite E1.
    destruct (IH Hkids (list_to_set (map ref f1) ∪ p) (pushAll push f1 r))
      as (f2 & E2 & Hd2 & Hf2 & Hall2).
    exists (f1 ++ f2). rewrite E2. repeat split.
    + unfold pushAll. rewrite fold_left_app, map_app, list_to_set_app_L.
      f_equal. set_solver.
    + rewrite map_app. apply NoDup_app. split; [done|]. split; [|done].
      intros x Hx Hx'. apply list_elem_of_fmap in Hx' as (y & -> & Hy).
      rewrite Forall_forall in Hf2. destruct (Hf2 y Hy) as [Hfresh _].
      apply Hfresh. set_solver.
    + apply Forall_app. split.
      * eapply Forall_impl; [exact Hf1|]. intros e [? ?]. split; [done|].
        rewrite elementsOfChildren_element. set_solver.
      * eapply Forall_impl; [exact Hf2|]. intros e [? ?]. split; [set_solver|].
        rewrite elementsOfChildren_element. set_solver.
    + intros e He. rewrite elementsOfChildren_element in He.
      rewrite map_app, list_to_set_app_L.
      apply elem_of_app in He as [He|He].
      * specialize (Hall1 e He). set_solver.
      * specialize (Hall2 e He). set_solver.
Qed.

Lemma sweepOutcome_node (node : DOMElementNode) :
  forall p r, sweepOutcome push (elementsOf node) p r (visit node (p, r)).
Proof.
  induction node as [node IH] using DOMElementNode_tree_ind.
  intros p r. rewrite visit_unfold. simpl.
  destruct (decide (ref node ∈ p)) as [Hin|Hout].
  - destruct (sweepOutcome_children (children node) IH p r)
      as (found & E & Hd & Hf & Hall).
    exists found. rewrite E. repeat split; try done.
    + eapply Forall_impl; [exact Hf|]. intros e [? ?]. split; [done|].
      rewrite elementsOf_unfold. by right.
    + intros e He. rewrite elementsOf_unfold in He.
      apply elem_of_cons in He as [->|He]; [set_solver|by apply Hall].
  - destruct (sweepOutcome_children (children node) IH ({[ref node]} ∪ p) (push node r))
      as (found & E & Hd & Hf & Hall).
    exists (node :: found). rewrite E. repeat split.
    + simpl. f_equal. set_solver.
    + simpl. apply NoDup_cons. split; [|done].
      intros Hx. apply list_elem_of_fmap in Hx as (y & Hy & Hin).
      rewrite Forall_forall in Hf. destruct (Hf y Hin) as [Hfresh _].
      apply Hfresh. set_solver.
    + apply Forall_cons. split; [split; [done|apply elementsOf_root]|].
      eapply Forall_impl; [exact Hf|]. intros e [? ?]. split; [set_solver|].
      rewrite elementsOf_unfold. by right.
    + intros e He. rewrite elementsOf_unfold in He. simpl.
      apply elem_of_cons in He as [->|He]; [set_solver|].
      specialize (Hall e He). set_solver.
Qed.

(** A sweep over a tree that is processed already changes nothing. *)
Lemma sweep_nothing_left (node : DOMElementNode) :
  forall p r, (forall e, e ∈ elementsOf node -> ref e ∈ p) -> visit node (p, r) = (p, r).
Proof.
  induction node as [node IH] using DOMElementNode_tree_ind.
  intros p r Hall. rewrite visit_unfold. simpl.
  destruct (decide (ref node ∈ p)) as [_|Hout];
    [|exfalso; apply Hout, Hall, elementsOf_root].
  assert (Hkids : forall e, e ∈ elementsOfChildren (children node) -> ref e ∈ p).
  { intros e He. apply Hall. rewrite elementsOf_unfold. by right. }
  clear Hall. induction (children node) as [|[txt|c] cs IHcs]; simpl; [done| |].
  - apply IHcs; done.
  - simpl in IH. apply Forall_cons in IH as [Hc IH].
    rewrite Hc.
    + apply IHcs; [done|]. intros e He. apply Hkids.
      rewrite elementsOfChildren_element. set_solver.
    + intros e He. apply Hkids. rewrite elementsOfChildren_element. set_solver.
Qed.

End Sweep.

(** ** Partition of a snapshot *)

Lemma pushAll_removed (found : list DOMElementNode) (r : DOMDiffResult) :
  pushAll pushRemoved found r
  = {| added := added r; removed := removed r ++ found; modified := modified r;
       unchanged := unchanged r |}.
Proof.
  unfold pushAll. revert r. induction found as [|e found IH]; intros r; simpl.
  - destruct r. simpl. by rewrite app_nil_r.
  - rewrite IH. unfold pushRemoved. simpl. by rewrite <- app_assoc.
Qed.

Lemma pushAll_added (found : list DOMElementNode) (r : DOMDiffResult) :
  pushAll pushAdded found r
  = {| added := added r ++ found; removed := removed r; modified := modified r;
       unchanged := unchanged r |}.
Proof.
  unfold pushAll. revert r. induction found as [|e found IH]; intros r; simpl.
  - destruct r. simpl. by rewrite app_nil_r.
  - rewrite IH. unfold pushAdded. simpl. by rewrite <- app_assoc.
Qed.

Lemma ref_determines_node (nodes : list DOMElementNode) (x y : DOMElementNode) :
  NoDup (map ref nodes) -> x ∈ nodes -> y ∈ nodes -> ref x = ref y -> x = y.
Proof.
  induction nodes as [|n nodes IH]; intros Hd Hx Hy E; [inversion Hx|].
  simpl in Hd. apply NoDup_cons in Hd as [Hn Hd].
  apply elem_of_cons in Hx as [->|Hx]; apply elem_of_cons in Hy as [->|Hy].
  - done.
  - exfalso. apply Hn. rewrite E. by apply list_elem_of_fmap_2.
  - exfalso. apply Hn. rewrite <- E. by apply list_elem_of_fmap_2.
  - by apply IH.
Qed.

(** The nodes a sweep found and the nodes matched before it make up the
    whole snapshot, each node once. *)
Lemma found_and_matched_partition (nodes found matchedNodes : list DOMElementNode)
    (p : gset nat) :
  NoDup (map ref nodes) ->
  NoDup (map ref found) ->
  NoDup (map ref matchedNodes) ->
  p = list_to_set (map ref matchedNodes) ->
  Forall (fun e => (ref e ∉ p) /\ e ∈ nodes) found ->
  Forall (fun e => e ∈ nodes) matchedNodes ->
  (forall e, e ∈ nodes -> ref e ∈ (list_to_set (map ref found) ∪ p : gset nat)) ->
  found ++ matchedNodes ≡ₚ nodes.
Proof.
  intros Hn Hf Hm -> Hfresh Hin Hall.
  rewrite Forall_forall in Hfresh. rewrite Forall_forall in Hin.
  assert (Hd : NoDup (map ref (found ++ matchedNodes))).
  { rewrite map_app. apply NoDup_app. split; [done|]. split; [|done].
    intros x Hx Hx'. apply list_elem_of_fmap in Hx as (y & -> & Hy).
    destruct (Hfresh y Hy) as [Hout _]. apply Hout. set_solver. }
  apply NoDup_Permutation.
  - by apply (NoDup_fmap_1 ref).
  - by apply (NoDup_fmap_1 ref).
  - intros x. split.
    + intros [Hx|Hx]%elem_of_app; [by apply Hfresh|by apply Hin].
    + intros Hx. specialize (Hall x Hx).
      assert (Hr : ref x ∈ map ref (found ++ matchedNodes)).
      { rewrite map_app. set_solver. }
      apply list_elem_of_fmap in Hr as (y & E & Hy).
      assert (Hy' : y ∈ nodes).
      { apply elem_of_app in Hy as [Hy|Hy]; [by apply Hfresh|by apply Hin]. }
      by rewrite (ref_determines_node nodes x y Hn Hx Hy' E).
Qed.

Section Pairs.

Variable identical : DOMElementNode -> DOMElementNode -> bool.

Lemma modifiedOf_old (pairs : list (DOMElementNode * DOMElementNode)) :
  map oldElement (modifiedOf identical pairs)
  = map fst (List.filter (fun p => negb (identical (fst p) (snd p))) pairs).
Proof. unfold modifiedOf. rewrite map_map. by apply map_ext. Qed.

Lemma modifiedOf_new (pairs : list (DOMElementNode * DOMElementNode)) :
  map newElement (modifiedOf identical pairs)
  = map snd (List.filter (fun p => negb (identical (fst p) (snd p))) pairs).
Proof. unfold modifiedOf. rewrite map_map. by apply map_ext. Qed.

Lemma split_by_identity {A : Type} (f : DOMElementNode * DOMElementNode -> A)
    (pairs : list (DOMElementNode * DOMElementNode)) :
  map f (List.filter (fun p => negb (identical (fst p) (snd p))) pairs)
  ++ map f (List.filter (fun p => identical (fst p) (snd p)) pairs)
  ≡ₚ map f pairs.
Proof.
  induction pairs as [|p pairs IH]; simpl; [done|].
  destruct (identical (fst p) (snd p)); simpl.
  - rewrite <- IH. by rewrite Permutation_middle.
  - by rewrite IH.
Qed.

Lemma unchanged_counterparts (pairs : list (DOMElementNode * DOMElementNode)) :
  Forall2 (fun o n => identical o n = true) (unchangedOf identical pairs)
    (map snd (List.filter (fun p => identical (fst p) (snd p)) pairs)).
Proof.
  unfold unchangedOf. induction pairs as [|p pairs IH]; simpl; [constructor|].
  destruct (identical (fst p) (snd p)) eqn:E; simpl; [|done]. by constructor.
Qed.

Lemma unchangedOf_from (pairs : list (DOMElementNode * DOMElementNode)) (e : DOMElementNode) :
  e ∈ unchangedOf identical pairs -> exists p, p ∈ pairs /\ fst p = e.
Proof.
  unfold unchangedOf. intros (p & -> & Hp)%list_elem_of_fmap.
  apply list_elem_of_In, filter_In in Hp as [Hp _]. exists p.
  split; [by apply list_elem_of_In|done].
Qed.

Lemma modifiedOf_from (pairs : list (DOMElementNode * DOMElementNode)) (m : Modification) :
  m ∈ modifiedOf identical pairs ->
  exists p, p ∈ pairs /\ oldElement m = fst p /\ newElement m = snd p.
Proof.
  unfold modifiedOf. intros (p & -> & Hp)%list_elem_of_fmap.
  apply list_elem_of_In, filter_In in Hp as [Hp _]. exists p.
  split; [by apply list_elem_of_In|done].
Qed.

End Pairs.

(** ** The comparator *)

Section Comparator.

Context {DOMHistoryElement : Type}.
Variable convert : DOMElementNode -> DOMHistoryElement.
Variable compare : DOMHistoryElement -> DOMElementNode -> bool.

Abbreviation identical := (identicalNodes DOMHistoryElement convert compare).
Abbreviation matchNodes := (compareNodes DOMHistoryElement convert compare).
Abbreviation diffTrees := (compareDOMTrees DOMHistoryElement convert compare).

(** The result of [compareDOMTrees], in terms of the pairs the matcher
    aligned and of what the two sweeps found. *)
Lemma compareDOMTrees_outcome (oldTree newTree : DOMElementNode) :
  exists pairs foundOld foundNew,
    let st := matchNodes oldTree newTree freshState in
    diffTrees oldTree newTree
    = {| added := foundNew; removed := foundOld;
         modified := modifiedOf identical ((oldTree, newTree) :: pairs);
         unchanged := unchangedOf identical ((oldTree, newTree) :: pairs) |} /\
    alignment identical (elementsOf oldTree) (elementsOf newTree) freshState st
      ((oldTree, newTree) :: pairs) /\
    Forall aboveThreshold pairs /\
    (NoDup (map ref foundOld) /\
     Forall (fun e => (ref e ∉ processedOldElements st) /\ e ∈ elementsOf oldTree) foundOld /\
     (forall e, e ∈ elementsOf oldTree ->
        ref e ∈ (list_to_set (map ref foundOld) ∪ processedOldElements st : gset nat))) /\
    (NoDup (map ref foundNew) /\
     Forall (fun e => (ref e ∉ processedNewElements st) /\ e ∈ elementsOf newTree) foundNew /\
     (forall e, e ∈ elementsOf newTree ->
        ref e ∈ (list_to_set (map ref foundNew) ∪ processedNewElements st : gset nat))).
Proof.
  destruct (compareNodes_alignment convert compare oldTree newTree freshState)
    as (pairs & Hal & Habove); [set_solver|set_solver|].
  unfold compareDOMTrees. fold freshState.
  set (st := matchNodes oldTree newTree freshState) in *.
  destruct (sweepOutcome_node pushRemoved findRemovedElements findRemovedElements_unfold
              oldTree (processedOldElements st) (result st))
    as (foundOld & Eo & Hdo & Hfo & Hallo).
  rewrite Eo.
  destruct (sweepOutcome_node pushAdded findAddedElements findAddedElements_unfold
              newTree (processedNewElements st) (pushAll pushRemoved foundOld (result st)))
    as (foundNew & En & Hdn & Hfn & Halln).
  rewrite En.
  exists pairs, foundOld, foundNew. cbv zeta.
  split; [|split; [exact Hal|split; [exact Habove|split; by repeat split]]].
  rewrite pushAll_added, pushAll_removed. simpl.
  rewrite (al_result _ _ _ _ _ _ Hal). simpl. reflexivity.
Qed.

(** On well-formed snapshots the nodes found by a sweep and the nodes the
    matcher aligned make up the whole tree, on either side. *)
Lemma compareDOMTrees_partition (oldTree newTree : DOMElementNode) :
  wellFormed oldTree ->
  wellFormed newTree ->
  exists pairs,
    let all := (oldTree, newTree) :: pairs in
    modified (diffTrees oldTree newTree) = modifiedOf identical all /\
    unchanged (diffTrees oldTree newTree) = unchangedOf identical all /\
    removed (diffTrees oldTree newTree) ++ map fst all ≡ₚ elementsOf oldTree /\
    added (diffTrees oldTree newTree) ++ map snd all ≡ₚ elementsOf newTree /\
    Forall aboveThreshold pairs.
Proof.
  intros Hwo Hwn. unfold wellFormed, refsOf in *.
  destruct (compareDOMTrees_outcome oldTree newTree)
    as (pairs & foundOld & foundNew & E & Hal & Habove
        & (Hdo & Hfo & Hallo) & (Hdn & Hfn & Halln)).
  simpl in E. exists pairs. cbv zeta. rewrite E.
  cbn [added removed modified unchanged].
  set (all := (oldTree, newTree) :: pairs) in *.
  destruct Hal as [_ Ho Hn Hu Hv _ Hfrom].
  split; [done|]. split; [done|]. split; [|split; [|done]].
  - apply found_and_matched_partition with (p := processedOldElements
      (matchNodes oldTree newTree freshState)); try done.
    + by rewrite map_map.
    + rewrite Ho, map_map. simpl. set_solver.
    + apply Forall_fmap. eapply Forall_impl; [exact Hfrom|]. by intros p [? ?].
  - apply found_and_matched_partition with (p := processedNewElements
      (matchNodes oldTree newTree freshState)); try done.
    + by rewrite map_map.
    + rewrite Hn, map_map. simpl. set_solver.
    + apply Forall_fmap. eapply Forall_impl; [exact Hfrom|]. by intros p [? ?].
Qed.

(** C2. Exactly-once classification: on well-formed snapshots, the removed
    nodes, the old sides of the modified entries and the unchanged nodes
    together are the element nodes of the old tree, each exactly once; and
    the added nodes, the new sides of the modified entries and the matched
    counterparts of the unchanged nodes together are the element nodes of
    the new tree, each exactly once. *)
Theorem every_node_classified_exactly_once (oldTree newTree : DOMElementNode) :
  wellFormed oldTree ->
  wellFormed newTree ->
  let r := diffTrees oldTree newTree in
  NoDup (elementsOf oldTree) /\
  NoDup (elementsOf newTree) /\
  removed r ++ map oldElement (modified r) ++ unchanged r ≡ₚ elementsOf oldTree /\
  exists counterparts,
    Forall2 (fun o n => identical o n = true) (unchanged r) counterparts /\
    added r ++ map newElement (modified r) ++ counterparts ≡ₚ elementsOf newTree.
Proof.
  intros Hwo Hwn r.
  destruct (compareDOMTrees_partition oldTree newTree Hwo Hwn)
    as (pairs & Hm & Hu & Hold & Hnew & _).
  subst r. rewrite Hm, Hu. unfold wellFormed, refsOf in *.
  set (all := (oldTree, newTree) :: pairs) in *.
  split; [by apply (NoDup_fmap_1 ref)|]. split; [by apply (NoDup_fmap_1 ref)|]. split.
  - rewrite modifiedOf_old. unfold unchangedOf. by rewrite split_by_identity.
  - exists (map snd (List.filter (fun p => identical (fst p) (snd p)) all)).
    split; [apply unchanged_counterparts|].
    by rewrite modifiedOf_new, split_by_identity.
Qed.

(** C8. The roots are forced into a match: whatever their similarity, the
    old root heads [unchanged] when the identity check accepts the pair and
    otherwise heads [modified] together with the new root; no later entry
    is the old root again, the old root is never in [removed] and the new
    root is never in [added]. *)
Theorem roots_are_always_paired (oldTree newTree : DOMElementNode) :
  let r := diffTrees oldTree newTree in
  (if identical oldTree newTree
   then exists rest,
          unchanged r = oldTree :: rest /\
          Forall (fun e => ref e <> ref oldTree) rest /\
          Forall (fun m => ref (oldElement m) <> ref oldTree /\
                           ref (newElement m) <> ref newTree) (modified r)
   else exists rest,
          modified r
          = {| oldElement := oldTree; newElement := newTree;
               changes := detectElementChanges oldTree newTree |} :: rest /\
          Forall (fun m => ref (oldElement m) <> ref oldTree /\
                           ref (newElement m) <> ref newTree) rest /\
          Forall (fun e => ref e <> ref oldTree) (unchanged r)) /\
  Forall (fun e => ref e <> ref oldTree) (removed r) /\
  Forall (fun e => ref e <> ref newTree) (added r).
Proof.
  intros r.
  destruct (compareDOMTrees_outcome oldTree newTree)
    as (pairs & foundOld & foundNew & E & Hal & _ & (_ & Hfo & _) & (_ & Hfn & _)).
  simpl in E. subst r. rewrite E. simpl.
  destruct Hal as [_ Ho Hn Hu Hv _ _]. simpl in Hu, Hv.
  apply NoDup_cons in Hu as [Hu _]. apply NoDup_cons in Hv as [Hv _].
  assert (Hrest : Forall (fun e => ref e <> ref oldTree) (unchangedOf identical pairs)).
  { apply Forall_forall. intros e (p & Hp & <-)%unchangedOf_from E'.
    apply Hu. rewrite <- E'. by apply (list_elem_of_fmap_2 (fun p => ref (fst p))). }
  assert (Hmod : Forall (fun m => ref (oldElement m) <> ref oldTree /\
                                  ref (newElement m) <> ref newTree)
                   (modifiedOf identical pairs)).
  { apply Forall_forall. intros m (p & Hp & -> & ->)%modifiedOf_from. split; intros E'.
    - apply Hu. rewrite <- E'. by apply (list_elem_of_fmap_2 (fun p => ref (fst p))).
    - apply Hv. rewrite <- E'. by apply (list_elem_of_fmap_2 (fun p => ref (snd p))). }
  split; [|split].
  - unfold unchangedOf, modifiedOf. simpl.
    destruct (identical oldTree newTree); simpl.
    + exists (unchangedOf identical pairs). done.
    + exists (modifiedOf identical pairs). done.
  - eapply Forall_impl; [exact Hfo|]. intros e [Hout _] E'.
    apply Hout. rewrite Ho, E'. simpl. set_solver.
  - eapply Forall_impl; [exact Hfn|]. intros e [Hout _] E'.
    apply Hout. rewrite Hn, E'. simpl. set_solver.
Qed.

End Comparator.

(** Two roots that share nothing score 0 and are paired all the same. *)
Example dissimilar_roots_are_paired :
  (calculateSimilarityScore itemOld strangerA == 0)%Q /\
  let r := compareDOMTrees DOMElementNode specConvert specCompare itemOld strangerA in
  map (fun m => (ref (oldElement m), ref (newElement m))) (modified r) = [(1, 14)] /\
  unchanged r = [] /\ removed r = [] /\ added r = [].
Proof. vm_compute. repeat split. Qed.

(** ** A node is its own best candidate *)

Lemma idSignal_self_max (a b : DOMElementNode) : (idSignal a b <= idSignal a a)%Q.
Proof.
  unfold idSignal. simpl.
  destruct (truthy (attrGet "id" (attributes a))); simpl.
  - rewrite optEqb_refl. destruct (_ && _); lra.
  - lra.
Qed.

Lemma classSignal_self_max (a b : DOMElementNode) : (classSignal a b <= classSignal a a)%Q.
Proof.
  pose proof (classSignal_range a b) as [_ Hmax]. revert Hmax.
  unfold classSignal.
  destruct (attrGet "class" (attributes a)) as [c1|]; [|lra].
  destruct (String.eqb c1 ""); simpl.
  - destruct (attrGet "class" (attributes b)); lra.
  - rewrite classOverlap_self. done.
Qed.

Lemma score_self_max (a b : DOMElementNode) :
  (calculateSimilarityScore a b <= calculateSimilarityScore a a)%Q.
Proof.
  rewrite !score_signals.
  pose proof (idSignal_self_max a b). pose proof (classSignal_self_max a b).
  pose proof (tagSignal_range a b) as [_ Ht]. pose proof (xpathSignal_range a b) as [_ Hx].
  assert (Ht' : tagSignal a a = 3%Q) by (unfold tagSignal; by rewrite String.eqb_refl).
  assert (Hx' : xpathSignal a a = 2%Q) by (unfold xpathSignal; by rewrite String.eqb_refl).
  rewrite Ht', Hx'.
  apply Qle_shift_div_l; [lra|]. field_simplify. lra.
Qed.

Lemma score_self_with_id (a : DOMElementNode) :
  hasId a -> (9 # 11 <= calculateSimilarityScore a a)%Q.
Proof.
  unfold hasId. intros Hid. rewrite score_signals.
  pose proof (classSignal_range a a) as [Hc _].
  assert (Ht : tagSignal a a = 3%Q) by (unfold tagSignal; by rewrite String.eqb_refl).
  assert (Hx : xpathSignal a a = 2%Q) by (unfold xpathSignal; by rewrite String.eqb_refl).
  assert (Hi : idSignal a a = 4%Q).
  { unfold idSignal. simpl. by rewrite Hid, optEqb_refl. }
  rewrite Ht, Hx, Hi.
  unfold Qdiv. change (/ 11)%Q with (1 # 11)%Q. lra.
Qed.

(** Without an [id] on the old side no pair reaches the threshold. *)
Lemma aboveThreshold_hasId (a b : DOMElementNode) : aboveThreshold (a, b) -> hasId a.
Proof.
  unfold aboveThreshold, hasId. simpl. rewrite score_signals.
  destruct (truthy (attrGet "id" (attributes a))) eqn:Hid; [done|].
  intros Habove. exfalso.
  pose proof (tagSignal_range a b) as [_ Ht].
  pose proof (xpathSignal_range a b) as [_ Hx].
  pose proof (classSignal_range a b) as [_ Hc].
  assert (Hi : idSignal a b = 0%Q) by (unfold idSignal; simpl; by rewrite Hid).
  rewrite Hi in Habove. unfold Qdiv in Habove.
  change (/ 11)%Q with (1 # 11)%Q in Habove. lra.
Qed.

(** ** Comparing a snapshot with itself *)

Lemma selfAligned_nil (st : DiffState) : selfAligned [] st st.
Proof.
  unfold selfAligned. simpl. split; [|set_solver].
  destruct st as [[a r m u] po pn]. simpl. by rewrite app_nil_r.
Qed.

Lemma selfAligned_app (xs ys : list DOMElementNode) (st st' st'' : DiffState) :
  selfAligned xs st st' -> selfAligned ys st' st'' -> selfAligned (xs ++ ys) st st''.
Proof.
  intros (R1 & O1 & N1) (R2 & O2 & N2). unfold selfAligned.
  rewrite R2, O2, N2, R1, O1, N1. simpl.
  rewrite map_app, list_to_set_app_L, app_assoc. split; [done|]. set_solver.
Qed.

Lemma selfReady_app (identical : DOMElementNode -> DOMElementNode -> bool)
    (xs ys : list DOMElementNode) (st : DiffState) :
  selfReady identical (xs ++ ys) st ->
  selfReady identical xs st /\ selfReady identical ys st /\
  (forall x y, x ∈ xs -> y ∈ ys -> ref x <> ref y).
Proof.
  intros [Hd Hf]. rewrite map_app in Hd.
  apply NoDup_app in Hd as (Hx & Hxy & Hy). apply Forall_app in Hf as [Hfx Hfy].
  repeat split; try done.
  intros x y Hin Hin' E. apply (Hxy (ref x)).
  - by apply list_elem_of_fmap_2.
  - rewrite E. by apply list_elem_of_fmap_2.
Qed.

Section SelfDiff.

Context {DOMHistoryElement : Type}.
Variable convert : DOMElementNode -> DOMHistoryElement.
Variable compare : DOMHistoryElement -> DOMElementNode -> bool.

Abbreviation identical := (identicalNodes DOMHistoryElement convert compare).
Abbreviation classify := (classifyPair DOMHistoryElement convert compare).
Abbreviation matchNodes := (compareNodes DOMHistoryElement convert compare).
Abbreviation diffTrees := (compareDOMTrees DOMHistoryElement convert compare).

Lemma compareChildNodesWith_self (todo : list DOMBaseNode) :
  Forall (fun c => forall st,
            selfReady identical (elementsOf c) st ->
            Forall hasId (elementsOfChildren (children c)) ->
            selfAligned (elementsOf c) st (matchNodes c c st))
    (elementChildren todo) ->
  forall (pre : list DOMElementNode) (st : DiffState),
    selfReady identical (elementsOfChildren todo) st ->
    Forall hasId (elementsOfChildren todo) ->
    Forall (fun c => ref c ∈ processedNewElements st) pre ->
    selfAligned (elementsOfChildren todo) st
      (compareChildNodesWith matchNodes (pre ++ elementChildren todo) todo st).
Proof.
  induction todo as [|[txt|c] todo IH]; intros Hkids pre st Hready Hids Hpre.
  - apply selfAligned_nil.
  - by apply IH.
  - simpl in Hkids. apply Forall_cons in Hkids as [Hc Hkids].
    rewrite elementsOfChildren_element in *.
    apply selfReady_app in Hready as (Hrc & Hrt & Hdisj).
    apply Forall_app in Hids as [Hidc Hidt].
    assert (Hfresh : (ref c ∉ processedOldElements st) /\
                     (ref c ∉ processedNewElements st)).
    { destruct Hrc as [_ Hf]. rewrite Forall_forall in Hf.
      destruct (Hf c (elementsOf_root c)) as (? & ? & _). done. }
    destruct Hfresh as [Hfo Hfn].
    assert (Hid : hasId c).
    { rewrite Forall_forall in Hidc. apply Hidc, elementsOf_root. }
    pose proof (score_self_with_id c Hid) as Hscore.
    assert (Hbest : findBestMatch c (processedNewElements st)
                      (pre ++ c :: elementChildren todo)
                    = (Some c, calculateSimilarityScore c c)).
    { apply findBestMatch_earliest; [done|lra| |].
      - eapply Forall_impl; [exact Hpre|]. intros x Hx. by left.
      - apply Forall_forall. intros x _. right. apply score_self_max. }
    simpl. destruct (decide (ref c ∈ processedOldElements st)); [done|].
    rewrite Hbest. simpl.
    destruct (Qlt_le_dec 0.7 (calculateSimilarityScore c c)) as [_|Hle];
      [|exfalso; lra].
    assert (Hidc' : Forall hasId (elementsOfChildren (children c))).
    { rewrite elementsOf_unfold in Hidc. by apply Forall_cons in Hidc as [_ ?]. }
    pose proof (Hc st Hrc Hidc') as Hself.
    eapply selfAligned_app; [exact Hself|].
    replace (pre ++ c :: elementChildren todo)
      with ((pre ++ [c]) ++ elementChildren todo) by (by rewrite <- app_assoc).
    destruct Hself as (_ & Ho & Hn).
    apply IH; try done.
    + destruct Hrt as [Hd Hf]. split; [done|].
      apply Forall_forall. intros y Hy. rewrite Forall_forall in Hf.
      destruct (Hf y Hy) as (Hyo & Hyn & Hyi).
      assert (Hne : ref y ∉ (list_to_set (map ref (elementsOf c)) : gset nat)).
      { rewrite elem_of_list_to_set. intros (x & E & Hx)%list_elem_of_fmap.
        by apply (Hdisj x y Hx Hy). }
      rewrite Ho, Hn. repeat split; [set_solver|set_solver|done].
    + apply Forall_app. split.
      * eapply Forall_impl; [exact Hpre|]. intros x Hx. rewrite Hn. set_solver.
      * apply Forall_cons. split; [|constructor]. rewrite Hn.
        apply elem_of_union_l, elem_of_list_to_set, list_elem_of_fmap_2, elementsOf_root.
Qed.

Lemma compareNodes_self (e : DOMElementNode) :
  forall st,
    selfReady identical (elementsOf e) st ->
    Forall hasId (elementsOfChildren (children e)) ->
    selfAligned (elementsOf e) st (matchNodes e e st).
Proof.
  induction e as [e IH] using DOMElementNode_tree_ind.
  intros st Hready Hids. rewrite compareNodes_unfold, elementsOf_unfold in *.
  change (e :: elementsOfChildren (children e))
    with ([e] ++ elementsOfChildren (children e)) in *.
  apply selfReady_app in Hready as (Hre & Hrk & Hdisj).
  destruct Hre as [_ Hroot]. apply Forall_cons in Hroot as [(Hfo & Hfn & Hrefl) _].
  assert (Hstep : selfAligned [e] st (classify e e st)).
  { unfold classifyPair. rewrite Hrefl. unfold selfAligned, pushUnchanged. simpl.
    split; [done|]. set_solver. }
  eapply selfAligned_app; [exact Hstep|].
  apply (compareChildNodesWith_self (children e) IH []); try done.
  - destruct Hrk as [Hd Hf]. split; [done|].
    apply Forall_forall. intros y Hy. rewrite Forall_forall in Hf.
    destruct (Hf y Hy) as (Hyo & Hyn & Hyi).
    assert (Hne : ref e <> ref y) by (apply Hdisj; [left|done]).
    unfold classifyPair. rewrite Hrefl. simpl. repeat split; [set_solver|set_solver|done].
Qed.

(** X13. A well-formed snapshot in which every element node other than the
    root carries a non-empty [id], and whose nodes the identity check
    accepts against themselves, differs from itself in nothing: [added],
    [removed] and [modified] are empty and [unchanged] lists every element
    node once, in document order. *)
Theorem self_diff_with_ids (tree : DOMElementNode) :
  wellFormed tree ->
  Forall hasId (elementsOfChildren (children tree)) ->
  Forall (fun e => identical e e = true) (elementsOf tree) ->
  diffTrees tree tree
  = {| added := []; removed := []; modified := []; unchanged := elementsOf tree |}.
Proof.
  intros Hwf Hids Hrefl.
  assert (Hready : selfReady identical (elementsOf tree) freshState).
  { split; [exact Hwf|]. eapply Forall_impl; [exact Hrefl|].
    intros e He. simpl. repeat split; [set_solver|set_solver|done]. }
  destruct (compareNodes_self tree freshState Hready Hids) as (Hr & Ho & Hn).
  unfold compareDOMTrees. fold freshState.
  rewrite (sweep_nothing_left pushRemoved findRemovedElements findRemovedElements_unfold).
  - rewrite (sweep_nothing_left pushAdded findAddedElements findAddedElements_unfold).
    + rewrite Hr. reflexivity.
    + intros e He. rewrite Hn. apply elem_of_union_l, elem_of_list_to_set.
      by apply list_elem_of_fmap_2.
  - intros e He. rewrite Ho. apply elem_of_union_l, elem_of_list_to_set.
    by apply list_elem_of_fmap_2.
Qed.

(** The converse: when nothing is reported removed, every element node
    other than the root carries a non-empty [id]. *)
Lemma self_diff_needs_ids (tree : DOMElementNode) :
  wellFormed tree ->
  removed (diffTrees tree tree) = [] ->
  Forall hasId (elementsOfChildren (children tree)).
Proof.
  intros Hwf Hnone.
  destruct (compareDOMTrees_partition convert compare tree tree Hwf Hwf)
    as (pairs & _ & _ & Hold & _ & Habove).
  rewrite Hnone, elementsOf_unfold in Hold. simpl in Hold.
  apply Permutation_cons_inv in Hold. rewrite <- Hold.
  apply Forall_fmap. eapply Forall_impl; [exact Habove|].
  intros [a b] Hp. by apply (aboveThreshold_hasId a b).
Qed.

End SelfDiff.

(** C1. The self-diff of a snapshot is not clean when a node below the root
    has no [id]: such a node scores 7/11 against itself, which is not above
    0.7, so it stays unmatched and is reported both as removed and as
    added, whatever the identity check answers; in exact arithmetic as in
    double precision. *)
Lemma self_diff_counterexample :
  wellFormed plainTree /\
  (calculateSimilarityScore plainChild plainChild == 7 # 11)%Q /\
  (forall (H : Type) (convert : DOMElementNode -> H)
          (compare : H -> DOMElementNode -> bool),
     removed (compareDOMTrees H convert compare plainTree plainTree) = [plainChild] /\
     added (compareDOMTrees H convert compare plainTree plainTree) = [plainChild] /\
     plainChild ∉ unchanged (compareDOMTrees H convert compare plainTree plainTree)) /\
  showNumber (Binary64.calculateSimilarityScore plainChild plainChild)
  = "0.6363636363636364" /\
  (forall (H : Type) (convert : DOMElementNode -> H)
          (compare : H -> DOMElementNode -> bool),
     removed (Binary64.compareDOMTrees H convert compare plainTree plainTree)
     = [plainChild] /\
     added (Binary64.compareDOMTrees H convert compare plainTree plainTree)
     = [plainChild] /\
     plainChild ∉ unchanged (Binary64.compareDOMTrees H convert compare plainTree plainTree)).
Proof.
  split; [|split; [|split; [|split]]].
  - unfold wellFormed. by apply (bool_decide_unpack _).
  - vm_compute. reflexivity.
  - intros H convert compare.
    unfold compareDOMTrees. rewrite compareNodes_unfold.
    unfold classifyPair, identicalNodes.
    destruct (compare (convert plainTree) plainTree);
      (split; [vm_compute; reflexivity|]); (split; [vm_compute; reflexivity|]);
      intros Hin; vm_compute in Hin.
    + apply list_elem_of_singleton in Hin. discriminate Hin.
    + inversion Hin.
  - vm_compute. reflexivity.
  - intros H convert compare.
    unfold Binary64.compareDOMTrees.
    change (Binary64.compareNodes H convert compare plainTree plainTree ?st)
      with (Binary64.compareChildNodesWith (Binary64.compareNodes H convert compare)
              (elementChildren (children plainTree)) (children plainTree)
              (classifyPair H convert compare plainTree plainTree st)).
    unfold classifyPair, identicalNodes.
    destruct (compare (convert plainTree) plainTree);
      (split; [vm_compute; reflexivity|]); (split; [vm_compute; reflexivity|]);
      intros Hin; vm_compute in Hin.
    + apply list_elem_of_singleton in Hin. discriminate Hin.
    + inversion Hin.
Qed.

Lemma self_diff_with_ids_witness :
  wellFormed idTree /\
  compareDOMTrees DOMElementNode specConvert specCompare idTree idTree
  = {| added := []; removed := []; modified := []; unchanged := elementsOf idTree |}.
Proof.
  assert (Hwf : wellFormed idTree) by (by apply (bool_decide_unpack _)).
  split; [exact Hwf|].
  apply self_diff_with_ids; [exact Hwf| |].
  - vm_compute. each_candidate ltac:(reflexivity).
  - apply (Forall_forallb (fun e => specCompare (specConvert e) e)).
    vm_compute. reflexivity.
Defined.

Lemma every_node_classified_exactly_once_witness :
  wellFormed idTree /\ wellFormed idTreeLater /\
  let r := compareDOMTrees DOMElementNode specConvert specCompare idTree idTreeLater in
  removed r ++ map oldElement (modified r) ++ unchanged r ≡ₚ elementsOf idTree /\
  exists counterparts,
    Forall2 (fun o n => identicalNodes DOMElementNode specConvert specCompare o n = true)
      (unchanged r) counterparts /\
    added r ++ map newElement (modified r) ++ counterparts ≡ₚ elementsOf idTreeLater.
Proof.
  assert (Hold : wellFormed idTree) by (by apply (bool_decide_unpack _)).
  assert (Hnew : wellFormed idTreeLater) by (by apply (bool_decide_unpack _)).
  split; [exact Hold|]. split; [exact Hnew|].
  destruct (every_node_classified_exactly_once specConvert specCompare
              idTree idTreeLater Hold Hnew) as (_ & _ & Ho & Hn).
  split; [exact Ho|exact Hn].
Defined.

(** ** Classification of a matched pair *)

Section Classification.

Context {DOMHistoryElement : Type}.
Variable convert : DOMElementNode -> DOMHistoryElement.
Variable compare : DOMHistoryElement -> DOMElementNode -> bool.

Abbreviation identical := (identicalNodes DOMHistoryElement convert compare).
Abbreviation matchNodes := (compareNodes DOMHistoryElement convert compare).

(** One call of [compareNodes] records its pair first: under [unchanged]
    when the identity check accepts it, under [modified] otherwise; the
    entries that follow belong to other nodes. *)
Lemma compareNodes_classification (oldNode newNode : DOMElementNode) (st : DiffState) :
  ref oldNode ∉ processedOldElements st ->
  ref newNode ∉ processedNewElements st ->
  exists U M,
    unchanged (result (matchNodes oldNode newNode st)) = unchanged (result st) ++ U /\
    modified (result (matchNodes oldNode newNode st)) = modified (result st) ++ M /\
    if identical oldNode newNode
    then (exists U', U = oldNode :: U' /\ Forall (fun e => ref e <> ref oldNode) U') /\
         Forall (fun m => ref (oldElement m) <> ref oldNode) M
    else (exists M',
            M = {| oldElement := oldNode; newElement := newNode;
                   changes := detectElementChanges oldNode newNode |} :: M' /\
            Forall (fun m => ref (oldElement m) <> ref oldNode) M') /\
         Forall (fun e => ref e <> ref oldNode) U.
Proof.
  intros Ho Hn.
  destruct (compareNodes_alignment convert compare oldNode newNode st Ho Hn)
    as (pairs & [Hr _ _ Hu _ _ _] & _).
  simpl in Hu. apply NoDup_cons in Hu as [Hu _].
  assert (Hrest : Forall (fun e => ref e <> ref oldNode) (unchangedOf identical pairs)).
  { apply Forall_forall. intros e (p & Hp & <-)%unchangedOf_from E'.
    apply Hu. rewrite <- E'. by apply (list_elem_of_fmap_2 (fun p => ref (fst p))). }
  assert (Hmod : Forall (fun m => ref (oldElement m) <> ref oldNode)
                   (modifiedOf identical pairs)).
  { apply Forall_forall. intros m (p & Hp & -> & _)%modifiedOf_from E'.
    apply Hu. rewrite <- E'. by apply (list_elem_of_fmap_2 (fun p => ref (fst p))). }
  exists (unchangedOf identical ((oldNode, newNode) :: pairs)),
         (modifiedOf identical ((oldNode, newNode) :: pairs)).
  rewrite Hr. simpl. split; [done|]. split; [done|].
  unfold unchangedOf, modifiedOf. simpl.
  destruct (identical oldNode newNode); simpl; (split; [eexists; by split|done]).
Qed.

End Classification.

Lemma specCompare_true (oldNode newNode : DOMElementNode) :
  identicalNodes DOMElementNode specConvert specCompare oldNode newNode = true
  <-> detectElementChanges oldNode newNode = [].
Proof.
  unfold identicalNodes, specConvert, specCompare.
  destruct (detectElementChanges oldNode newNode); split; done.
Qed.

(** C5. With the identity check read as the specification describes it (no
    change descriptor for the pair), a matched pair is recorded under
    [unchanged] exactly when the change detector returns the empty
    sequence, and otherwise the triple of the old node, the new node and
    the detected changes is recorded under [modified]. *)
Theorem unchanged_iff_no_changes (oldNode newNode : DOMElementNode) (st : DiffState) :
  ref oldNode ∉ processedOldElements st ->
  ref newNode ∉ processedNewElements st ->
  let st' := compareNodes DOMElementNode specConvert specCompare oldNode newNode st in
  exists U M,
    unchanged (result st') = unchanged (result st) ++ U /\
    modified (result st') = modified (result st) ++ M /\
    (ref oldNode ∈ map ref U <-> detectElementChanges oldNode newNode = []) /\
    ((exists m, m ∈ M /\ ref (oldElement m) = ref oldNode)
     <-> detectElementChanges oldNode newNode <> []) /\
    (detectElementChanges oldNode newNode <> [] ->
     {| oldElement := oldNode; newElement := newNode;
        changes := detectElementChanges oldNode newNode |} ∈ M).
Proof.
  intros Ho Hn st'.
  destruct (compareNodes_classification specConvert specCompare oldNode newNode st Ho Hn)
    as (U & M & HU & HM & Hcase).
  exists U, M. split; [exact HU|]. split; [exact HM|].
  pose proof (specCompare_true oldNode newNode) as Hspec.
  destruct (identicalNodes DOMElementNode specConvert specCompare oldNode newNode).
  - destruct Hcase as [(U' & -> & HU') HM'].
    assert (E : detectElementChanges oldNode newNode = []) by (by apply Hspec).
    split; [|split].
    + split; [done|]. intros _. simpl. left.
    + split; [|done]. intros (m & Hm & E'). rewrite Forall_forall in HM'.
      by destruct (HM' m Hm).
    + done.
  - destruct Hcase as [(M' & -> & HM') HU'].
    assert (E : detectElementChanges oldNode newNode <> []).
    { intros E. apply Hspec in E. discriminate. }
    split; [|split].
    + split; [|done]. intros (e & E' & He)%list_elem_of_fmap.
      rewrite Forall_forall in HU'. by destruct (HU' e He).
    + split; [done|]. intros _. eexists. split; [left|done].
    + intros _. left.
Qed.

Lemma unchanged_iff_no_changes_witness :
  detectElementChanges twoAttrs oneAttr <> [] /\
  exists U M,
    unchanged (result (compareNodes DOMElementNode specConvert specCompare
                         twoAttrs oneAttr freshState)) = [] ++ U /\
    modified (result (compareNodes DOMElementNode specConvert specCompare
                        twoAttrs oneAttr freshState)) = [] ++ M /\
    ~ ref twoAttrs ∈ map ref U /\
    {| oldElement := twoAttrs; newElement := oneAttr;
       changes := detectElementChanges twoAttrs oneAttr |} ∈ M.
Proof.
  assert (Hne : detectElementChanges twoAttrs oneAttr <> []) by (vm_compute; discriminate).
  split; [exact Hne|].
  assert (Ho : ref twoAttrs ∉ processedOldElements freshState) by set_solver.
  assert (Hn : ref oneAttr ∉ processedNewElements freshState) by set_solver.
  destruct (unchanged_iff_no_changes twoAttrs oneAttr freshState Ho Hn)
    as (U & M & HU & HM & Hiff & _ & Hin).
  exists U, M. split; [exact HU|]. split; [exact HM|].
  split; [|exact (Hin Hne)].
  intros H. apply Hne. apply Hiff. exact H.
Defined.

(** ** Delayed comparison driver *)

(** C7. The driver logs, waits for [delayMs], asks the provider for a
    snapshot exactly once, and then either returns the comparator's result
    on the initial and the current tree or, when the provider fails, fails
    with the provider's reason: no second request and no result. *)
Theorem trackDOMChanges_contract (H : Type) (convert : DOMElementNode -> H)
    (compare : H -> DOMElementNode -> bool) (World Failure : Type)
    (initialTree : DOMElementNode) (delayMs : Z)
    (getCurrentTree : SnapshotProvider World Failure) (w : World) :
  let '(events, w', outcome) :=
    trackDOMChanges H convert compare World Failure initialTree delayMs getCurrentTree w in
  snapshotRequests events = 1%nat /\
  w' = fst (getCurrentTree w) /\
  match snd (getCurrentTree w) with
  | inr currentTree =>
      events = [ConsoleLog (startMessage delayMs); SetTimeout delayMs; GetCurrentTree;
                ConsoleLog compareMessage] /\
      outcome = inr (compareDOMTrees H convert compare initialTree currentTree)
  | inl reason =>
      events = [ConsoleLog (startMessage delayMs); SetTimeout delayMs; GetCurrentTree] /\
      outcome = inl reason
  end.
Proof.
  unfold trackDOMChanges, await, consoleLog, sleep, invoke, resolve.
  destruct (getCurrentTree w) as [w' [reason|currentTree]]; simpl; done.
Qed.

(** ** The repository's test trees *)

(** [body] has a class but no [id]: it scores 7/11 against its later self,
    so the matcher stops below the roots and both subtrees are swept. *)
Example createTestDOMTree_diff :
  let r := compareDOMTrees DOMElementNode specConvert specCompare
             (createTestDOMTree false) (createTestDOMTree true) in
  map ref (unchanged r) = [1] /\ modified r = [] /\
  map ref (removed r) = [2; 3; 4; 5; 6] /\ map ref (added r) = [2; 3; 4; 5; 6; 7].
Proof. vm_compute. repeat split. Qed.

(** On these trees, and on a snapshot whose nodes have an [id], the
    comparator gives the same result in double precision. *)
Example double_precision_on_the_test_trees :
  Binary64.compareDOMTrees DOMElementNode specConvert specCompare
    (createTestDOMTree false) (createTestDOMTree true)
  = compareDOMTrees DOMElementNode specConvert specCompare
      (createTestDOMTree false) (createTestDOMTree true) /\
  Binary64.compareDOMTrees DOMElementNode specConvert specCompare idTree idTreeLater
  = compareDOMTrees DOMElementNode specConvert specCompare idTree idTreeLater.
Proof. split; vm_compute; reflexivity. Qed.

(** ** Numbers as text *)

Example numbers_as_text :
  map showNumber
    [1 / 10 + 2 / 10; 1e21; 1e21 - 131072; 1 / 10000000; 1 / 1000000; - (3 / 2); 100;
     0 / 0; 1 / 0; - 0]%float
  = ["0.30000000000000004"; "1e+21"; "999999999999999900000"; "1e-7"; "0.000001";
     "-1.5"; "100"; "NaN"; "Infinity"; "0"] /\
  startMessage 1000 = "记录初始DOM树，将在 1000ms 后比较变化...".
Proof. split; vm_compute; reflexivity. Qed.

(** * Further properties of the differ *)

(** ** When the change detector finds nothing *)

Lemma attrGet_elem (key value : string) (attrs : list (string * string)) :
  attrGet key attrs = Some value -> (key, value) ∈ attrs.
Proof.
  induction attrs as [|[k v] r IH]; simpl; [done|].
  destruct (String.eqb_spec k key) as [->|Hne].
  - intros [= ->]. left.
  - intros H. right. by apply IH.
Qed.

Lemma attrGet_unique (key value : string) (attrs : list (string * string)) :
  NoDup (map fst attrs) -> (key, value) ∈ attrs -> attrGet key attrs = Some value.
Proof.
  induction attrs as [|[k v] r IH]; simpl; intros Hd Hin; [inversion Hin|].
  apply NoDup_cons in Hd as [Hk Hd].
  destruct (String.eqb_spec k key) as [->|Hne].
  - apply elem_of_cons in Hin as [[= ->]|Hin]; [done|].
    exfalso. apply Hk. by apply (list_elem_of_fmap_2 fst _ (key, value)).
  - apply elem_of_cons in Hin as [[= -> ->]|Hin]; [done|]. by apply IH.
Qed.

Lemma attrGet_present (key value : string) (attrs : list (string * string)) :
  (key, value) ∈ attrs -> attrGet key attrs <> None.
Proof.
  induction attrs as [|[k v] r IH]; simpl; intros Hin; [inversion Hin|].
  destruct (String.eqb_spec k key) as [->|Hne]; [done|].
  apply elem_of_cons in Hin as [[= -> ->]|Hin]; [done|]. by apply IH.
Qed.

Lemma removedOrChanged_nil (oldEntries newAttrs : list (string * string)) :
  removedOrChanged oldEntries newAttrs = []
  <-> forall k v, (k, v) ∈ oldEntries -> attrGet k newAttrs = Some v.
Proof.
  induction oldEntries as [|[k v] r IH]; cbn [removedOrChanged].
  - split; [intros _ k v H; inversion H|done].
  - old_entry_cases k v newAttrs.
    + rewrite IH. split.
      * intros H k' v' [[= -> ->]|Hin]%elem_of_cons; [done|by apply H].
      * intros H k' v' Hin. apply H. by right.
    + split; [done|]. intros H. specialize (H k v ltac:(by left)). congruence.
    + split; [done|]. intros H. specialize (H k v ltac:(by left)). congruence.
    + split; [done|]. intros H. specialize (H k v ltac:(by left)). congruence.
Qed.

Lemma addedAttributes_nil (newEntries oldAttrs : list (string * string)) :
  addedAttributes newEntries oldAttrs = []
  <-> forall k v, (k, v) ∈ newEntries -> attrHas k oldAttrs = true.
Proof.
  induction newEntries as [|[k v] r IH]; simpl.
  - split; [intros _ k v H; inversion H|done].
  - destruct (attrHas k oldAttrs) eqn:E.
    + rewrite IH. split.
      * intros H k' v' [[= -> ->]|Hin]%elem_of_cons; [done|by apply (H k' v')].
      * intros H k' v' Hin. apply (H k' v'). by right.
    + split; [done|]. intros H. specialize (H k v ltac:(by left)). congruence.
Qed.

Lemma snoc_not_nil {A : Type} (l : list A) (x : A) : l ++ [x] <> [].
Proof. by destruct l. Qed.

(** The detector returns nothing exactly when each of its checks passes. *)
Lemma elementChanges_nil (oldElem newElem : DOMElementNode) :
  elementChanges oldElem newElem = []
  <-> String.eqb (tagName oldElem) (tagName newElem) = true /\
      removedOrChanged (attributes oldElem) (attributes newElem) = [] /\
      addedAttributes (attributes newElem) (attributes oldElem) = [] /\
      Bool.eqb (isVisible oldElem) (isVisible newElem) = true /\
      Bool.eqb (isInteractive oldElem) (isInteractive newElem) = true /\
      samePosition oldElem newElem.
Proof.
  unfold elementChanges, samePosition.
  destruct (String.eqb (tagName oldElem) (tagName newElem));
    destruct (Bool.eqb (isVisible oldElem) (isVisible newElem));
    destruct (Bool.eqb (isInteractive oldElem) (isInteractive newElem));
    destruct (viewportCoordinates oldElem) as [[ox oy]|];
    destruct (viewportCoordinates newElem) as [[nx ny]|];
    try (destruct (ox =? nx)%float; destruct (oy =? ny)%float);
    simpl;
    (split;
     [ intros H; repeat (apply app_eq_nil in H as [H ?]); try discriminate;
       try (exfalso; by eapply snoc_not_nil); repeat split; try done
     | intros (? & Hrc & Had & ? & ? & Hpos); try discriminate;
       try (destruct Hpos; discriminate);
       rewrite ?Hrc, ?Had; try done ]).
Qed.

(** X1. The change detector reports nothing for a pair exactly when the two
    nodes have the same tag, the new node keeps the attributes of the old
    one, the visibility and interactivity flags are the same and, where
    both have geometry, the coordinates of the centres are equal numbers.
    Keeping the attributes means the same entries, except that entries of
    the new node under a name inherited from [Object.prototype] go
    unnoticed.  Paths, children and the order of the attributes play no
    part. *)
Theorem no_changes_iff_same_facets (oldElem newElem : DOMElementNode) :
  uniqueKeys oldElem ->
  (detectElementChanges oldElem newElem = []
   <-> tagName oldElem = tagName newElem /\
       sameAttributes oldElem newElem /\
       isVisible oldElem = isVisible newElem /\
       isInteractive oldElem = isInteractive newElem /\
       samePosition oldElem newElem).
Proof.
  intros Hkeys. unfold detectElementChanges.
  assert (Hmap : map describe (elementChanges oldElem newElem) = []
                 <-> elementChanges oldElem newElem = []).
  { by destruct (elementChanges oldElem newElem). }
  rewrite Hmap, elementChanges_nil, removedOrChanged_nil, addedAttributes_nil.
  rewrite String.eqb_eq, !Bool.eqb_true_iff. unfold sameAttributes.
  split.
  - intros (Ht & Hold & Hnew & Hv & Hi & Hp). repeat split; try done.
    intros key. destruct (attrGet key (attributes oldElem)) as [v|] eqn:E.
    + left. symmetry. by apply Hold, attrGet_elem.
    + destruct (attrGet key (attributes newElem)) as [w|] eqn:E'; [|by left].
      right. split; [done|].
      specialize (Hnew key w (attrGet_elem _ _ _ E')).
      unfold attrHas in Hnew. by rewrite E in Hnew.
  - intros (Ht & Hsame & Hv & Hi & Hp). repeat split; try done.
    + intros k v Hin. pose proof (attrGet_unique k v _ Hkeys Hin) as Hk.
      destruct (Hsame k) as [<-|[Hnone _]]; [done|congruence].
    + intros k v Hin. pose proof (attrGet_present k v _ Hin) as Hk.
      unfold attrHas. destruct (Hsame k) as [Heq|[Hnone Hinh]].
      * rewrite Heq. by destruct (attrGet k (attributes newElem)).
      * by rewrite Hnone.
Qed.

Lemma no_changes_iff_same_facets_witness :
  uniqueKeys placedDiv /\ detectElementChanges placedDiv movedDiv = [].
Proof.
  assert (Hkeys : uniqueKeys placedDiv) by (by apply (bool_decide_unpack _)).
  split; [exact Hkeys|].
  apply (no_changes_iff_same_facets placedDiv movedDiv Hkeys).
  repeat split.
  intros key. left. unfold placedDiv, movedDiv. cbn [attributes attrGet].
  destruct (String.eqb_spec "id" key) as [<-|Hid]; [reflexivity|].
  destruct (String.eqb_spec "class" key) as [<-|Hclass]; reflexivity.
Defined.

(** ** Class sets *)

Lemma setHas_iff (s : list string) (x : string) : setHas s x = true <-> x ∈ s.
Proof.
  split; [|apply setHas_true].
  unfold setHas. intros (y & Hy & E)%existsb_exists.
  apply String.eqb_eq in E as ->. by apply list_elem_of_In.
Qed.

Lemma newSet_acc (items acc : list string) :
  NoDup acc ->
  NoDup (fold_left (fun acc x => if setHas acc x then acc else acc ++ [x]) items acc) /\
  forall x,
    x ∈ fold_left (fun acc x => if setHas acc x then acc else acc ++ [x]) items acc
    <-> x ∈ acc \/ x ∈ items.
Proof.
  revert acc. induction items as [|y items IH]; intros acc Hd; simpl.
  - split; [done|]. intros x. split; [by left|]. intros [?|H]; [done|inversion H].
  - destruct (setHas acc y) eqn:E.
    + destruct (IH acc Hd) as [Hn Hin]. split; [done|].
      intros x. rewrite Hin, elem_of_cons. apply setHas_iff in E.
      split; [intros [?|?]; auto|]. intros [?|[->|?]]; auto.
    + assert (Hy : y ∉ acc).
      { intros Hin. apply setHas_iff in Hin. congruence. }
      assert (Hd' : NoDup (acc ++ [y])).
      { apply NoDup_app. split; [done|]. split; [|apply NoDup_singleton].
        intros x Hx ->%list_elem_of_singleton. done. }
      destruct (IH (acc ++ [y]) Hd') as [Hn Hin]. split; [done|].
      intros x. rewrite Hin, elem_of_app, list_elem_of_singleton, elem_of_cons.
      split; [intros [[?|?]|?]; auto|]. intros [?|[?|?]]; auto.
Qed.

Lemma newSet_NoDup (items : list string) : NoDup (newSet items).
Proof. apply newSet_acc. constructor. Qed.

Lemma newSet_elem (items : list string) (x : string) : x ∈ newSet items <-> x ∈ items.
Proof.
  unfold newSet. destruct (newSet_acc items [] (NoDup_nil_2 (A := string))) as [_ H].
  rewrite H. split; [intros [H'|?]; [inversion H'|done]|by right].
Qed.

Lemma countCommon_filter (s1 s2 : list string) :
  countCommon s1 s2 = length (List.filter (fun x => setHas s2 x) s1).
Proof.
  unfold countCommon. induction s1 as [|x s1 IH]; simpl; [done|].
  destruct (setHas s2 x); simpl; [rewrite countCommon_acc|]; by rewrite IH.
Qed.

Lemma common_members (s1 s2 : list string) (x : string) :
  x ∈ List.filter (fun x => setHas s2 x) s1 <-> x ∈ s1 /\ x ∈ s2.
Proof. by rewrite list_elem_of_In, filter_In, <- list_elem_of_In, setHas_iff. Qed.

Lemma countCommon_sym (s1 s2 : list string) :
  NoDup s1 -> NoDup s2 -> countCommon s1 s2 = countCommon s2 s1.
Proof.
  intros H1 H2. rewrite !countCommon_filter. apply Permutation_length.
  apply NoDup_Permutation.
  - by apply NoDup_ListNoDup, List.NoDup_filter, NoDup_ListNoDup.
  - by apply NoDup_ListNoDup, List.NoDup_filter, NoDup_ListNoDup.
  - intros x. rewrite !common_members. tauto.
Qed.

Lemma filter_length_le {A : Type} (f : A -> bool) (l : list A) :
  (length (List.filter f l) <= length l)%nat.
Proof. induction l as [|x l IH]; simpl; [lia|]. destruct (f x); simpl; lia. Qed.

Lemma filter_keeps_all {A : Type} (f : A -> bool) (l : list A) :
  length (List.filter f l) = length l -> forall x, x ∈ l -> f x = true.
Proof.
  induction l as [|y l IH]; simpl; intros Hlen x Hx; [inversion Hx|].
  pose proof (filter_length_le f l).
  destruct (f y) eqn:E; simpl in Hlen; [|lia].
  apply elem_of_cons in Hx as [->|Hx]; [done|]. apply IH; [lia|done].
Qed.

Lemma classOverlap_sym (class1 class2 : string) :
  classOverlap class1 class2 = classOverlap class2 class1.
Proof.
  unfold classOverlap.
  by rewrite Nat.max_comm, (countCommon_sym _ _ (newSet_NoDup _) (newSet_NoDup _)).
Qed.

Lemma optEqb_sym (a b : option string) : optEqb a b = optEqb b a.
Proof. destruct a, b; simpl; try done. apply String.eqb_sym. Qed.

(** X2. The scorer treats its two arguments as peers: the score of (a, b)
    is the score of (b, a). *)
Theorem score_is_symmetric (a b : DOMElementNode) :
  calculateSimilarityScore a b = calculateSimilarityScore b a.
Proof.
  unfold calculateSimilarityScore, similarityTerms.
  rewrite (String.eqb_sym (tagName a)), (String.eqb_sym (xpath a)).
  rewrite (optEqb_sym (attrGet "id" (attributes a))).
  rewrite (andb_comm (truthy (attrGet "id" (attributes a)))).
  destruct (attrGet "class" (attributes a)) as [c1|];
    destruct (attrGet "class" (attributes b)) as [c2|]; try reflexivity.
  by rewrite (andb_comm (negb (String.eqb c1 ""))), (classOverlap_sym c1 c2).
Qed.

(** X3. The class signal is at its maximum of 2 exactly when the two class
    attributes hold the same set of tokens; the order of the tokens and
    their repetitions do not count. *)
Theorem class_signal_full_iff_same_tokens (a b : DOMElementNode) (class1 class2 : string) :
  attrGet "class" (attributes a) = Some class1 ->
  attrGet "class" (attributes b) = Some class2 ->
  class1 <> "" ->
  class2 <> "" ->
  ((classSignal a b == 2)%Q
   <-> forall token,
         token ∈ splitWhiteSpace class1 <-> token ∈ splitWhiteSpace class2).
Proof.
  intros E1 E2 Hne1 Hne2. unfold classSignal. rewrite E1, E2.
  apply String.eqb_neq in Hne1, Hne2. rewrite Hne1, Hne2. simpl.
  unfold classOverlap.
  set (s1 := newSet (splitWhiteSpace class1)).
  set (s2 := newSet (splitWhiteSpace class2)).
  assert (Hd1 : NoDup s1) by apply newSet_NoDup.
  assert (Hd2 : NoDup s2) by apply newSet_NoDup.
  assert (Hpos : (0 < length s1)%nat) by apply newSet_nonempty, splitAux_nonempty.
  assert (Hsets : (forall token, token ∈ splitWhiteSpace class1
                                 <-> token ∈ splitWhiteSpace class2)
                  <-> (forall token, token ∈ s1 <-> token ∈ s2)).
  { unfold s1, s2. split; intros H t; specialize (H t);
      rewrite ?newSet_elem in *; done. }
  rewrite Hsets. clear Hsets.
  destruct (Nat.ltb_spec 0 (Nat.max (length s1) (length s2))) as [Hm|Hm]; [|lia].
  pose proof (natQ_pos _ Hm) as HmQ.
  split.
  - intros H.
    assert (Hq : (natQ (countCommon s1 s2) == natQ (Nat.max (length s1) (length s2)))%Q).
    { pose proof (Qmult_div_r (natQ (countCommon s1 s2))
                    (natQ (Nat.max (length s1) (length s2)))) as Hd.
      assert (Hnz : ~ (natQ (Nat.max (length s1) (length s2)) == 0)%Q) by lra.
      specialize (Hd Hnz).
      set (q := (natQ (countCommon s1 s2) / natQ (Nat.max (length s1) (length s2)))%Q) in *.
      assert (Hone : (q == 1)%Q) by lra.
      assert (Hmul : (natQ (Nat.max (length s1) (length s2)) * q
                      == natQ (Nat.max (length s1) (length s2)) * 1)%Q).
      { apply Qmult_comp; [reflexivity|exact Hone]. }
      lra. }
    assert (Hc : countCommon s1 s2 = Nat.max (length s1) (length s2)).
    { unfold natQ, Qeq in Hq. simpl in Hq. lia. }
    pose proof (countCommon_le s1 s2) as Hle1.
    pose proof (countCommon_le s2 s1) as Hle2.
    rewrite <- (countCommon_sym s1 s2 Hd1 Hd2) in Hle2.
    assert (Hin1 : forall t, t ∈ s1 -> t ∈ s2).
    { intros t Ht. apply setHas_iff.
      apply (filter_keeps_all (fun x => setHas s2 x) s1); [|done].
      rewrite <- countCommon_filter. lia. }
    assert (Hin2 : forall t, t ∈ s2 -> t ∈ s1).
    { intros t Ht. apply setHas_iff.
      apply (filter_keeps_all (fun x => setHas s1 x) s2); [|done].
      rewrite <- countCommon_filter, <- (countCommon_sym s1 s2 Hd1 Hd2). lia. }
    intros t. split; auto.
  - intros Hsame.
    assert (Hperm : s1 ≡ₚ s2) by (by apply NoDup_Permutation).
    rewrite <- (Permutation_length Hperm), Nat.max_id.
    rewrite countCommon_incl by (intros x; apply Hsame).
    pose proof (natQ_pos _ Hpos). field. lra.
Qed.

Lemma class_signal_full_iff_same_tokens_witness :
  (classSignal classesAB classesBAA == 2)%Q /\
  (forall token, token ∈ splitWhiteSpace "a b" <-> token ∈ splitWhiteSpace "b  a a").
Proof.
  assert (H : (classSignal classesAB classesBAA == 2)%Q) by (vm_compute; reflexivity).
  split; [exact H|].
  apply (class_signal_full_iff_same_tokens classesAB classesBAA "a b" "b  a a");
    [reflexivity|reflexivity|discriminate|discriminate|exact H].
Defined.

(** White space is what the class [\s] matches: a no-break space, an em
    space, an ideographic space, a line separator or a byte order mark
    separates tokens like a blank does, a zero-width space does not. *)
Example wide_white_space_separates_tokens :
  splitWhiteSpace ("a" ++ noBreakSpace ++ "b") = ["a"; "b"] /\
  (classSignal classesAB classesNoBreak == 2)%Q /\
  Binary64.calculateSimilarityScore classesAB classesNoBreak
  = Binary64.calculateSimilarityScore classesAB classesAB /\
  splitWhiteSpace
    ("a" ++ utf8 226 128 131 ++ "b" ++ utf8 227 128 128 ++ utf8 226 128 168 ++ "c"
       ++ utf8 239 187 191 ++ "d" ++ utf8 226 128 139 ++ "e")
  = ["a"; "b"; "c"; ("d" ++ utf8 226 128 139 ++ "e")%string].
Proof. repeat split; vm_compute; reflexivity. Qed.

(** ** What the scan of the candidates returns *)

(** X4. An old child stays unmatched exactly when none of the new children
    that are still unprocessed scores above 0.7 against it; and when it is
    matched, its partner is an unprocessed new child that scores above 0.7
    and that no other unprocessed new child outscores.  The scores are the
    doubles the scorer computes. *)
Theorem unmatched_iff_no_candidate_above_threshold (oldChild : DOMElementNode)
    (processedNew : gset nat) (news : list DOMElementNode) :
  (Binary64.acceptedMatch (Binary64.findBestMatch oldChild processedNew news) = None
   <-> Forall (fun c => ref c ∈ processedNew \/
                 (Binary64.threshold
                  <? Binary64.calculateSimilarityScore oldChild c)%float = false) news) /\
  (forall best,
     Binary64.acceptedMatch (Binary64.findBestMatch oldChild processedNew news) = Some best ->
     best ∈ news /\ (ref best ∉ processedNew) /\
     (Binary64.threshold <? Binary64.calculateSimilarityScore oldChild best)%float = true /\
     Forall (fun c => ref c ∈ processedNew \/
               (Binary64.calculateSimilarityScore oldChild best
                <? Binary64.calculateSimilarityScore oldChild c)%float = false) news).
Proof.
  destruct (Binary64.findBestMatch oldChild processedNew news) as [bm s] eqn:E.
  pose proof (double_scan_max _ _ _ _ _ _ _ E) as [_ Hmax].
  split.
  - destruct bm as [b|]; simpl.
    + apply double_best_some in E as (Hin & Hfresh & -> & Hpos).
      destruct (Binary64.threshold <? Binary64.calculateSimilarityScore oldChild b)%float
        eqn:Hs.
      * split; [done|]. intros Hall. rewrite Forall_forall in Hall.
        destruct (Hall b Hin) as [?|?]; [done|congruence].
      * split; [|done]. intros _. eapply Forall_impl; [exact Hmax|].
        intros c [?|Hc]; [by left|right].
        destruct (Binary64.threshold <? Binary64.calculateSimilarityScore oldChild c)%float
          eqn:Hc'; [|done].
        destruct (double_lt_cotrans _ _ _ _ Hpos Hc'); congruence.
    + split; [|done]. intros _.
      apply double_scan_none in E as [_ ->].
      eapply Forall_impl; [exact Hmax|]. intros c [?|Hc]; [by left|right].
      destruct (Binary64.threshold <? Binary64.calculateSimilarityScore oldChild c)%float
        eqn:Hc'; [|done].
      assert (Hzero : (0 <? Binary64.threshold)%float = true) by reflexivity.
      by rewrite (double_lt_trans 0%float Binary64.threshold _ Hzero Hc') in Hc.
  - intros best Hacc. destruct bm as [b|]; simpl in Hacc; [|done].
    destruct (Binary64.threshold <? s)%float eqn:Hs; [|done]. injection Hacc as ->.
    apply double_best_some in E as (Hin & Hfresh & -> & _). done.
Qed.

(** ** Matched pairs carry the same id *)

Lemma optEqb_eq (a b : option string) : optEqb a b = true -> a = b.
Proof.
  destruct a, b; simpl; try done. by intros ->%String.eqb_eq.
Qed.

Lemma aboveThreshold_sameId (a b : DOMElementNode) : aboveThreshold (a, b) -> sameId a b.
Proof.
  unfold aboveThreshold, sameId, hasId. simpl. rewrite score_signals.
  intros Habove.
  pose proof (tagSignal_range a b) as [_ Ht].
  pose proof (xpathSignal_range a b) as [_ Hx].
  pose proof (classSignal_range a b) as [_ Hc].
  unfold Qdiv in Habove. change (/ 11)%Q with (1 # 11)%Q in Habove.
  unfold idSignal in Habove. simpl in Habove.
  destruct (truthy (attrGet "id" (attributes a))) eqn:E1;
    destruct (truthy (attrGet "id" (attributes b))) eqn:E2;
    destruct (optEqb (attrGet "id" (attributes a)) (attrGet "id" (attributes b))) eqn:E3;
    simpl in Habove; try (exfalso; lra).
  repeat split. by apply optEqb_eq.
Qed.

Section SharedIds.

Context {DOMHistoryElement : Type}.
Variable convert : DOMElementNode -> DOMHistoryElement.
Variable compare : DOMHistoryElement -> DOMElementNode -> bool.

Abbreviation identical := (identicalNodes DOMHistoryElement convert compare).
Abbreviation diffTrees := (compareDOMTrees DOMHistoryElement convert compare).

(** X5. Apart from the two roots, the comparator only ever pairs nodes
    that carry the same non-empty [id]: every entry of [modified] is the
    pair of the roots or joins two nodes with one and the same non-empty
    [id], and every node in [unchanged] is the old root or has a
    non-empty [id]. *)
Theorem matched_pairs_share_their_id (oldTree newTree : DOMElementNode) :
  Forall (fun m => (oldElement m = oldTree /\ newElement m = newTree) \/
                   sameId (oldElement m) (newElement m))
    (modified (diffTrees oldTree newTree)) /\
  Forall (fun e => e = oldTree \/ hasId e) (unchanged (diffTrees oldTree newTree)).
Proof.
  destruct (compareDOMTrees_outcome convert compare oldTree newTree)
    as (pairs & foundOld & foundNew & E & _ & Habove & _).
  simpl in E. rewrite E. simpl. rewrite Forall_forall in Habove. split.
  - apply Forall_forall. intros m (p & Hp & Ho & Hn)%modifiedOf_from.
    apply elem_of_cons in Hp as [->|Hp]; [by left|right].
    rewrite Ho, Hn. apply aboveThreshold_sameId. destruct p. by apply Habove.
  - apply Forall_forall. intros e (p & Hp & <-)%unchangedOf_from.
    apply elem_of_cons in Hp as [->|Hp]; [by left|right].
    destruct p as [a b]. by apply (aboveThreshold_sameId a b), Habove.
Qed.

End SharedIds.

(** ** Document order *)

Lemma appendedInOrder_refl (nodes : list DOMElementNode) (st : DiffState) :
  appendedInOrder nodes st st.
Proof.
  exists [], []. rewrite !app_nil_r. repeat split; apply sublist_nil_l.
Qed.

Lemma appendedInOrder_app (xs ys : list DOMElementNode) (st st' st'' : DiffState) :
  appendedInOrder xs st st' -> appendedInOrder ys st' st'' ->
  appendedInOrder (xs ++ ys) st st''.
Proof.
  intros (U1 & M1 & Ha1 & Hr1 & Hu1 & Hm1 & Hs1 & Ht1)
         (U2 & M2 & Ha2 & Hr2 & Hu2 & Hm2 & Hs2 & Ht2).
  exists (U1 ++ U2), (M1 ++ M2).
  rewrite Ha2, Hr2, Hu2, Hm2, Ha1, Hr1, Hu1, Hm1, !app_assoc, map_app.
  repeat split; by apply sublist_app.
Qed.

Lemma appendedInOrder_skip (x : DOMElementNode) (xs : list DOMElementNode)
    (st st' : DiffState) :
  appendedInOrder xs st st' -> appendedInOrder (x :: xs) st st'.
Proof.
  intros (U & M & Ha & Hr & Hu & Hm & Hs & Ht). exists U, M.
  repeat split; try done; by apply sublist_cons.
Qed.

Section Order.

Context {DOMHistoryElement : Type}.
Variable convert : DOMElementNode -> DOMHistoryElement.
Variable compare : DOMHistoryElement -> DOMElementNode -> bool.

Abbreviation identical := (identicalNodes DOMHistoryElement convert compare).
Abbreviation classify := (classifyPair DOMHistoryElement convert compare).
Abbreviation matchNodes := (compareNodes DOMHistoryElement convert compare).
Abbreviation diffTrees := (compareDOMTrees DOMHistoryElement convert compare).

Lemma classifyPair_in_order (oldNode newNode : DOMElementNode) (st : DiffState) :
  appendedInOrder [oldNode] st (classify oldNode newNode st).
Proof.
  unfold classifyPair. destruct (identical oldNode newNode); simpl.
  - exists [oldNode], []. simpl. rewrite app_nil_r.
    repeat split; [done|apply sublist_nil_l].
  - eexists [], [_]. simpl. rewrite app_nil_r.
    repeat split; [apply sublist_nil_l|done].
Qed.

Lemma compareChildNodesWith_in_order (news : list DOMElementNode)
    (olds : list DOMBaseNode) :
  Forall (fun c => forall newNode st,
            appendedInOrder (elementsOf c) st (matchNodes c newNode st))
    (elementChildren olds) ->
  forall st,
    appendedInOrder (elementsOfChildren olds) st
      (compareChildNodesWith matchNodes news olds st).
Proof.
  induction olds as [|[txt|c] olds IH]; intros Hkids st.
  - apply appendedInOrder_refl.
  - by apply IH.
  - simpl in Hkids. apply Forall_cons in Hkids as [Hc Hkids].
    rewrite elementsOfChildren_element.
    assert (Hskip : appendedInOrder (elementsOf c ++ elementsOfChildren olds) st
                      (compareChildNodesWith matchNodes news olds st)).
    { destruct (IH Hkids st) as (U & M & Ha & Hr & Hu & Hm & Hs & Ht).
      exists U, M. repeat split; try done; by apply sublist_inserts_l. }
    simpl. destruct (decide (ref c ∈ processedOldElements st)); [exact Hskip|].
    destruct (acceptedMatch (findBestMatch c (processedNewElements st) news))
      as [best|]; [|exact Hskip].
    eapply appendedInOrder_app; [apply Hc|by apply IH].
Qed.

Lemma compareNodes_in_order (oldNode : DOMElementNode) :
  forall newNode st,
    appendedInOrder (elementsOf oldNode) st (matchNodes oldNode newNode st).
Proof.
  induction oldNode as [oldNode IH] using DOMElementNode_tree_ind.
  intros newNode st. rewrite compareNodes_unfold, elementsOf_unfold.
  change (oldNode :: elementsOfChildren (children oldNode))
    with ([oldNode] ++ elementsOfChildren (children oldNode)).
  eapply appendedInOrder_app; [apply classifyPair_in_order|].
  by apply compareChildNodesWith_in_order.
Qed.

End Order.

Section SweepOrder.

Variable push : DOMElementNode -> DOMDiffResult -> DOMDiffResult.
Variable visit : DOMElementNode -> gset nat * DOMDiffResult -> gset nat * DOMDiffResult.
Hypothesis visit_unfold : forall node st,
  visit node st
  = forEachElementChild visit (children node)
      (if decide (ref node ∈ fst st) then st
       else ({[ref node]} ∪ fst st, push node (snd st))).

Lemma sweep_children_in_order (cs : list DOMBaseNode) :
  Forall (fun c => forall st, exists found,
            snd (visit c st) = pushAll push found (snd st) /\
            sublist found (elementsOf c))
    (elementChildren cs) ->
  forall st, exists found,
    snd (forEachElementChild visit cs st) = pushAll push found (snd st) /\
    sublist found (elementsOfChildren cs).
Proof.
  induction cs as [|[txt|c] cs IH]; intros Hkids st.
  - exists []. split; [done|constructor].
  - by apply IH.
  - simpl in Hkids. apply Forall_cons in Hkids as [Hc Hkids].
    destruct (Hc st) as (f1 & E1 & Hs1).
    destruct (IH Hkids (visit c st)) as (f2 & E2 & Hs2).
    exists (f1 ++ f2). simpl. rewrite E2, E1. split.
    + unfold pushAll. by rewrite fold_left_app.
    + rewrite elementsOfChildren_element. by apply sublist_app.
Qed.

Lemma sweep_in_order (node : DOMElementNode) :
  forall st, exists found,
    snd (visit node st) = pushAll push found (snd st) /\
    sublist found (elementsOf node).
Proof.
  induction node as [node IH] using DOMElementNode_tree_ind.
  intros st. rewrite visit_unfold, elementsOf_unfold.
  destruct (decide (ref node ∈ st.1)).
  - destruct (sweep_children_in_order (children node) IH st) as (found & E & Hs).
    exists found. split; [done|]. by apply sublist_cons.
  - destruct (sweep_children_in_order (children node) IH
                ({[ref node]} ∪ st.1, push node st.2)) as (found & E & Hs).
    exists (node :: found). split; [exact E|]. by apply sublist_skip.
Qed.

End SweepOrder.

Section OrderOfResult.

Context {DOMHistoryElement : Type}.
Variable convert : DOMElementNode -> DOMHistoryElement.
Variable compare : DOMHistoryElement -> DOMElementNode -> bool.

Abbreviation identical := (identicalNodes DOMHistoryElement convert compare).
Abbreviation diffTrees := (compareDOMTrees DOMHistoryElement convert compare).

Lemma compareDOMTrees_in_order (oldTree newTree : DOMElementNode) :
  sublist (unchanged (diffTrees oldTree newTree)) (elementsOf oldTree) /\
  sublist (map oldElement (modified (diffTrees oldTree newTree))) (elementsOf oldTree) /\
  sublist (removed (diffTrees oldTree newTree)) (elementsOf oldTree) /\
  sublist (added (diffTrees oldTree newTree)) (elementsOf newTree).
Proof.
  unfold compareDOMTrees. fold freshState.
  destruct (compareNodes_in_order convert compare oldTree newTree freshState)
    as (U & M & Ha & Hr & Hu & Hm & Hs & Ht).
  set (st := compareNodes DOMHistoryElement convert compare oldTree newTree freshState) in *.
  destruct (sweep_in_order pushRemoved findRemovedElements findRemovedElements_unfold
              oldTree (processedOldElements st, result st)) as (foundOld & Eo & Hso).
  destruct (findRemovedElements oldTree (processedOldElements st, result st))
    as [p1 r1]. simpl in Eo. subst r1.
  destruct (sweep_in_order pushAdded findAddedElements findAddedElements_unfold
              newTree (processedNewElements st, pushAll pushRemoved foundOld (result st)))
    as (foundNew & En & Hsn).
  destruct (findAddedElements newTree
              (processedNewElements st, pushAll pushRemoved foundOld (result st)))
    as [p2 r2]. simpl in En. subst r2.
  rewrite pushAll_added, pushAll_removed. simpl.
  rewrite Ha, Hr, Hu, Hm. simpl. done.
Qed.

(** X6. Every list of the result follows the document order of its tree:
    [unchanged], the old sides of [modified] and [removed] are
    subsequences of the pre-order listing of the old tree, and [added] is
    a subsequence of the pre-order listing of the new tree. *)
Theorem result_lists_follow_document_order (oldTree newTree : DOMElementNode) :
  sublist (unchanged (diffTrees oldTree newTree)) (elementsOf oldTree) /\
  sublist (map oldElement (modified (diffTrees oldTree newTree))) (elementsOf oldTree) /\
  sublist (removed (diffTrees oldTree newTree)) (elementsOf oldTree) /\
  sublist (added (diffTrees oldTree newTree)) (elementsOf newTree).
Proof. apply compareDOMTrees_in_order. Qed.

Lemma sublist_full {A : Type} (l k : list A) :
  sublist l k -> length l = length k -> l = k.
Proof.
  induction 1 as [|x l k Hs IH|x l k Hs IH]; simpl; intros Hlen; [done| |].
  - f_equal. apply IH. lia.
  - apply sublist_length in Hs. lia.
Qed.

Lemma sublist_without_head {A : Type} (x : A) (l k : list A) :
  sublist l (x :: k) -> x ∉ l -> sublist l k.
Proof.
  intros [H|(l' & -> & _)]%sublist_cons_r Hx; [done|]. exfalso. apply Hx. left.
Qed.

(** What is left of a tree once the root is taken out of a partition. *)
Lemma partition_below_root (root : DOMElementNode)
    (found rest kids : list DOMElementNode) :
  found ++ root :: rest ≡ₚ root :: kids -> found ++ rest ≡ₚ kids.
Proof.
  intros H. rewrite <- Permutation_middle in H. by apply Permutation_cons_inv in H.
Qed.

(** X7. Two well-formed snapshots of which one has no [id] below its root
    have nothing in common for the comparator except the roots: every
    other old node is reported removed and every other new node is reported
    added, in document order, and the pair of the roots is the only entry
    of [unchanged] and [modified] together. *)
Theorem without_ids_nothing_is_matched (oldTree newTree : DOMElementNode) :
  wellFormed oldTree ->
  wellFormed newTree ->
  Forall (fun e => ~ hasId e) (elementsOfChildren (children oldTree)) \/
  Forall (fun e => ~ hasId e) (elementsOfChildren (children newTree)) ->
  removed (diffTrees oldTree newTree) = elementsOfChildren (children oldTree) /\
  added (diffTrees oldTree newTree) = elementsOfChildren (children newTree) /\
  (length (unchanged (diffTrees oldTree newTree))
   + length (modified (diffTrees oldTree newTree)) = 1)%nat.
Proof.
  intros Hwo Hwn Hnone.
  destruct (compareDOMTrees_partition convert compare oldTree newTree Hwo Hwn)
    as (pairs & Hm & Hu & Hold & Hnew & Habove).
  destruct (compareDOMTrees_in_order oldTree newTree) as (_ & _ & Hro & Hrn).
  simpl in Hold, Hnew. rewrite elementsOf_unfold in Hold, Hnew, Hro, Hrn.
  apply partition_below_root in Hold. apply partition_below_root in Hnew.
  assert (Hdo : NoDup (elementsOf oldTree)) by apply (NoDup_fmap_1 ref), Hwo.
  assert (Hdn : NoDup (elementsOf newTree)) by apply (NoDup_fmap_1 ref), Hwn.
  rewrite elementsOf_unfold in Hdo, Hdn.
  apply NoDup_cons in Hdo as [Hrooto _]. apply NoDup_cons in Hdn as [Hrootn _].
  assert (Hpairs : pairs = []).
  { destruct pairs as [|[a b] rest]; [done|exfalso].
    apply Forall_cons in Habove as [Hab _].
    apply aboveThreshold_sameId in Hab as (Ha & Hb & _).
    destruct Hnone as [Hno|Hno]; rewrite Forall_forall in Hno.
    - apply (Hno a); [|done]. rewrite <- Hold. simpl. set_solver.
    - apply (Hno b); [|done]. rewrite <- Hnew. simpl. set_solver. }
  subst pairs. simpl in Hold, Hnew. rewrite app_nil_r in Hold, Hnew.
  split; [|split].
  - apply sublist_full; [|by apply Permutation_length].
    apply (sublist_without_head oldTree); [done|]. by rewrite Hold.
  - apply sublist_full; [|by apply Permutation_length].
    apply (sublist_without_head newTree); [done|]. by rewrite Hnew.
  - rewrite Hu, Hm. unfold unchangedOf, modifiedOf. simpl.
    by destruct (identical oldTree newTree).
Qed.

(** X8. The counts of the result add up: removed, modified and unchanged
    entries together are as many as the old tree has element nodes, added,
    modified and unchanged entries together are as many as the new tree
    has, and so the two trees differ in size by the difference of added
    and removed. *)
Theorem result_counts_add_up (oldTree newTree : DOMElementNode) :
  wellFormed oldTree ->
  wellFormed newTree ->
  let r := diffTrees oldTree newTree in
  (length (removed r) + length (modified r) + length (unchanged r)
   = length (elementsOf oldTree))%nat /\
  (length (added r) + length (modified r) + length (unchanged r)
   = length (elementsOf newTree))%nat /\
  (length (elementsOf oldTree) + length (added r)
   = length (elementsOf newTree) + length (removed r))%nat.
Proof.
  intros Hwo Hwn r. subst r.
  destruct (compareDOMTrees_partition convert compare oldTree newTree Hwo Hwn)
    as (pairs & Hm & Hu & Hold & Hnew & _).
  apply Permutation_length in Hold, Hnew.
  rewrite length_app, length_map in Hold, Hnew.
  set (all := (oldTree, newTree) :: pairs) in *.
  assert (Hsplit : (length (modifiedOf identical all) + length (unchangedOf identical all)
                    = length all)%nat).
  { pose proof (split_by_identity identical fst all) as Hp.
    apply Permutation_length in Hp.
    rewrite length_app, !length_map in Hp. unfold modifiedOf, unchangedOf.
    by rewrite !length_map. }
  rewrite Hm, Hu. lia.
Qed.

End OrderOfResult.

(** ** A second sweep finds nothing *)

Section SweepTwice.

Variable push : DOMElementNode -> DOMDiffResult -> DOMDiffResult.
Variable visit : DOMElementNode -> gset nat * DOMDiffResult -> gset nat * DOMDiffResult.
Hypothesis visit_unfold : forall node st,
  visit node st
  = forEachElementChild visit (children node)
      (if decide (ref node ∈ fst st) then st
       else ({[ref node]} ∪ fst st, push node (snd st))).

Lemma sweep_marks_all (node : DOMElementNode) (st : gset nat * DOMDiffResult) :
  forall e, e ∈ elementsOf node -> ref e ∈ fst (visit node st).
Proof.
  destruct st as [p r].
  destruct (sweepOutcome_node push visit visit_unfold node p r) as (found & E & _ & _ & Hall).
  rewrite E. exact Hall.
Qed.

Lemma sweep_twice (node : DOMElementNode) (st : gset nat * DOMDiffResult) :
  visit node (visit node st) = visit node st.
Proof.
  pose proof (sweep_marks_all node st) as Hall.
  destruct (visit node st) as [p r].
  by apply (sweep_nothing_left push visit visit_unfold).
Qed.

Lemma sweep_keeps_processed (node : DOMElementNode) (st : gset nat * DOMDiffResult) :
  fst st ⊆ fst (visit node st).
Proof.
  destruct st as [p r].
  destruct (sweepOutcome_node push visit visit_unfold node p r) as (found & E & _).
  rewrite E. simpl. set_solver.
Qed.

End SweepTwice.

(** X9. After [findRemovedElements] or [findAddedElements] has swept a
    tree, every element node of the tree is in the exclusion set, nothing
    that was in it has left it, and sweeping the same tree again changes
    neither the set nor the result. *)
Theorem sweep_is_complete_and_idempotent (node : DOMElementNode)
    (st : gset nat * DOMDiffResult) :
  (forall e, e ∈ elementsOf node -> ref e ∈ fst (findRemovedElements node st)) /\
  fst st ⊆ fst (findRemovedElements node st) /\
  findRemovedElements node (findRemovedElements node st) = findRemovedElements node st /\
  (forall e, e ∈ elementsOf node -> ref e ∈ fst (findAddedElements node st)) /\
  fst st ⊆ fst (findAddedElements node st) /\
  findAddedElements node (findAddedElements node st) = findAddedElements node st.
Proof.
  split; [|split; [|split; [|split; [|split]]]].
  - apply (sweep_marks_all pushRemoved), findRemovedElements_unfold.
  - apply (sweep_keeps_processed pushRemoved), findRemovedElements_unfold.
  - apply (sweep_twice pushRemoved), findRemovedElements_unfold.
  - apply (sweep_marks_all pushAdded), findAddedElements_unfold.
  - apply (sweep_keeps_processed pushAdded), findAddedElements_unfold.
  - apply (sweep_twice pushAdded), findAddedElements_unfold.
Qed.

(** ** Witnesses on sample snapshots *)

Lemma without_ids_nothing_is_matched_witness :
  wellFormed noIdTree /\ wellFormed idTreeLater /\
  removed (compareDOMTrees DOMElementNode specConvert specCompare noIdTree idTreeLater)
  = elementsOfChildren (children noIdTree) /\
  added (compareDOMTrees DOMElementNode specConvert specCompare noIdTree idTreeLater)
  = elementsOfChildren (children idTreeLater).
Proof.
  assert (Hold : wellFormed noIdTree) by (by apply (bool_decide_unpack _)).
  assert (Hnew : wellFormed idTreeLater) by (by apply (bool_decide_unpack _)).
  assert (Hnone : Forall (fun e => ~ hasId e) (elementsOfChildren (children noIdTree))).
  { vm_compute. each_candidate ltac:(discriminate). }
  split; [exact Hold|]. split; [exact Hnew|].
  destruct (without_ids_nothing_is_matched specConvert specCompare noIdTree idTreeLater
              Hold Hnew (or_introl Hnone)) as (Hr & Ha & _).
  split; [exact Hr|exact Ha].
Defined.

Lemma result_counts_add_up_witness :
  wellFormed idTree /\ wellFormed idTreeLater /\
  let r := compareDOMTrees DOMElementNode specConvert specCompare idTree idTreeLater in
  (length (elementsOf idTree) + length (added r)
   = length (elementsOf idTreeLater) + length (removed r))%nat.
Proof.
  assert (Hold : wellFormed idTree) by (by apply (bool_decide_unpack _)).
  assert (Hnew : wellFormed idTreeLater) by (by apply (bool_decide_unpack _)).
  split; [exact Hold|]. split; [exact Hnew|].
  destruct (result_counts_add_up specConvert specCompare idTree idTreeLater Hold Hnew)
    as (_ & _ & H).
  exact H.
Defined.

(** X10. The self-diff of a well-formed snapshot reports nothing removed
    only if every element node other than the root carries a non-empty
    [id]. *)
Theorem clean_self_diff_needs_ids {H : Type} (convert : DOMElementNode -> H)
    (compare : H -> DOMElementNode -> bool) (tree : DOMElementNode) :
  wellFormed tree ->
  removed (compareDOMTrees H convert compare tree tree) = [] ->
  Forall hasId (elementsOfChildren (children tree)).
Proof. apply self_diff_needs_ids. Qed.

Lemma clean_self_diff_needs_ids_witness :
  wellFormed idTree /\
  removed (compareDOMTrees DOMElementNode specConvert specCompare idTree idTree) = [] /\
  Forall hasId (elementsOfChildren (children idTree)).
Proof.
  assert (Hwf : wellFormed idTree) by (by apply (bool_decide_unpack _)).
  assert (Hnone : removed (compareDOMTrees DOMElementNode specConvert specCompare
                             idTree idTree) = []) by (vm_compute; reflexivity).
  split; [exact Hwf|]. split; [exact Hnone|].
  exact (clean_self_diff_needs_ids specConvert specCompare idTree Hwf Hnone).
Defined.

(** ** Report *)

Lemma length_modificationLines (f : nat -> nat) (mods : list Modification) :
  length (concat (imap (fun i => modificationLines (f i)) mods))
  = (length mods + changeCount mods)%nat.
Proof.
  unfold changeCount. revert f. induction mods as [|m mods IH]; intros f; simpl; [done|].
  rewrite length_app, length_map.
  change (imap ((fun i => modificationLines (f i)) ∘ S) mods)
    with (imap (fun i => modificationLines (f (S i))) mods).
  rewrite (IH (fun i => f (S i))). lia.
Qed.

Lemma modificationLines_nil (mods : list Modification) :
  concat (imap modificationLines mods) = [] -> mods = [].
Proof. by destruct mods. Qed.

(** X11. The report starts with five heading lines, the title and the four
    counts; then come, each only when its list is not empty, the section
    of the added nodes, the section of the removed nodes and the section
    of the modified entries, in this order.  A section is its heading, led
    by a line feed, followed by the numbered lines of its nodes; an entry
    of [modified] gives the numbered line of its old element and one
    indented line per change.  [unchanged] is only counted: the nodes in it
    do not show. *)
Theorem report_layout (result : DOMDiffResult) :
  formatLines result
  = ["===== DOM树变化分析 =====";
     "新增元素: " ++ showNat (length (added result)) ++ "个";
     "删除元素: " ++ showNat (length (removed result)) ++ "个";
     "修改元素: " ++ showNat (length (modified result)) ++ "个";
     "未变元素: " ++ showNat (length (unchanged result)) ++ "个"]%string
    ++ reportSection (lineFeed ++ "----- 新增元素 -----")
         (imap elementLine (added result))
    ++ reportSection (lineFeed ++ "----- 删除元素 -----")
         (imap elementLine (removed result))
    ++ reportSection (lineFeed ++ "----- 修改元素 -----")
         (concat (imap modificationLines (modified result))) /\
  (forall i elem,
     added result !! i = Some elem ->
     imap elementLine (added result) !! i
     = Some (showNat (i + 1) ++ ". <" ++ tagName elem ++ "> "
               ++ (if String.eqb (xpath elem) "" then ""
                   else "(" ++ xpath elem ++ ")"))%string) /\
  (forall i elem,
     removed result !! i = Some elem ->
     imap elementLine (removed result) !! i
     = Some (showNat (i + 1) ++ ". <" ++ tagName elem ++ "> "
               ++ (if String.eqb (xpath elem) "" then ""
                   else "(" ++ xpath elem ++ ")"))%string) /\
  (forall i entry,
     modified result !! i = Some entry ->
     imap modificationLines (modified result) !! i
     = Some (elementLine i (oldElement entry)
               :: map (fun change => ("   - " ++ change)%string) (changes entry))) /\
  length (formatLines result)
  = (5 + sectionLines (length (added result)) 0
       + sectionLines (length (removed result)) 0
       + sectionLines (length (modified result)) (changeCount (modified result)))%nat /\
  (forall others : list DOMElementNode,
     length others = length (unchanged result) ->
     formatLines {| added := added result; removed := removed result;
                    modified := modified result; unchanged := others |}
     = formatLines result).
Proof.
  split; [|split; [|split; [|split; [|split]]]].
  - unfold formatLines, reportSection.
    destruct (added result) as [|a adds]; destruct (removed result) as [|r rems];
      destruct (modified result) as [|m mods];
      cbn [added removed modified unchanged length Nat.ltb Nat.leb imap concat app
           modificationLines];
      rewrite <- ?app_assoc, ?app_nil_r; reflexivity.
  - intros i elem Hi. by rewrite list_lookup_imap, Hi.
  - intros i elem Hi. by rewrite list_lookup_imap, Hi.
  - intros i entry Hi. by rewrite list_lookup_imap, Hi.
  - unfold formatLines.
    assert (Hm : length (concat (imap modificationLines (modified result)))
                 = (length (modified result) + changeCount (modified result))%nat)
      by exact (length_modificationLines (fun i => i) (modified result)).
    destruct (Nat.ltb_spec 0 (length (added result))) as [Ha|Ha];
      destruct (Nat.ltb_spec 0 (length (removed result))) as [Hr|Hr];
      destruct (Nat.ltb_spec 0 (length (modified result))) as [Hc|Hc];
      rewrite ?length_app, ?length_imap, ?Hm; simpl length;
      destruct (length (added result)); destruct (length (removed result));
      destruct (length (modified result)); simpl; lia.
  - intros others Hlen. unfold formatLines. cbn [added removed modified unchanged].
    by rewrite Hlen.
Qed.

(** The report on a snapshot and its later version. *)
Example report_on_the_test_trees :
  formatLines
    (Binary64.compareDOMTrees DOMElementNode specConvert specCompare idTree idTreeLater)
  = ["===== DOM树变化分析 =====";
     "新增元素: 1个";
     "删除元素: 0个";
     "修改元素: 2个";
     "未变元素: 3个";
     lineFeed ++ "----- 新增元素 -----";
     "1. <span> (/html/body/div/span)";
     lineFeed ++ "----- 修改元素 -----";
     "1. <div> (/html/body/div)";
     "   - 属性 class 从 " ++ quote ++ "container" ++ quote ++ " 变为 "
       ++ quote ++ "container modified" ++ quote;
     "2. <div> (/html/body/div/div[2])";
     "   - 新增属性 data-modified=" ++ quote ++ "true" ++ quote]%string.
Proof. vm_compute. reflexivity. Qed.

(** ** Pairs are made parent by parent *)

Lemma pairedUnder_weaken (all all' : list (DOMElementNode * DOMElementNode))
    (p : DOMElementNode * DOMElementNode) :
  (forall q, q ∈ all -> q ∈ all') -> pairedUnder all p -> pairedUnder all' p.
Proof. intros Hsub (q & Hq & ? & ?). exists q. auto. Qed.

Section Parents.

Context {DOMHistoryElement : Type}.
Variable convert : DOMElementNode -> DOMHistoryElement.
Variable compare : DOMHistoryElement -> DOMElementNode -> bool.

Abbreviation identical := (identicalNodes DOMHistoryElement convert compare).
Abbreviation classify := (classifyPair DOMHistoryElement convert compare).
Abbreviation matchNodes := (compareNodes DOMHistoryElement convert compare).
Abbreviation diffTrees := (compareDOMTrees DOMHistoryElement convert compare).

Lemma classifyPair_result (oldNode newNode : DOMElementNode) (st : DiffState) :
  result (classify oldNode newNode st)
  = recordPairs identical [(oldNode, newNode)] (result st).
Proof.
  unfold classifyPair, recordPairs, unchangedOf, modifiedOf. simpl.
  destruct (identical oldNode newNode); simpl; unfold pushUnchanged, pushModified;
    by rewrite app_nil_r.
Qed.

Lemma compareChildNodesWith_parents (news : list DOMElementNode)
    (olds : list DOMBaseNode) :
  Forall (fun c => forall newNode st, exists pairs,
            result (matchNodes c newNode st)
            = recordPairs identical ((c, newNode) :: pairs) (result st) /\
            Forall (pairedUnder ((c, newNode) :: pairs)) pairs)
    (elementChildren olds) ->
  forall st, exists pairs,
    result (compareChildNodesWith matchNodes news olds st)
    = recordPairs identical pairs (result st) /\
    Forall (fun p => (fst p ∈ elementChildren olds /\ snd p ∈ news) \/
                     pairedUnder pairs p) pairs.
Proof.
  induction olds as [|[txt|c] olds IH]; intros Hkids st.
  - exists []. split; [|constructor].
    destruct st as [[a r m u] po pn]. unfold recordPairs. simpl. by rewrite !app_nil_r.
  - by apply IH.
  - simpl in Hkids. apply Forall_cons in Hkids as [Hc Hkids].
    assert (Hskip : exists pairs,
      result (compareChildNodesWith matchNodes news olds st)
      = recordPairs identical pairs (result st) /\
      Forall (fun p => (fst p ∈ elementChildren (DOMElement c :: olds) /\ snd p ∈ news) \/
                       pairedUnder pairs p) pairs).
    { destruct (IH Hkids st) as (pairs & E & Hp). exists pairs. split; [done|].
      eapply Forall_impl; [exact Hp|]. intros p [[? ?]|?]; [left|by right].
      split; [by right|done]. }
    simpl. destruct (decide (ref c ∈ processedOldElements st)); [exact Hskip|].
    destruct (acceptedMatch (findBestMatch c (processedNewElements st) news))
      as [best|] eqn:Hbest; [|exact Hskip].
    apply acceptedMatch_some in Hbest as (Hin & _ & _).
    destruct (Hc best st) as (p1 & E1 & H1).
    destruct (IH Hkids (matchNodes c best st)) as (p2 & E2 & H2).
    exists (((c, best) :: p1) ++ p2). split.
    + by rewrite E2, E1, recordPairs_app.
    + apply Forall_app. split; [apply Forall_cons; split|].
      * left. split; [left|done].
      * eapply Forall_impl; [exact H1|]. intros p Hp. right.
        eapply pairedUnder_weaken; [|exact Hp]. intros q Hq. set_solver.
      * eapply Forall_impl; [exact H2|]. intros p [[? ?]|Hp].
        -- left. split; [by right|done].
        -- right. eapply pairedUnder_weaken; [|exact Hp]. intros q Hq. set_solver.
Qed.

Lemma compareNodes_parents (oldNode : DOMElementNode) :
  forall newNode st, exists pairs,
    result (matchNodes oldNode newNode st)
    = recordPairs identical ((oldNode, newNode) :: pairs) (result st) /\
    Forall (pairedUnder ((oldNode, newNode) :: pairs)) pairs.
Proof.
  induction oldNode as [oldNode IH] using DOMElementNode_tree_ind.
  intros newNode st. rewrite compareNodes_unfold.
  destruct (compareChildNodesWith_parents (elementChildren (children newNode))
              (children oldNode) IH (classify oldNode newNode st)) as (pairs & E & Hp).
  exists pairs. split.
  - rewrite E, classifyPair_result.
    change ((oldNode, newNode) :: pairs) with ([(oldNode, newNode)] ++ pairs).
    by rewrite recordPairs_app.
  - eapply Forall_impl; [exact Hp|]. intros p [[Ho Hn]|Hp'].
    + exists (oldNode, newNode). split; [left|done].
    + eapply pairedUnder_weaken; [|exact Hp']. intros q Hq. by right.
Qed.

(** X12. The comparator pairs nodes parent by parent: the matched pairs,
    from which [unchanged] and [modified] are filled, start with the pair
    of the roots, and the two nodes of every other pair are element
    children of the two nodes of one matched pair.  A node is never paired
    with a node whose parent is not the partner of its own parent. *)
Theorem pairs_follow_their_parents (oldTree newTree : DOMElementNode) :
  exists pairs,
    unchanged (diffTrees oldTree newTree)
    = unchangedOf identical ((oldTree, newTree) :: pairs) /\
    modified (diffTrees oldTree newTree)
    = modifiedOf identical ((oldTree, newTree) :: pairs) /\
    Forall (pairedUnder ((oldTree, newTree) :: pairs)) pairs.
Proof.
  destruct (compareNodes_parents oldTree newTree freshState) as (pairs & E & Hp).
  exists pairs. split; [|split; [|exact Hp]].
  - unfold compareDOMTrees. fold freshState.
    set (st := matchNodes oldTree newTree freshState) in *.
    destruct (sweep_in_order pushRemoved findRemovedElements findRemovedElements_unfold
                oldTree (processedOldElements st, result st)) as (foundOld & Eo & _).
    destruct (findRemovedElements oldTree (processedOldElements st, result st))
      as [p1 r1]. simpl in Eo. subst r1.
    destruct (sweep_in_order pushAdded findAddedElements findAddedElements_unfold
                newTree (processedNewElements st, pushAll pushRemoved foundOld (result st)))
      as (foundNew & En & _).
    destruct (findAddedElements newTree
                (processedNewElements st, pushAll pushRemoved foundOld (result st)))
      as [p2 r2]. simpl in En. subst r2.
    rewrite pushAll_added, pushAll_removed, E. reflexivity.
  - unfold compareDOMTrees. fold freshState.
    set (st := matchNodes oldTree newTree freshState) in *.
    destruct (sweep_in_order pushRemoved findRemovedElements findRemovedElements_unfold
                oldTree (processedOldElements st, result st)) as (foundOld & Eo & _).
    destruct (findRemovedElements oldTree (processedOldElements st, result st))
      as [p1 r1]. simpl in Eo. subst r1.
    destruct (sweep_in_order pushAdded findAddedElements findAddedElements_unfold
                newTree (processedNewElements st, pushAll pushRemoved foundOld (result st)))
      as (foundNew & En & _).
    destruct (findAddedElements newTree
                (processedNewElements st, pushAll pushRemoved foundOld (result st)))
      as [p2 r2]. simpl in En. subst r2.
    rewrite pushAll_added, pushAll_removed, E. reflexivity.
Qed.

End Parents.

Lemma unmatched_iff_no_candidate_above_threshold_witness :
  Binary64.acceptedMatch (Binary64.findBestMatch tieOld ∅ [itemFar; tieFirst; tieSecond])
  = Some tieSecond /\
  (Binary64.threshold <? Binary64.calculateSimilarityScore tieOld tieSecond)%float = true /\
  (Binary64.calculateSimilarityScore tieOld tieSecond
   <? Binary64.calculateSimilarityScore tieOld tieFirst)%float = false.
Proof.
  assert (Hacc : Binary64.acceptedMatch
                   (Binary64.findBestMatch tieOld ∅ [itemFar; tieFirst; tieSecond])
                 = Some tieSecond) by (vm_compute; reflexivity).
  split; [exact Hacc|].
  destruct (unmatched_iff_no_candidate_above_threshold tieOld ∅
              [itemFar; tieFirst; tieSecond]) as [_ Hsome].
  destruct (Hsome tieSecond Hacc) as (_ & _ & Habove & Hmax).
  split; [exact Habove|].
  apply Forall_cons in Hmax as [_ Hmax].
  apply Forall_cons in Hmax as [[Hin|Hle] _]; [|exact Hle].
  apply elem_of_empty in Hin. destruct Hin.
Defined.

(** * The comparator in double precision *)

Lemma double_accepted_some (oldChild : DOMElementNode) (processedNew : gset nat)
    (news : list DOMElementNode) (best : DOMElementNode) :
  Binary64.acceptedMatch (Binary64.findBestMatch oldChild processedNew news) = Some best ->
  best ∈ news /\ (ref best ∉ processedNew) /\ aboveThresholdDouble (oldChild, best).
Proof.
  destruct (Binary64.findBestMatch oldChild processedNew news) as [[b|] s] eqn:E;
    simpl; [|done].
  destruct (Binary64.threshold <? s)%float eqn:Hs; [|done]. intros [= ->].
  apply double_best_some in E as (? & ? & -> & _). done.
Qed.

Lemma double_compareNodes_unfold {H : Type} (convert : DOMElementNode -> H)
    (compare : H -> DOMElementNode -> bool) (oldNode newNode : DOMElementNode)
    (st : DiffState) :
  Binary64.compareNodes H convert compare oldNode newNode st
  = Binary64.compareChildNodesWith (Binary64.compareNodes H convert compare)
      (elementChildren (children newNode)) (children oldNode)
      (classifyPair H convert compare oldNode newNode st).
Proof. destruct oldNode; reflexivity. Qed.

Section DoubleMatcher.

Context {DOMHistoryElement : Type}.
Variable convert : DOMElementNode -> DOMHistoryElement.
Variable compare : DOMHistoryElement -> DOMElementNode -> bool.

Abbreviation identical := (identicalNodes DOMHistoryElement convert compare).
Abbreviation classify := (classifyPair DOMHistoryElement convert compare).
Abbreviation matchNodes := (Binary64.compareNodes DOMHistoryElement convert compare).
Abbreviation diffTrees := (Binary64.compareDOMTrees DOMHistoryElement convert compare).

Lemma double_children_alignment (news : list DOMElementNode)
    (olds : list DOMBaseNode) :
  Forall (alignsPairDouble identical matchNodes) (elementChildren olds) ->
  forall st : DiffState,
  exists pairs,
    alignment identical (elementsOfChildren olds) (flat_map elementsOf news) st
      (Binary64.compareChildNodesWith matchNodes news olds st) pairs /\
    Forall aboveThresholdDouble pairs.
Proof.
  induction olds as [|[txt|oldChild] olds IH]; intros Hkids st.
  - exists []. split; [apply alignment_nil|constructor].
  - simpl. apply IH. exact Hkids.
  - simpl in Hkids. apply Forall_cons in Hkids as [Hchild Hkids].
    specialize (IH Hkids).
    assert (Hskip : exists pairs,
      alignment identical (elementsOfChildren (DOMElement oldChild :: olds))
        (flat_map elementsOf news) st
        (Binary64.compareChildNodesWith matchNodes news olds st) pairs /\
      Forall aboveThresholdDouble pairs).
    { destruct (IH st) as (pairs & Hp & Hs). exists pairs. split; [|done].
      eapply alignment_weaken; [| |exact Hp]; [|done].
      intros x Hx. rewrite elementsOfChildren_element. set_solver. }
    simpl. destruct (decide (ref oldChild ∈ processedOldElements st)) as [|Hfresh];
      [exact Hskip|].
    destruct (Binary64.acceptedMatch (Binary64.findBestMatch oldChild (processedNewElements st) news))
      as [bestMatch|] eqn:Hbest; [|exact Hskip].
    apply double_accepted_some in Hbest as (Hin & Hnew & Habove).
    destruct (Hchild bestMatch st Hfresh Hnew) as (p & Hp & Hps).
    destruct (IH (matchNodes oldChild bestMatch st)) as (q & Hq & Hqs).
    exists (((oldChild, bestMatch) :: p) ++ q). split.
    + eapply alignment_app.
      * eapply alignment_weaken; [| |exact Hp].
        -- intros x Hx. rewrite elementsOfChildren_element. set_solver.
        -- by apply elementsOf_flat_map.
      * eapply alignment_weaken; [| |exact Hq]; [|done].
        intros x Hx. rewrite elementsOfChildren_element. set_solver.
    + apply Forall_app. split; [by apply Forall_cons|done].
Qed.

Lemma double_compareNodes_alignment (oldNode : DOMElementNode) :
alignsPairDouble identical matchNodes oldNode.
Proof.
  induction oldNode as [oldNode IH] using DOMElementNode_tree_ind.
  intros newNode st Ho Hn. rewrite double_compareNodes_unfold.
  destruct (double_children_alignment (elementChildren (children newNode))
              (children oldNode) IH (classify oldNode newNode st)) as (pairs & Hp & Hs).
  exists pairs. split; [|done].
  change ((oldNode, newNode) :: pairs) with ([(oldNode, newNode)] ++ pairs).
  eapply alignment_app.
  - eapply alignment_weaken; [| |by apply classifyPair_alignment].
    + intros x ->%list_elem_of_singleton. apply elementsOf_root.
    + intros x ->%list_elem_of_singleton. apply elementsOf_root.
  - eapply alignment_weaken; [| |exact Hp].
    + intros x Hx. rewrite elementsOf_unfold. by right.
    + intros x Hx. rewrite elementsOf_unfold. by right.
Qed.


(** The result of [Binary64.compareDOMTrees], in terms of the pairs the matcher
    aligned and of what the two sweeps found. *)
Lemma double_outcome (oldTree newTree : DOMElementNode) :
  exists pairs foundOld foundNew,
    let st := matchNodes oldTree newTree freshState in
    diffTrees oldTree newTree
    = {| added := foundNew; removed := foundOld;
         modified := modifiedOf identical ((oldTree, newTree) :: pairs);
         unchanged := unchangedOf identical ((oldTree, newTree) :: pairs) |} /\
    alignment identical (elementsOf oldTree) (elementsOf newTree) freshState st
      ((oldTree, newTree) :: pairs) /\
    Forall aboveThresholdDouble pairs /\
    (NoDup (map ref foundOld) /\
     Forall (fun e => (ref e ∉ processedOldElements st) /\ e ∈ elementsOf oldTree) foundOld /\
     (forall e, e ∈ elementsOf oldTree ->
        ref e ∈ (list_to_set (map ref foundOld) ∪ processedOldElements st : gset nat))) /\
    (NoDup (map ref foundNew) /\
     Forall (fun e => (ref e ∉ processedNewElements st) /\ e ∈ elementsOf newTree) foundNew /\
     (forall e, e ∈ elementsOf newTree ->
        ref e ∈ (list_to_set (map ref foundNew) ∪ processedNewElements st : gset nat))).
Proof.
  destruct (double_compareNodes_alignment oldTree newTree freshState)
    as (pairs & Hal & Habove); [set_solver|set_solver|].
  unfold Binary64.compareDOMTrees. fold freshState.
  set (st := matchNodes oldTree newTree freshState) in *.
  destruct (sweepOutcome_node pushRemoved findRemovedElements findRemovedElements_unfold
              oldTree (processedOldElements st) (result st))
    as (foundOld & Eo & Hdo & Hfo & Hallo).
  rewrite Eo.
  destruct (sweepOutcome_node pushAdded findAddedElements findAddedElements_unfold
              newTree (processedNewElements st) (pushAll pushRemoved foundOld (result st)))
    as (foundNew & En & Hdn & Hfn & Halln).
  rewrite En.
  exists pairs, foundOld, foundNew. cbv zeta.
  split; [|split; [exact Hal|split; [exact Habove|split; by repeat split]]].
  rewrite pushAll_added, pushAll_removed. simpl.
  rewrite (al_result _ _ _ _ _ _ Hal). simpl. reflexivity.
Qed.

(** On well-formed snapshots the nodes found by a sweep and the nodes the
    matcher aligned make up the whole tree, on either side. *)
Lemma double_partition (oldTree newTree : DOMElementNode) :
  wellFormed oldTree ->
  wellFormed newTree ->
  exists pairs,
    let all := (oldTree, newTree) :: pairs in
    modified (diffTrees oldTree newTree) = modifiedOf identical all /\
    unchanged (diffTrees oldTree newTree) = unchangedOf identical all /\
    removed (diffTrees oldTree newTree) ++ map fst all ≡ₚ elementsOf oldTree /\
    added (diffTrees oldTree newTree) ++ map snd all ≡ₚ elementsOf newTree /\
    Forall aboveThresholdDouble pairs.
Proof.
  intros Hwo Hwn. unfold wellFormed, refsOf in *.
  destruct (double_outcome oldTree newTree)
    as (pairs & foundOld & foundNew & E & Hal & Habove
        & (Hdo & Hfo & Hallo) & (Hdn & Hfn & Halln)).
  simpl in E. exists pairs. cbv zeta. rewrite E.
  cbn [added removed modified unchanged].
  set (all := (oldTree, newTree) :: pairs) in *.
  destruct Hal as [_ Ho Hn Hu Hv _ Hfrom].
  split; [done|]. split; [done|]. split; [|split; [|done]].
  - apply found_and_matched_partition with (p := processedOldElements
      (matchNodes oldTree newTree freshState)); try done.
    + by rewrite map_map.
    + rewrite Ho, map_map. simpl. set_solver.
    + apply Forall_fmap. eapply Forall_impl; [exact Hfrom|]. by intros p [? ?].
  - apply found_and_matched_partition with (p := processedNewElements
      (matchNodes oldTree newTree freshState)); try done.
    + by rewrite map_map.
    + rewrite Hn, map_map. simpl. set_solver.
    + apply Forall_fmap. eapply Forall_impl; [exact Hfrom|]. by intros p [? ?].
Qed.

(** X14. With the scores computed in double precision the classification
    is exactly-once as well: on well-formed snapshots, the removed nodes,
    the old sides of the modified entries and the unchanged nodes together
    are the element nodes of the old tree, each exactly once; and the added
    nodes, the new sides of the modified entries and the matched
    counterparts of the unchanged nodes together are the element nodes of
    the new tree, each exactly once. *)
Theorem double_precision_classifies_exactly_once (oldTree newTree : DOMElementNode) :
  wellFormed oldTree ->
  wellFormed newTree ->
  let r := diffTrees oldTree newTree in
  NoDup (elementsOf oldTree) /\
  NoDup (elementsOf newTree) /\
  removed r ++ map oldElement (modified r) ++ unchanged r ≡ₚ elementsOf oldTree /\
  exists counterparts,
    Forall2 (fun o n => identical o n = true) (unchanged r) counterparts /\
    added r ++ map newElement (modified r) ++ counterparts ≡ₚ elementsOf newTree.
Proof.
  intros Hwo Hwn r.
  destruct (double_partition oldTree newTree Hwo Hwn)
    as (pairs & Hm & Hu & Hold & Hnew & _).
  subst r. rewrite Hm, Hu. unfold wellFormed, refsOf in *.
  set (all := (oldTree, newTree) :: pairs) in *.
  split; [by apply (NoDup_fmap_1 ref)|]. split; [by apply (NoDup_fmap_1 ref)|]. split.
  - rewrite modifiedOf_old. unfold unchangedOf. by rewrite split_by_identity.
  - exists (map snd (List.filter (fun p => identical (fst p) (snd p)) all)).
    split; [apply unchanged_counterparts|].
    by rewrite modifiedOf_new, split_by_identity.
Qed.

(** X15. With the scores computed in double precision the roots are forced
    into a match as well: whatever their similarity, the old root heads
    [unchanged] when the identity check accepts the pair and otherwise
    heads [modified] together with the new root; no later entry is the old
    root again, the old root is never in [removed] and the new root is
    never in [added]. *)
Theorem double_precision_pairs_the_roots (oldTree newTree : DOMElementNode) :
  let r := diffTrees oldTree newTree in
  (if identical oldTree newTree
   then exists rest,
          unchanged r = oldTree :: rest /\
          Forall (fun e => ref e <> ref oldTree) rest /\
          Forall (fun m => ref (oldElement m) <> ref oldTree /\
                           ref (newElement m) <> ref newTree) (modified r)
   else exists rest,
          modified r
          = {| oldElement := oldTree; newElement := newTree;
               changes := detectElementChanges oldTree newTree |} :: rest /\
          Forall (fun m => ref (oldElement m) <> ref oldTree /\
                           ref (newElement m) <> ref newTree) rest /\
          Forall (fun e => ref e <> ref oldTree) (unchanged r)) /\
  Forall (fun e => ref e <> ref oldTree) (removed r) /\
  Forall (fun e => ref e <> ref newTree) (added r).
Proof.
  intros r.
  destruct (double_outcome oldTree newTree)
    as (pairs & foundOld & foundNew & E & Hal & _ & (_ & Hfo & _) & (_ & Hfn & _)).
  simpl in E. subst r. rewrite E. simpl.
  destruct Hal as [_ Ho Hn Hu Hv _ _]. simpl in Hu, Hv.
  apply NoDup_cons in Hu as [Hu _]. apply NoDup_cons in Hv as [Hv _].
  assert (Hrest : Forall (fun e => ref e <> ref oldTree) (unchangedOf identical pairs)).
  { apply Forall_forall. intros e (p & Hp & <-)%unchangedOf_from E'.
    apply Hu. rewrite <- E'. by apply (list_elem_of_fmap_2 (fun p => ref (fst p))). }
  assert (Hmod : Forall (fun m => ref (oldElement m) <> ref oldTree /\
                                  ref (newElement m) <> ref newTree)
                   (modifiedOf identical pairs)).
  { apply Forall_forall. intros m (p & Hp & -> & ->)%modifiedOf_from. split; intros E'.
    - apply Hu. rewrite <- E'. by apply (list_elem_of_fmap_2 (fun p => ref (fst p))).
    - apply Hv. rewrite <- E'. by apply (list_elem_of_fmap_2 (fun p => ref (snd p))). }
  split; [|split].
  - unfold unchangedOf, modifiedOf. simpl.
    destruct (identical oldTree newTree); simpl.
    + exists (unchangedOf identical pairs). done.
    + exists (modifiedOf identical pairs). done.
  - eapply Forall_impl; [exact Hfo|]. intros e [Hout _] E'.
    apply Hout. rewrite Ho, E'. simpl. set_solver.
  - eapply Forall_impl; [exact Hfn|]. intros e [Hout _] E'.
    apply Hout. rewrite Hn, E'. simpl. set_solver.
Qed.

End DoubleMatcher.

Lemma double_precision_classifies_exactly_once_witness :
  wellFormed idTree /\ wellFormed idTreeLater /\
  let r := Binary64.compareDOMTrees DOMElementNode specConvert specCompare
             idTree idTreeLater in
  removed r ++ map oldElement (modified r) ++ unchanged r ≡ₚ elementsOf idTree /\
  exists counterparts,
    Forall2 (fun o n => identicalNodes DOMElementNode specConvert specCompare o n = true)
      (unchanged r) counterparts /\
    added r ++ map newElement (modified r) ++ counterparts ≡ₚ elementsOf idTreeLater.
Proof.
  assert (Hold : wellFormed idTree) by (by apply (bool_decide_unpack _)).
  assert (Hnew : wellFormed idTreeLater) by (by apply (bool_decide_unpack _)).
  split; [exact Hold|]. split; [exact Hnew|].
  destruct (double_precision_classifies_exactly_once specConvert specCompare
              idTree idTreeLater Hold Hnew) as (_ & _ & Ho & Hn).
  split; [exact Ho|exact Hn].
Defined.
